(** * Coherence-graph pipeline of [simulacion_sic/grafo_coherencia.py]

    A shallow embedding of the matrix construction, the threshold graph,
    the component search, the Laplacian summary, the percolation sweep,
    the dynamic evolution and the small-world check, followed by the
    properties established about them.

    Numbers.  numpy's float64 entries are modelled by exact rationals
    ([Q]); numeric equality is [Qeq].  The pseudo-random generator, the
    eigenvalue solver, the logarithm and the two networkx aggregates that
    need roots are external to the repository and are parameters of the
    development.

    Containers.  A 2-d array is a list of rows; the array operations are
    embedded for square arrays, the shape of every array the programs
    build, and the statements that assert a returned result ask for a
    square argument ([nx.from_numpy_array] raises [NetworkXError] on any
    other shape).  A networkx graph is the
    insertion-ordered node list together with the adjacency dictionary of
    dictionaries, a [gmap nat (gmap nat Q)] holding the ['weight']
    attribute of every edge. *)

From Stdlib Require Import QArith Qminmax Qabs Lqa Lia ZArith List.
From Stdlib Require Import String DecimalString Sorted.
From stdpp Require Import gmap list strings relations.
Import ListNotations.

#[local] Set Warnings "-clear-no-such-hyp".

Open Scope Q_scope.

(** ** Exceptions *)

Inductive exn : Set :=
  | ValueError
  | ZeroDivisionError
  | IndexError
  | LinAlgError
  | NetworkXError.

Inductive outcome (A : Type) : Type :=
  | Ok (a : A)
  | Raise (e : exn).
Arguments Ok {A} a.
Arguments Raise {A} e.

(** Sequencing: the first exception raised aborts the rest. *)
#[global] Instance outcome_bind : MBind outcome :=
  fun A B (k : A -> outcome B) (r : outcome A) =>
    match r with
    | Ok a => k a
    | Raise e => Raise e
    end.

#[global] Instance outcome_ret : MRet outcome := fun A a => Ok a.

(** [try: ... except Exception: h] *)
Definition try_except {A : Type} (r : outcome A) (h : A) : A :=
  match r with
  | Ok a => a
  | Raise _ => h
  end.

(** [x < y] on floats, as a boolean *)
Definition Qltb (x y : Q) : bool := if Qlt_le_dec x y then true else false.

(** ** numpy arrays *)

Module Np.

Definition Matrix : Type := list (list Q).

(** [M[i, j]] *)
Definition get (M : Matrix) (i j : nat) : Q := nth j (nth i M []) 0.

(** [M.shape[0]] *)
Definition shape0 (M : Matrix) : nat := length M.

(** The array whose [(i, j)] entry is [f i j]. *)
Definition tabulate (n : nat) (f : nat -> nat -> Q) : Matrix :=
  map (fun i => map (fun j => f i j) (seq 0 n)) (seq 0 n).

(** A well-formed [n] by [n] array. *)
Definition square (n : nat) (M : Matrix) : Prop :=
  length M = n /\ Forall (fun row => length row = n) M.

(** [M.copy()] *)
Definition copy (M : Matrix) : Matrix := M.

(** [M.T] *)
Definition T (M : Matrix) : Matrix :=
  tabulate (shape0 M) (fun i j => get M j i).

(** [A + B] *)
Definition add (A B : Matrix) : Matrix :=
  tabulate (shape0 A) (fun i j => get A i j + get B i j).

(** [A / c] *)
Definition div (A : Matrix) (c : Q) : Matrix :=
  tabulate (shape0 A) (fun i j => get A i j / c).

(** [np.fill_diagonal(M, v)] *)
Definition fill_diagonal (M : Matrix) (v : Q) : Matrix :=
  tabulate (shape0 M) (fun i j => if (i =? j)%nat then v else get M i j).

(** [np.clip(M, lo, hi)], that is [minimum(maximum(M, lo), hi)] *)
Definition clip (M : Matrix) (lo hi : Q) : Matrix :=
  tabulate (shape0 M) (fun i j => Qmin (Qmax (get M i j) lo) hi).

(** [M[M < c] = v] *)
Definition set_where_lt (M : Matrix) (c v : Q) : Matrix :=
  tabulate (shape0 M)
    (fun i j => if Qlt_le_dec (get M i j) c then v else get M i j).

(** [zip( *A.nonzero())]: the positions of the non-zero entries, in
    row-major order. *)
Definition nonzero (A : Matrix) : list (nat * nat) :=
  let n := shape0 A in
  flat_map
    (fun i => flat_map
       (fun j => if Qeq_bool (get A i j) 0 then [] else [(i, j)])
       (seq 0 n))
    (seq 0 n).

(** [np.linspace(start, stop, num)], in the order numpy computes it:
    a negative [num] is refused; [delta = stop - start],
    [div = num - 1], [y = arange(0, num)]; [step = delta / div] and
    [y = y * step] when [div > 0] (through [y / div * delta] should the
    step vanish), [y = y * delta] otherwise; [y += start]; and the last
    entry is set to [stop] itself when [num > 1]. *)
Definition linspace (start stop : Q) (num : Z) : outcome (list Q) :=
  if (num <? 0)%Z then Raise ValueError
  else
    let n := Z.to_nat num in
    let div := inject_Z (Z.of_nat (n - 1)) in
    let delta := stop - start in
    let y := map (fun i => inject_Z (Z.of_nat i)) (seq 0 n) in
    let y :=
      if (0 <? n - 1)%nat then
        let step := delta / div in
        if Qeq_bool step 0 then map (fun x => x / div * delta) y
        else map (fun x => x * step) y
      else map (fun x => x * delta) y in
    let y := map (fun x => x + start) y in
    let y := if (1 <? n)%nat then <[(length y - 1)%nat := stop]> y else y in
    Ok y.

(** [np.diff(a)] *)
Fixpoint diff (a : list Q) : list Q :=
  match a with
  | x :: (y :: _) as tl => (y - x) :: diff tl
  | _ => []
  end.

(** Index of the first maximum of [x :: l], the head having index [i]. *)
Fixpoint argmax_from (i : nat) (best : nat) (bv : Q) (l : list Q) : nat :=
  match l with
  | [] => best
  | y :: l' =>
      if Qlt_le_dec bv y then argmax_from (S i) i y l'
      else argmax_from (S i) best bv l'
  end.

(** [np.argmax(a)]; the empty sequence is refused. *)
Definition argmax (a : list Q) : outcome nat :=
  match a with
  | [] => Raise ValueError
  | x :: l => Ok (argmax_from 1 0 x l)
  end.

(** [np.sort(a)] *)
Fixpoint insert_sorted (x : Q) (l : list Q) : list Q :=
  match l with
  | [] => [x]
  | y :: l' => if Qlt_le_dec y x then y :: insert_sorted x l' else x :: l
  end.

Definition sort (a : list Q) : list Q := fold_right insert_sorted [] a.

(** [a[i]] on a 1-d array *)
Definition index (a : list Q) (i : nat) : outcome Q :=
  match a !! i with
  | Some x => Ok x
  | None => Raise IndexError
  end.

(** [np.sum(np.abs(a) < tol)] *)
Definition count_abs_lt (a : list Q) (tol : Q) : nat :=
  length (List.filter (fun x => Qltb (Qabs x) tol) a).

End Np.

Abbreviation Matrix := Np.Matrix.

(** ** networkx graphs *)

Module Nx.

(** [nodes]: the keys of [G._node] in insertion order;
    [adj]: [G._adj], every inner entry holding the edge's weight. *)
Record Graph : Type := { nodes : list nat; adj : gmap nat (gmap nat Q) }.

(** [nx.empty_graph(0)] *)
Definition empty_graph : Graph := {| nodes := []; adj := ∅ |}.

(** [G.add_node(v)] *)
Definition add_node (v : nat) (G : Graph) : Graph :=
  if decide (v ∈ nodes G) then G
  else {| nodes := nodes G ++ [v]; adj := <[v := ∅]> (adj G) |}.

(** [G.add_nodes_from(vs)] *)
Definition add_nodes_from (vs : list nat) (G : Graph) : Graph :=
  foldl (fun G v => add_node v G) G vs.

(** [G.add_edge(u, v, weight=w)]: missing endpoints are created, then the
    attribute is written in both directions, overwriting an older one. *)
Definition add_edge (u v : nat) (w : Q) (G : Graph) : Graph :=
  let G := add_node v (add_node u G) in
  let a1 := <[u := <[v := w]> (adj G !!! u)]> (adj G) in
  let a2 := <[v := <[u := w]> (a1 !!! v)]> a1 in
  {| nodes := nodes G; adj := a2 |}.

(** [nx.from_numpy_array(A)] for an undirected simple graph: the nodes
    [0 .. n-1], then one [add_edge] per non-zero entry, row by row. *)
Definition from_numpy_array (A : Matrix) : Graph :=
  let G := add_nodes_from (seq 0 (Np.shape0 A)) empty_graph in
  foldl (fun G '(u, v) => add_edge u v (Np.get A u v) G) G (Np.nonzero A).

(** [G[u][v]['weight']], when the edge exists *)
Definition weight (G : Graph) (u v : nat) : option Q :=
  adj G !! u ≫= lookup v.

(** [G.has_edge(u, v)] *)
Definition has_edge (G : Graph) (u v : nat) : Prop := is_Some (weight G u v).

(** [G[u]] as a set: the neighbours of [u] *)
Definition neighbors (G : Graph) (u : nat) : gset nat := dom (adj G !!! u).

(** [G.number_of_nodes()] *)
Definition number_of_nodes (G : Graph) : nat := length (nodes G).

(** [G.degree(v)] without weights: a self-loop counts twice. *)
Definition degree (G : Graph) (v : nat) : nat :=
  (size (neighbors G v) + if decide (v ∈ neighbors G v) then 1 else 0)%nat.

(** [G.number_of_edges()]: half the degree sum. *)
Definition number_of_edges (G : Graph) : nat :=
  (foldr Nat.add 0 (map (degree G) (nodes G)) / 2)%nat.

(** One level of [_plain_bfs]: the unseen neighbours of the current
    level become the next level. *)
Definition next_level (G : Graph) (seen level : gset nat) : gset nat :=
  set_bind (neighbors G) level ∖ seen.

(** [_plain_bfs(G, source)]: levels are expanded until one is empty; a
    graph has at most as many levels as nodes, which bounds the loop. *)
Fixpoint bfs_loop (G : Graph) (fuel : nat) (seen level : gset nat) : gset nat :=
  match fuel with
  | O => seen
  | S fuel' =>
      if decide (level = ∅) then seen
      else
        let nxt := next_level G seen level in
        bfs_loop G fuel' (seen ∪ nxt) nxt
  end.

Definition plain_bfs (G : Graph) (source : nat) : gset nat :=
  bfs_loop G (number_of_nodes G) {[source]} {[source]}.

(** [list(nx.connected_components(G))]: nodes are visited in order, each
    unseen one starts a search and yields its component. *)
Definition cc_step (G : Graph) (st : gset nat * list (gset nat)) (v : nat)
  : gset nat * list (gset nat) :=
  let '(seen, comps) := st in
  if decide (v ∈ seen) then st
  else let c := plain_bfs G v in (seen ∪ c, comps ++ [c]).

Definition connected_components (G : Graph) : list (gset nat) :=
  snd (foldl (cc_step G) (∅, []) (nodes G)).

(** [G.subgraph(S).copy()] *)
Definition subgraph (G : Graph) (S : gset nat) : Graph :=
  {| nodes := List.filter (fun v => bool_decide (v ∈ S)) (nodes G);
     adj := (fun nb => filter (fun kv => kv.1 ∈ S) nb)
              <$> filter (fun kv => kv.1 ∈ S) (adj G) |}.

(** Entry [(i, j)] of the weighted adjacency matrix in node order. *)
Definition adjacency (G : Graph) (i j : nat) : Q :=
  match nodes G !! i, nodes G !! j with
  | Some u, Some v => default 0 (weight G u v)
  | _, _ => 0
  end.

(** [nx.laplacian_matrix(G, weight='weight').toarray()]: [D - A] with
    [D] the diagonal of the row sums of [A]. *)
Definition laplacian_matrix (G : Graph) : Matrix :=
  let n := number_of_nodes G in
  Np.tabulate n
    (fun i j =>
       (if (i =? j)%nat
        then foldr Qplus 0 (map (adjacency G i) (seq 0 n))
        else 0) - adjacency G i j).

End Nx.

Abbreviation Graph := Nx.Graph.

(** [max(len(c) for c in components) if components else 0] *)
Definition giant_size (components : list (gset nat)) : nat :=
  foldr Nat.max 0%nat (map size components).

(** [max(components, key=len)]: the first component of maximal size. *)
Fixpoint max_by_len (best : gset nat) (cs : list (gset nat)) : gset nat :=
  match cs with
  | [] => best
  | c :: cs' =>
      if (size best <? size c)%nat then max_by_len c cs' else max_by_len best cs'
  end.

(** ** The random generator

    [np.random.default_rng(seed)] is a stream of draws; the generator
    state is the seed and the number of draws consumed so far.  An
    integer seed must be non-negative: numpy refuses a negative one with
    [ValueError]. *)

Record Generator : Set := { rng_seed : Z; rng_pos : nat }.

Definition default_rng (seed : Z) : outcome Generator :=
  if (seed <? 0)%Z then Raise ValueError
  else Ok {| rng_seed := seed; rng_pos := 0 |}.

Section RandomSource.

(** [uniform seed k]: the [k]-th uniform draw of the stream. *)
Variable uniform : Z -> nat -> Q.
(** [gauss seed k]: the [k]-th standard normal draw of the stream. *)
Variable gauss : Z -> nat -> Q.

(** [rng.random((n, n))] *)
Definition rng_random (g : Generator) (n : nat) : Matrix * Generator :=
  (Np.tabulate n (fun i j => uniform (rng_seed g) (rng_pos g + i * n + j)),
   {| rng_seed := rng_seed g; rng_pos := rng_pos g + n * n |}).

(** [rng.normal(loc, scale, (n, n))] *)
Definition rng_normal (g : Generator) (loc scale : Q) (n : nat)
  : Matrix * Generator :=
  (Np.tabulate n
     (fun i j => loc + scale * gauss (rng_seed g) (rng_pos g + i * n + j)),
   {| rng_seed := rng_seed g; rng_pos := rng_pos g + n * n |}).

(** ** 1. Matrix construction *)

Definition create_coherence_matrix (n : Z) (seed : Z) : outcome Matrix :=
  rng ← default_rng seed;
  if (n <? 0)%Z then Raise ValueError   (* negative dimensions *)
  else
    let '(M, _) := rng_random rng (Z.to_nat n) in
    let M := Np.div (Np.add M (Np.T M)) 2 in
    let M := Np.fill_diagonal M 1 in
    Ok M.

End RandomSource.

(** ** 2. Graph construction *)

Definition build_graph (M : Matrix) (epsilon : Q) : Graph :=
  let M_eff := Np.copy M in
  let M_eff := Np.set_where_lt M_eff epsilon 0 in
  let M_eff := Np.fill_diagonal M_eff 0 in   (* no self-loops in the graph *)
  let G := Nx.from_numpy_array M_eff in
  G.


(** ** 3. Topological metrics

    The part of [compute_topology] that counts components; the degree,
    centrality, clustering and path metrics of that function are
    networkx aggregates and are not embedded.  The counting lines are
    reached for every graph with a node; on the empty graph the function
    raises [ZeroDivisionError] in [nx.average_clustering] before them,
    so the statements about the reported counts are read for a
    non-empty matrix. *)

Record TopologyComponents : Type := {
  n_components : nat;
  topo_giant_size : nat
}.

Definition compute_topology (G : Graph) : TopologyComponents :=
  (* Connected components *)
  let components := Nx.connected_components G in
  {| n_components := length components;
     topo_giant_size := giant_size components |}.

(** ** 4. Laplacian spectrum *)

Record LaplacianResult : Type := {
  eigenvalues : list Q;
  fiedler : Q;
  n_zeros : nat;
  laplacian : option Matrix
}.

(** The tolerance [1e-8]. *)
Definition zero_tol : Q := 1 # 100000000.

Section Spectral.

(** [np.linalg.eigvalsh]; it may fail to converge. *)
Variable eigvalsh : Matrix -> outcome (list Q).

Definition compute_laplacian (G : Graph) : outcome LaplacianResult :=
  let n := Nx.number_of_nodes G in
  if (n =? 0)%nat then
    Ok {| eigenvalues := []; fiedler := 0; n_zeros := 0%nat; laplacian := None |}
  else
    let L := Nx.laplacian_matrix G in
    ev ← eigvalsh L;
    let eigenvalues := Np.sort ev in
    (* Count near-zero eigenvalues (connected components) *)
    let n_zeros := Np.count_abs_lt eigenvalues zero_tol in
    (* Fiedler value = second smallest eigenvalue *)
    fiedler ← (if (1 <? n)%nat then Np.index eigenvalues 1 else Ok 0);
    Ok {| eigenvalues := eigenvalues; fiedler := fiedler;
          n_zeros := n_zeros; laplacian := Some L |}.

(** ** 5. Percolation curve *)

Record PercolationResult : Type := {
  epsilons : list Q;
  n_clusters : list nat;
  giant_sizes : list Q;
  fiedler_values : list Q;
  eps_c : Q
}.

(** The three lists grown by the sweep. *)
Record SweepState : Type := {
  n_clusters_list : list nat;
  sw_giant_sizes : list Q;
  sw_fiedler_values : list Q
}.

(** [giant / n] on Python integers *)
Definition int_div (a b : nat) : outcome Q :=
  if (b =? 0)%nat then Raise ZeroDivisionError
  else Ok (inject_Z (Z.of_nat a) / inject_Z (Z.of_nat b)).

(** The Fiedler entry recorded for one threshold. *)
Definition sweep_fiedler (G : Graph) : Q :=
  if (1 <? Nx.number_of_nodes G)%nat && (0 <? Nx.number_of_edges G)%nat then
    try_except
      (let L := Nx.laplacian_matrix G in
       ev ← eigvalsh L;
       let eigs := Np.sort ev in
       if (1 <? length eigs)%nat then Np.index eigs 1 else Ok 0)
      0
  else 0.

(** The body of the loop over [epsilons]. *)
Definition sweep_body (M : Matrix) (n : nat) (st : SweepState) (eps : Q)
  : outcome SweepState :=
  let G := build_graph M eps in
  let components := Nx.connected_components G in
  let ncl := n_clusters_list st ++ [length components] in
  let giant := giant_size components in
  q ← int_div giant n;
  let gs := sw_giant_sizes st ++ [q] in
  let fv := sw_fiedler_values st ++ [sweep_fiedler G] in
  Ok {| n_clusters_list := ncl; sw_giant_sizes := gs; sw_fiedler_values := fv |}.

(** [for x in xs: st = body(st, x)], stopping at the first exception. *)
Fixpoint for_each {S X : Type} (body : S -> X -> outcome S) (xs : list X)
    (st : S) : outcome S :=
  match xs with
  | [] => Ok st
  | x :: xs' => st' ← body st x; for_each body xs' st'
  end.

Definition percolation_curve (M : Matrix) (n_steps : Z)
  : outcome PercolationResult :=
  epsilons ← Np.linspace (1 # 100) (99 # 100) n_steps;
  let n := Np.shape0 M in
  st ← for_each (sweep_body M n) epsilons
         {| n_clusters_list := []; sw_giant_sizes := [];
            sw_fiedler_values := [] |};
  (* Find critical epsilon (max derivative of n_clusters) *)
  let n_arr := map (fun k => inject_Z (Z.of_nat k)) (n_clusters_list st) in
  let deriv := Np.diff n_arr in
  i ← Np.argmax deriv;
  let eps_c_idx := (i + 1)%nat in
  eps_c ← Np.index epsilons eps_c_idx;
  Ok {| epsilons := epsilons; n_clusters := n_clusters_list st;
        giant_sizes := sw_giant_sizes st;
        fiedler_values := sw_fiedler_values st; eps_c := eps_c |}.

End Spectral.

(** ** 6. Dynamic graph simulation *)

Inductive event_kind : Set := FUSION | FISSION.

(** [str(n)] *)
Definition str (n : nat) : string := NilEmpty.string_of_uint (Nat.to_uint n).

(** [(t, kind, f'{a}->{b}')] *)
Definition Event : Type := nat * event_kind * string.

Record Snapshot : Type := {
  snap_time : nat;
  snap_M : Matrix;
  snap_G : Graph;
  snap_n_components : nat
}.

Record DynamicResult : Type := {
  snapshots : list Snapshot;
  n_components_history : list nat;
  events : list Event;
  dyn_n_steps : Z
}.

(** The variables live across the iterations of the loop. *)
Record DynState : Type := {
  ds_rng : Generator;
  ds_M_t : Matrix;
  ds_prev_components : option (list (gset nat));
  ds_snapshots : list Snapshot;
  ds_history : list nat;
  ds_events : list Event
}.

Section Dynamics.

Variable gauss : Z -> nat -> Q.

(** [x = rng.normal(0, scale, (n, n)); x = (x + x.T) / 2;
    np.fill_diagonal(x, 0)] *)
Definition perturbation (rng : Generator) (scale : Q) (n : nat)
  : Matrix * Generator :=
  let '(x, rng) := rng_normal gauss rng 0 scale n in
  let x := Np.div (Np.add x (Np.T x)) 2 in
  let x := Np.fill_diagonal x 0 in
  (x, rng).

(** The matrix update of one step. *)
Definition evolve (M_t noise drift : Matrix) : Matrix :=
  let M_t := Np.add (Np.add M_t noise) drift in
  let M_t := Np.clip M_t 0 1 in
  let M_t := Np.fill_diagonal M_t 1 in
  (* Ensure symmetry *)
  let M_t := Np.div (Np.add M_t (Np.T M_t)) 2 in
  M_t.

(** The event appended at step [t], if any. *)
Definition detect_event (t : nat) (prev_components : option (list (gset nat)))
    (n_comp : nat) : list Event :=
  match prev_components with
  | Some prev =>
      if (n_comp <? length prev)%nat then
        [(t, FUSION, str (length prev) ++ "->" ++ str n_comp)%string]
      else if (length prev <? n_comp)%nat then
        [(t, FISSION, str (length prev) ++ "->" ++ str n_comp)%string]
      else []
  | None => []
  end.

Definition dyn_body (n : nat) (n_steps : Z) (epsilon : Q)
    (st : DynState) (t : nat) : DynState :=
  (* Add correlated noise + slow drift *)
  let '(noise, rng) := perturbation (ds_rng st) (3 # 100) n in
  let '(drift, rng) := perturbation rng (1 # 100) n in
  let M_t := evolve (ds_M_t st) noise drift in
  let G := build_graph M_t epsilon in
  let components := Nx.connected_components G in
  let n_comp := length components in
  let history := ds_history st ++ [n_comp] in
  (* Detect topological events *)
  let events := ds_events st ++ detect_event t (ds_prev_components st) n_comp in
  let prev_components := Some components in
  (* Save snapshots at key times *)
  let tz := Z.of_nat t in
  let snapshots :=
    if (tz =? 0)%Z || (tz =? n_steps / 2)%Z || (tz =? n_steps - 1)%Z then
      ds_snapshots st ++
        [{| snap_time := t; snap_M := Np.copy M_t; snap_G := G;
            snap_n_components := n_comp |}]
    else ds_snapshots st in
  {| ds_rng := rng; ds_M_t := M_t; ds_prev_components := prev_components;
     ds_snapshots := snapshots; ds_history := history; ds_events := events |}.

(** The variables before the loop, once the generator [rng] exists. *)
Definition dyn_init (M_base : Matrix) (rng : Generator) : DynState :=
  {| ds_rng := rng; ds_M_t := Np.copy M_base; ds_prev_components := None;
     ds_snapshots := []; ds_history := []; ds_events := [] |}.

(** The state after the iterations [t = 0 .. k-1] of the loop. *)
Definition dyn_iter (M_base : Matrix) (n_steps : Z) (epsilon : Q)
    (rng : Generator) (k : nat) : DynState :=
  let n := Np.shape0 M_base in
  foldl (dyn_body n n_steps epsilon) (dyn_init M_base rng) (seq 0 k).

(** The state after the loop [for t in range(n_steps)]. *)
Definition dyn_run (M_base : Matrix) (n_steps : Z) (epsilon : Q)
    (rng : Generator) : DynState :=
  dyn_iter M_base n_steps epsilon rng (Z.to_nat n_steps).

(** The generator is created first, from [seed + 100]; its refusal of a
    negative seed is the only exception of the function. *)
Definition simulate_dynamic_graph (M_base : Matrix) (n_steps : Z)
    (epsilon : Q) (seed : Z) : outcome DynamicResult :=
  rng ← default_rng (seed + 100);
  let st := dyn_run M_base n_steps epsilon rng in
  Ok {| snapshots := ds_snapshots st;
        n_components_history := ds_history st;
        events := ds_events st;
        dyn_n_steps := n_steps |}.

End Dynamics.

(** ** 7. Small-world detection *)

(** The values stored in the result dictionary. *)
Inductive pyval : Type :=
  | PyBool (b : bool)
  | PyNum (q : Q).

Definition num_of (v : pyval) : Q :=
  match v with
  | PyBool b => if b then 1 else 0
  | PyNum q => q
  end.

Section SmallWorld.

(** [nx.average_clustering(G, weight='weight')] *)
Variable average_clustering : Graph -> Q.
(** [nx.average_shortest_path_length(G)]; refuses a disconnected graph. *)
Variable average_shortest_path_length : Graph -> outcome Q.
(** [np.log] *)
Variable log : Q -> Q.

Definition check_small_world (G : Graph) (n_nodes : Z) : gmap string pyval :=
  let result : gmap string pyval :=
    <["sigma" := PyNum 0]> (<["is_small_world" := PyBool false]> ∅) in
  if (Nx.number_of_edges G =? 0)%nat || (Nx.number_of_nodes G <? 4)%nat then
    result
  else
    (* Average clustering *)
    let C_actual := average_clustering G in
    (* Random graph reference *)
    let m := Nx.number_of_edges G in
    let n := Nx.number_of_nodes G in
    if (n <? 2)%nat then result
    else
      let p :=
        if (1 <? n)%nat
        then 2 * inject_Z (Z.of_nat m) / inject_Z (Z.of_nat (n * (n - 1)))
        else 0 in
      let C_random := p in
      (* Average path length (only in giant component) *)
      let components := Nx.connected_components G in
      match components with
      | [] => result   (* unreachable: the graph has nodes *)
      | c0 :: cs =>
          let giant_nodes := max_by_len c0 cs in
          if (size giant_nodes <? 4)%nat then result
          else
            let G_giant := Nx.subgraph G giant_nodes in
            match average_shortest_path_length G_giant with
            | Raise _ => result
            | Ok L_actual =>
                let L_random :=
                  log (inject_Z (Z.of_nat (size giant_nodes)))
                  / log (Qmax 2 (num_of (default (PyNum 2)
                                           (result !! "avg_degree")))) in
                let L_random := if Qeq_bool L_random 0 then 1 else L_random in
                (* Small-world coefficient sigma = (C/C_rand) / (L/L_rand) *)
                if Qltb 0 C_random && Qltb 0 L_actual then
                  let gamma_sw := C_actual / C_random in
                  let lambda_sw := L_actual / Qmax L_random (1 # 100) in
                  let sigma := gamma_sw / Qmax lambda_sw (1 # 100) in
                  let result := <["sigma" := PyNum sigma]> result in
                  let result :=
                    <["is_small_world" :=
                        PyBool (Qltb 1 sigma)]>
                      result in
                  let result := <["C_ratio" := PyNum gamma_sw]> result in
                  let result := <["L_ratio" := PyNum lambda_sw]> result in
                  result
                else
                  <["sigma" := PyNum 0]> result
            end
      end.

End SmallWorld.

(** ** The matrix pipeline of [simulacion_sic.py] *)

(** [a[-1]] on a 1-d array *)
Definition item_last (a : list Q) : outcome Q :=
  match last a with
  | Some x => Ok x
  | None => Raise IndexError
  end.

(** [M[np.ix_(rows, cols)]] *)
Definition ix_ (M : Matrix) (rows cols : list nat) : Matrix :=
  map (fun i => map (fun j => Np.get M i j) cols) rows.

(** [np.trace(M)] *)
Definition trace (M : Matrix) : Q :=
  foldr Qplus 0 (map (fun i => Np.get M i i) (seq 0 (Np.shape0 M))).

(** [np.where(labels == k)[0]] *)
Definition where_eq (labels : list nat) (k : nat) : list nat :=
  List.filter (fun i => (nth i labels 0 =? k)%nat) (seq 0 (length labels)).

Definition apply_friction (M : Matrix) (epsilon : Q) : Matrix :=
  let M_eff := Np.copy M in
  let M_eff := Np.set_where_lt M_eff epsilon 0 in
  (* Preserve diagonal (self-coherence is always 1) *)
  let M_eff := Np.fill_diagonal M_eff 1 in
  M_eff.

(** [scipy.sparse.csgraph.connected_components(csr_matrix(A),
    directed=False)]: two nodes are linked when one of the two mirrored
    entries is stored, that is non-zero; the nodes are scanned in order,
    every unlabelled one starts a new component, and the labels number the
    components in that order. *)
Module Sp.

Definition label_of (comps : list (gset nat)) (i : nat) : nat :=
  default 0%nat (fst <$> list_find (fun c => i ∈ c) comps).

Definition connected_components (A : Matrix) : nat * list nat :=
  let comps := Nx.connected_components (Nx.from_numpy_array A) in
  (length comps, map (label_of comps) (seq 0 (Np.shape0 A))).

End Sp.

Definition find_clusters (M_eff : Matrix) : nat * list nat :=
  let sparse := M_eff in
  let '(n_clusters, labels) := Sp.connected_components sparse in
  (n_clusters, labels).

Record ClusterResult : Type := {
  cr_cluster : nat;
  cr_size : nat;
  cr_gamma : Q;
  cr_collapsed : bool;
  cr_dominant_eigenvalue : Q
}.

Section Collapse.

Variable eigvalsh : Matrix -> outcome (list Q).

(** The body of the loop over the clusters. *)
Definition collapse_body (M_eff : Matrix) (labels : list nat)
    (results : list ClusterResult) (k : nat) : outcome (list ClusterResult) :=
  let theta_collapse := 1 # 2 in
  let indices := where_eq labels k in
  let n_k := length indices in
  if (n_k <? 2)%nat then
    Ok (results ++
          [{| cr_cluster := k; cr_size := n_k; cr_gamma := 1;
              cr_collapsed := true; cr_dominant_eigenvalue := 1 |}])
  else
    (* Extract local submatrix *)
    let M_k := ix_ M_eff indices indices in
    (* Spectral analysis *)
    eigenvalues ← eigvalsh M_k;
    lambda_max ← item_last eigenvalues;
    let tr := trace M_k in
    let gamma_k := if Qltb 0 tr then lambda_max / tr else 0 in
    Ok (results ++
          [{| cr_cluster := k; cr_size := n_k; cr_gamma := gamma_k;
              cr_collapsed := Qltb theta_collapse gamma_k;
              cr_dominant_eigenvalue := lambda_max |}]).

Definition local_collapse (M_eff : Matrix) (labels : list nat) (n_clusters : nat)
  : outcome (list ClusterResult) :=
  for_each (collapse_body M_eff labels) (seq 0 n_clusters) [].

End Collapse.

(** ** The caller [main] of [grafo_coherencia.py]: the threshold it hands
    to the dynamic simulation, slightly below the critical one. *)
Definition eps_dynamic (perc : PercolationResult) : Q :=
  eps_c perc * (95 # 100).

(** ** Vocabulary of the statements *)

(** The invariant of a coherence matrix of size [n]. *)
Definition symmetric (n : nat) (M : Matrix) : Prop :=
  forall i j, (i < n)%nat -> (j < n)%nat -> Np.get M i j == Np.get M j i.

Definition unit_diagonal (n : nat) (M : Matrix) : Prop :=
  forall i, (i < n)%nat -> Np.get M i i == 1.

Definition zero_diagonal (n : nat) (M : Matrix) : Prop :=
  forall i, (i < n)%nat -> Np.get M i i == 0.

Definition bounded01 (n : nat) (M : Matrix) : Prop :=
  forall i j, (i < n)%nat -> (j < n)%nat -> 0 <= Np.get M i j <= 1.

Definition coherence_invariant (n : nat) (M : Matrix) : Prop :=
  Np.square n M /\ symmetric n M /\ unit_diagonal n M /\ bounded01 n M.

(** The entry [(i, j)] passes the threshold [t] and is not itself zero,
    the value that stands for an absent edge in an adjacency array. *)
Definition survives (M : Matrix) (t : Q) (i j : nat) : Prop :=
  t <= Np.get M i j /\ ~ Np.get M i j == 0.

(** The nodes of a graph as a set. *)
Definition node_set (G : Graph) : gset nat := list_to_set (Nx.nodes G).

(** A node set that no edge of [G] leaves. *)
Definition closed (G : Graph) (S : gset nat) : Prop :=
  forall x, x ∈ S -> Nx.neighbors G x ⊆ S.

(** The node dictionary has no repeated key and every adjacency entry
    points to a node. *)
Definition well_formed (G : Graph) : Prop :=
  NoDup (Nx.nodes G) /\ forall x, Nx.neighbors G x ⊆ node_set G.

(** [L @ v] *)
Definition mat_vec (L : Matrix) (v : list Q) : list Q :=
  map (fun row => foldr Qplus 0 (zip_with Qmult row v)) L.

(** [v] is an eigenvector of [L] for the eigenvalue [lam]. *)
Definition eigenpair (L : Matrix) (lam : Q) (v : list Q) : Prop :=
  Exists (fun x => ~ x == 0) v /\
  Forall2 Qeq (mat_vec L v) (map (Qmult lam) v).

(** Rational stand-ins for the natural logarithm at 2, 3 and 4. *)
Definition ln_table (x : Q) : Q :=
  if Qeq_bool x 2 then 693147 # 1000000
  else if Qeq_bool x 3 then 1098612 # 1000000
  else if Qeq_bool x 4 then 1386294 # 1000000
  else 0.

(** Sample inputs: two blocks of two strongly coherent entities, weakly
    coherent across; a generator of uniform draws in (0, 1/2]; a bounded
    stand-in for the normal draws; the spectrum of the Laplacian of the
    two blocks at threshold 1/2. *)
Definition two_blocks : Matrix :=
  [[1; 9 # 10; 5 # 100; 5 # 100];
   [9 # 10; 1; 5 # 100; 5 # 100];
   [5 # 100; 5 # 100; 1; 9 # 10];
   [5 # 100; 5 # 100; 9 # 10; 1]].

Definition sample_uniform (seed : Z) (k : nat) : Q :=
  1 # Pos.of_succ_nat (S k).

Definition sample_gauss (seed : Z) (k : nat) : Q :=
  if Nat.even k then 1 else -1.

Definition two_blocks_solver (L : Matrix) : outcome (list Q) :=
  Ok [9 # 5; 0; 0; 9 # 5].

(** Event detection in the words of the specification: the counts of two
    consecutive steps announce a fusion when the count drops, a fission
    when it rises and nothing when it stays. *)
Definition transition_event (t prev cur : nat) : list Event :=
  if (cur <? prev)%nat then [(t, FUSION, str prev ++ "->" ++ str cur)%string]
  else if (prev <? cur)%nat then [(t, FISSION, str prev ++ "->" ++ str cur)%string]
  else [].

Fixpoint events_from (t prev : nat) (h : list nat) : list Event :=
  match h with
  | [] => []
  | cur :: h' => transition_event t prev cur ++ events_from (S t) cur h'
  end.

(** The event log a history of component counts calls for; the first
    step has no predecessor. *)
Definition expected_events (h : list nat) : list Event :=
  match h with
  | [] => []
  | c0 :: h' => events_from 1 c0 h'
  end.

(** How many nodes a list of components holds, counted with repetition. *)
Definition total_size (comps : list (gset nat)) : nat :=
  foldr Nat.add 0%nat (map size comps).

(** The steps at which [simulate_dynamic_graph] keeps a snapshot:
    [t == 0 or t == n_steps // 2 or t == n_steps - 1]. *)
Definition snapshot_time (n_steps : Z) (t : nat) : bool :=
  (Z.of_nat t =? 0)%Z || (Z.of_nat t =? n_steps / 2)%Z
  || (Z.of_nat t =? n_steps - 1)%Z.

(** What [local_collapse] records for the cluster [k]. *)
Definition collapse_entry (eigvalsh : Matrix -> outcome (list Q))
    (M_eff : Matrix) (labels : list nat) (k : nat) (r : ClusterResult) : Prop :=
  let indices := where_eq labels k in
  cr_cluster r = k /\ cr_size r = length indices /\
  (cr_collapsed r = true <-> 1 # 2 < cr_gamma r) /\
  ((length indices < 2)%nat ->
   cr_gamma r = 1 /\ cr_dominant_eigenvalue r = 1) /\
  ((2 <= length indices)%nat ->
   exists evs,
     eigvalsh (ix_ M_eff indices indices) = Ok evs /\
     last evs = Some (cr_dominant_eigenvalue r) /\
     cr_gamma r =
       if Qltb 0 (trace (ix_ M_eff indices indices))
       then cr_dominant_eigenvalue r / trace (ix_ M_eff indices indices)
       else 0).


(** * Properties *)

(** ** Arrays *)

Lemma Qltb_true (x y : Q) : x < y -> Qltb x y = true.
Proof. intros H. unfold Qltb. destruct (Qlt_le_dec x y); [reflexivity|lra]. Qed.

Lemma half_eq (x : Q) : x / 2 == x * (1 # 2).
Proof. unfold Qdiv. reflexivity. Qed.

Lemma nth_map_seq {A : Type} (f : nat -> A) (n i : nat) (d : A) :
  (i < n)%nat -> nth i (map f (seq 0 n)) d = f i.
Proof.
  intros Hi.
  rewrite (nth_indep _ d (f 0%nat)) by (rewrite length_map, length_seq; lia).
  rewrite (map_nth f (seq 0 n) 0%nat i), seq_nth by lia. reflexivity.
Qed.

Lemma get_tabulate (n : nat) (f : nat -> nat -> Q) (i j : nat) :
  (i < n)%nat -> (j < n)%nat -> Np.get (Np.tabulate n f) i j = f i j.
Proof.
  intros Hi Hj. unfold Np.get, Np.tabulate.
  rewrite (nth_map_seq (fun i => map (fun j => f i j) (seq 0 n))) by lia.
  apply (nth_map_seq (f i)). lia.
Qed.

Lemma shape0_tabulate (n : nat) (f : nat -> nat -> Q) :
  Np.shape0 (Np.tabulate n f) = n.
Proof. unfold Np.shape0, Np.tabulate. rewrite length_map, length_seq. reflexivity. Qed.

Lemma square_tabulate (n : nat) (f : nat -> nat -> Q) :
  Np.square n (Np.tabulate n f).
Proof.
  split; [apply shape0_tabulate|].
  unfold Np.tabulate. apply Forall_forall. intros row Hrow.
  apply list_elem_of_In, in_map_iff in Hrow. destruct Hrow as (i & <- & _).
  rewrite length_map, length_seq. reflexivity.
Qed.

(** [(X + X.T) / 2] is symmetric and averages mirrored entries. *)
Lemma get_symmetrize (n : nat) (X : Matrix) (i j : nat) :
  Np.shape0 X = n -> (i < n)%nat -> (j < n)%nat ->
  Np.get (Np.div (Np.add X (Np.T X)) 2) i j = (Np.get X i j + Np.get X j i) / 2.
Proof.
  intros Hn Hi Hj. unfold Np.div, Np.add, Np.T.
  rewrite !shape0_tabulate, Hn.
  rewrite !get_tabulate by lia. reflexivity.
Qed.

Lemma shape0_symmetrize (X : Matrix) :
  Np.shape0 (Np.div (Np.add X (Np.T X)) 2) = Np.shape0 X.
Proof. unfold Np.div, Np.add. rewrite !shape0_tabulate. reflexivity. Qed.

Lemma get_fill_diagonal (n : nat) (X : Matrix) (v : Q) (i j : nat) :
  Np.shape0 X = n -> (i < n)%nat -> (j < n)%nat ->
  Np.get (Np.fill_diagonal X v) i j = if (i =? j)%nat then v else Np.get X i j.
Proof.
  intros Hn Hi Hj. unfold Np.fill_diagonal. rewrite Hn, get_tabulate by lia.
  reflexivity.
Qed.

Lemma shape0_fill_diagonal (X : Matrix) (v : Q) :
  Np.shape0 (Np.fill_diagonal X v) = Np.shape0 X.
Proof. apply shape0_tabulate. Qed.

Section MatrixConstruction.

Variable uniform : Z -> nat -> Q.
Hypothesis uniform_range : forall seed k, 0 <= uniform seed k < 1.

(** C1.  For every [n >= 1] and every seed, the matrix that
    [create_coherence_matrix] returns is [n] by [n], symmetric, has every
    diagonal entry equal to 1 and every entry in [0, 1]; off the diagonal
    the entry [(i, j)] is the mean of the uniform draws at [(i, j)] and
    [(j, i)], each of them in [0, 1).  A matrix is returned exactly for
    the seeds numpy's generator accepts, the non-negative ones; a
    negative seed raises [ValueError]. *)
Theorem create_coherence_matrix_invariant (n seed : Z) :
  (1 <= n)%Z ->
  ((seed < 0)%Z -> create_coherence_matrix uniform n seed = Raise ValueError) /\
  ((0 <= seed)%Z -> exists M, create_coherence_matrix uniform n seed = Ok M) /\
  forall M,
    create_coherence_matrix uniform n seed = Ok M ->
    coherence_invariant (Z.to_nat n) M /\
    exists rng,
      default_rng seed = Ok rng /\
      forall i j, (i < Z.to_nat n)%nat -> (j < Z.to_nat n)%nat -> i <> j ->
        let U := fst (rng_random uniform rng (Z.to_nat n)) in
        Np.get M i j == (Np.get U i j + Np.get U j i) / 2 /\
        0 <= Np.get U i j < 1.
Proof.
  intros Hn. unfold create_coherence_matrix, default_rng.
  destruct (Z.ltb_spec seed 0) as [Hneg|Hpos]; cbn [mbind outcome_bind].
  { split; [reflexivity|]. split; [lia|]. intros M HM. discriminate HM. }
  destruct (Z.ltb_spec n 0) as [?|_]; [lia|].
  split; [lia|].
  set (k := Z.to_nat n). cbn [rng_random rng_seed rng_pos].
  set (U := Np.tabulate k _).
  split; [intros _; eexists; reflexivity|].
  intros M [= <-].
  assert (HU : Np.shape0 U = k) by apply shape0_tabulate.
  assert (HS : Np.shape0 (Np.div (Np.add U (Np.T U)) 2) = k)
    by (rewrite shape0_symmetrize; exact HU).
  assert (Hu : forall i j, (i < k)%nat -> (j < k)%nat -> 0 <= Np.get U i j < 1).
  { intros i j Hi Hj. unfold U. rewrite get_tabulate by lia. apply uniform_range. }
  split; [|].
  - split; [|split; [|split]].
    + unfold Np.fill_diagonal. rewrite HS. apply square_tabulate.
    + intros i j Hi Hj.
      rewrite !(get_fill_diagonal k), !(get_symmetrize k) by assumption.
      rewrite (Nat.eqb_sym j i). destruct (i =? j)%nat; [reflexivity|].
      rewrite !half_eq. ring.
    + intros i Hi. rewrite (get_fill_diagonal k) by assumption.
      rewrite Nat.eqb_refl. reflexivity.
    + intros i j Hi Hj.
      rewrite (get_fill_diagonal k), (get_symmetrize k) by assumption.
      destruct (i =? j)%nat; [lra|].
      pose proof (Hu i j Hi Hj). pose proof (Hu j i Hj Hi).
      rewrite half_eq. lra.
  - eexists. split; [reflexivity|].
    intros i j Hi Hj Hij. cbn zeta. cbn [fst rng_random rng_seed rng_pos].
    fold k. fold U. split.
    + rewrite (get_fill_diagonal k), (get_symmetrize k) by assumption.
      destruct (Nat.eqb_spec i j); [contradiction|reflexivity].
    + apply Hu; assumption.
Qed.

End MatrixConstruction.

(** ** Dynamic evolution *)

Lemma get_clip (n : nat) (X : Matrix) (lo hi : Q) (i j : nat) :
  Np.shape0 X = n -> (i < n)%nat -> (j < n)%nat ->
  Np.get (Np.clip X lo hi) i j = Qmin (Qmax (Np.get X i j) lo) hi.
Proof.
  intros Hn Hi Hj. unfold Np.clip. rewrite Hn, get_tabulate by lia. reflexivity.
Qed.

Lemma clip01_range (x : Q) : 0 <= Qmin (Qmax x 0) 1 <= 1.
Proof.
  destruct (Q.max_spec x 0) as [[? E1]|[? E1]];
    destruct (Q.min_spec (Qmax x 0) 1) as [[? E2]|[? E2]];
    rewrite E2; rewrite ?E1 in *; lra.
Qed.

(** The update of one step yields a coherence matrix, whatever the
    perturbations are. *)
Lemma evolve_invariant (n : nat) (M noise drift : Matrix) :
  Np.shape0 M = n -> coherence_invariant n (evolve M noise drift).
Proof.
  intros Hn. unfold evolve.
  set (A := Np.add (Np.add M noise) drift).
  assert (HA : Np.shape0 A = n).
  { unfold A, Np.add. rewrite !shape0_tabulate. exact Hn. }
  set (C := Np.clip A 0 1).
  assert (HC : Np.shape0 C = n) by (unfold C, Np.clip; rewrite shape0_tabulate; exact HA).
  set (F := Np.fill_diagonal C 1).
  assert (HF : Np.shape0 F = n) by (unfold F; rewrite shape0_fill_diagonal; exact HC).
  assert (HFe : forall i j, (i < n)%nat -> (j < n)%nat ->
            Np.get F i j = if (i =? j)%nat then 1 else Qmin (Qmax (Np.get A i j) 0) 1).
  { intros i j Hi Hj. unfold F. rewrite (get_fill_diagonal n) by assumption.
    unfold C. rewrite (get_clip n) by assumption. reflexivity. }
  assert (HFr : forall i j, (i < n)%nat -> (j < n)%nat -> 0 <= Np.get F i j <= 1).
  { intros i j Hi Hj. rewrite HFe by assumption.
    destruct (i =? j)%nat; [lra|apply clip01_range]. }
  split; [|split; [|split]].
  - assert (HAdd : Np.shape0 (Np.add F (Np.T F)) = n)
      by (unfold Np.add; rewrite shape0_tabulate; exact HF).
    unfold Np.div. rewrite HAdd. apply square_tabulate.
  - intros i j Hi Hj. rewrite !(get_symmetrize n) by assumption.
    rewrite !half_eq. ring.
  - intros i Hi. rewrite (get_symmetrize n), HFe by assumption.
    rewrite Nat.eqb_refl, half_eq. ring.
  - intros i j Hi Hj. rewrite (get_symmetrize n) by assumption.
    pose proof (HFr i j Hi Hj). pose proof (HFr j i Hj Hi).
    rewrite half_eq. lra.
Qed.

Lemma shape0_evolve (M noise drift : Matrix) :
  Np.shape0 (evolve M noise drift) = Np.shape0 M.
Proof.
  unfold evolve. rewrite shape0_symmetrize, shape0_fill_diagonal.
  unfold Np.clip, Np.add. rewrite !shape0_tabulate. reflexivity.
Qed.

Section DynamicsFacts.

Variable gauss : Z -> nat -> Q.

(** Noise and drift are symmetric with a zero diagonal. *)
Lemma perturbation_shape (rng : Generator) (scale : Q) (n : nat) :
  let X := fst (perturbation gauss rng scale n) in
  Np.square n X /\ symmetric n X /\ zero_diagonal n X.
Proof.
  unfold perturbation, rng_normal. cbn [fst].
  set (R := Np.tabulate n _).
  assert (HR : Np.shape0 R = n) by apply shape0_tabulate.
  assert (HS : Np.shape0 (Np.div (Np.add R (Np.T R)) 2) = n)
    by (rewrite shape0_symmetrize; exact HR).
  split; [|split].
  - unfold Np.fill_diagonal. rewrite HS. apply square_tabulate.
  - intros i j Hi Hj.
    rewrite !(get_fill_diagonal n), !(get_symmetrize n) by assumption.
    rewrite (Nat.eqb_sym j i). destruct (i =? j)%nat; [reflexivity|].
    rewrite !half_eq. ring.
  - intros i Hi. rewrite (get_fill_diagonal n) by assumption.
    rewrite Nat.eqb_refl. reflexivity.
Qed.

Variables (M_base : Matrix) (n_steps : Z) (epsilon : Q) (rng : Generator).

Let n := Np.shape0 M_base.
Let state := dyn_iter gauss M_base n_steps epsilon rng.

Lemma dyn_iter_S (k : nat) :
  state (S k) = dyn_body gauss n n_steps epsilon (state k) k.
Proof.
  unfold state, dyn_iter. rewrite seq_S, foldl_snoc. reflexivity.
Qed.

(** The matrix after step [k] is [evolve] applied to the one before. *)
Lemma dyn_body_M_t (st : DynState) (t : nat) :
  ds_M_t (dyn_body gauss n n_steps epsilon st t) =
  evolve (ds_M_t st)
    (fst (perturbation gauss (ds_rng st) (3 # 100) n))
    (fst (perturbation gauss
            (snd (perturbation gauss (ds_rng st) (3 # 100) n)) (1 # 100) n)).
Proof.
  unfold dyn_body.
  destruct (perturbation gauss (ds_rng st) (3 # 100) n) as [noise rng1].
  cbn [fst snd].
  destruct (perturbation gauss rng1 (1 # 100) n) as [drift rng2].
  reflexivity.
Qed.

Lemma dyn_iter_shape (k : nat) : Np.shape0 (ds_M_t (state k)) = n.
Proof.
  induction k as [|k IH]; [reflexivity|].
  rewrite dyn_iter_S, dyn_body_M_t, shape0_evolve. exact IH.
Qed.

Lemma dyn_body_snapshots (st : DynState) (t : nat) (s : Snapshot) :
  s ∈ ds_snapshots (dyn_body gauss n n_steps epsilon st t) ->
  s ∈ ds_snapshots st \/
  snap_M s = ds_M_t (dyn_body gauss n n_steps epsilon st t).
Proof.
  rewrite dyn_body_M_t. unfold dyn_body.
  destruct (perturbation gauss (ds_rng st) (3 # 100) n) as [noise rng1].
  cbn [fst snd].
  destruct (perturbation gauss rng1 (1 # 100) n) as [drift rng2].
  cbn [ds_snapshots fst].
  destruct (_ || _ || _); [|auto].
  rewrite elem_of_app, list_elem_of_singleton. intros [H| ->]; auto.
Qed.

(** The matrix held after every iteration of the loop. *)
Lemma dyn_iter_invariant (k : nat) :
  coherence_invariant n M_base -> coherence_invariant n (ds_M_t (state k)).
Proof.
  intros Hbase. destruct k as [|k]; [exact Hbase|].
  rewrite dyn_iter_S, dyn_body_M_t. apply evolve_invariant, dyn_iter_shape.
Qed.

Lemma dyn_iter_transition (k : nat) :
  exists noise drift,
    (symmetric n noise /\ zero_diagonal n noise) /\
    (symmetric n drift /\ zero_diagonal n drift) /\
    ds_M_t (state (S k)) =
      Np.div (Np.add
        (Np.fill_diagonal
           (Np.clip (Np.add (Np.add (ds_M_t (state k)) noise) drift) 0 1) 1)
        (Np.T (Np.fill_diagonal
           (Np.clip (Np.add (Np.add (ds_M_t (state k)) noise) drift) 0 1) 1)))
        2.
Proof.
  eexists _, _. split; [|split]; [| |rewrite dyn_iter_S; apply dyn_body_M_t];
    eapply proj2, perturbation_shape.
Qed.

Lemma dyn_iter_snapshot_matrices (k : nat) (s : Snapshot) :
  coherence_invariant n M_base ->
  s ∈ ds_snapshots (state k) -> coherence_invariant n (snap_M s).
Proof.
  intros Hbase. induction k as [|k IH]; intros Hs.
  - cbn in Hs. apply elem_of_nil in Hs. contradiction.
  - rewrite dyn_iter_S in Hs. apply dyn_body_snapshots in Hs.
    destruct Hs as [Hs|Hs]; [apply IH, Hs|].
    rewrite Hs, <- dyn_iter_S. apply dyn_iter_invariant, Hbase.
Qed.

End DynamicsFacts.

(** The run returns exactly when the generator accepts [seed + 100];
    what it returns is read off the state after the loop. *)
Lemma simulate_dynamic_graph_run (gauss : Z -> nat -> Q) (M_base : Matrix)
    (n_steps : Z) (epsilon : Q) (seed : Z) (r : DynamicResult) :
  simulate_dynamic_graph gauss M_base n_steps epsilon seed = Ok r ->
  exists rng,
    default_rng (seed + 100) = Ok rng /\
    r = {| snapshots := ds_snapshots (dyn_run gauss M_base n_steps epsilon rng);
           n_components_history :=
             ds_history (dyn_run gauss M_base n_steps epsilon rng);
           events := ds_events (dyn_run gauss M_base n_steps epsilon rng);
           dyn_n_steps := n_steps |}.
Proof.
  unfold simulate_dynamic_graph.
  destruct (default_rng (seed + 100)) as [rng|e]; [|discriminate].
  cbn [mbind outcome_bind]. intros [= <-]. exists rng. split; reflexivity.
Qed.

Lemma simulate_dynamic_graph_returns (gauss : Z -> nat -> Q) (M_base : Matrix)
    (n_steps : Z) (epsilon : Q) (seed : Z) :
  ((seed + 100 < 0)%Z ->
   simulate_dynamic_graph gauss M_base n_steps epsilon seed = Raise ValueError) /\
  ((0 <= seed + 100)%Z ->
   exists r, simulate_dynamic_graph gauss M_base n_steps epsilon seed = Ok r).
Proof.
  unfold simulate_dynamic_graph, default_rng.
  destruct (Z.ltb_spec (seed + 100) 0); cbn [mbind outcome_bind].
  - split; [reflexivity|lia].
  - split; [lia|]. intros _. eexists. reflexivity.
Qed.

(** C6.  Starting from a coherence matrix, the matrix held after every
    step of [simulate_dynamic_graph] is again symmetric with unit
    diagonal and entries in [0, 1], whatever the generator draws; it is
    obtained from the previous one by adding a symmetric zero-diagonal
    noise and drift, clipping to [0, 1], resetting the diagonal and
    averaging with the transpose.  The matrices stored in the snapshots
    of a run that returns are among them. *)
Theorem simulate_dynamic_graph_invariant (gauss : Z -> nat -> Q)
    (M_base : Matrix) (n_steps : Z) (epsilon : Q) (seed : Z) :
  let n := Np.shape0 M_base in
  coherence_invariant n M_base ->
  (forall rng k,
     let state := dyn_iter gauss M_base n_steps epsilon rng in
     coherence_invariant n (ds_M_t (state k)) /\
     exists noise drift,
       (symmetric n noise /\ zero_diagonal n noise) /\
       (symmetric n drift /\ zero_diagonal n drift) /\
       ds_M_t (state (S k)) =
         Np.div (Np.add
           (Np.fill_diagonal
              (Np.clip (Np.add (Np.add (ds_M_t (state k)) noise) drift) 0 1) 1)
           (Np.T (Np.fill_diagonal
              (Np.clip (Np.add (Np.add (ds_M_t (state k)) noise) drift) 0 1) 1)))
           2) /\
  (forall r s,
     simulate_dynamic_graph gauss M_base n_steps epsilon seed = Ok r ->
     s ∈ snapshots r ->
     coherence_invariant n (snap_M s)).
Proof.
  cbn zeta. intros Hbase. split.
  - intros rng k. split; [apply dyn_iter_invariant, Hbase|].
    apply dyn_iter_transition.
  - intros r s Hr Hs. apply simulate_dynamic_graph_run in Hr.
    destruct Hr as (rng & _ & ->). cbn [snapshots] in Hs.
    apply (dyn_iter_snapshot_matrices gauss M_base n_steps epsilon rng
             (Z.to_nat n_steps) s Hbase Hs).
Qed.

(** ** Event detection *)

Lemma list_last_cons (a d : nat) (h : list nat) :
  List.last (a :: h) d = List.last h a.
Proof.
  revert a d. induction h as [|b h IH]; intros a d; [reflexivity|].
  change (List.last (a :: b :: h) d) with (List.last (b :: h) d).
  rewrite !IH. reflexivity.
Qed.

Lemma last_cons_default (c0 : nat) (h : list nat) :
  last (c0 :: h) = Some (List.last h c0).
Proof.
  revert c0. induction h as [|a h IH]; intros c0; [reflexivity|].
  change (last (c0 :: a :: h)) with (last (a :: h)).
  rewrite IH, <- (list_last_cons a c0). reflexivity.
Qed.

Lemma events_from_snoc (t prev : nat) (h : list nat) (cur : nat) :
  events_from t prev (h ++ [cur]) =
  events_from t prev h ++
    transition_event (t + length h) (List.last h prev) cur.
Proof.
  revert t prev. induction h as [|a h IH]; intros t prev.
  - cbn [app events_from length List.last]. rewrite Nat.add_0_r, app_nil_r. reflexivity.
  - change ((a :: h) ++ [cur]) with (a :: (h ++ [cur])).
    cbn [events_from]. rewrite IH, app_assoc.
    replace (S t + length h)%nat with (t + length (a :: h))%nat by (cbn; lia).
    rewrite list_last_cons. reflexivity.
Qed.

Lemma expected_events_snoc (h : list nat) (prev cur : nat) :
  last h = Some prev ->
  expected_events (h ++ [cur]) =
  expected_events h ++ transition_event (length h) prev cur.
Proof.
  destruct h as [|c0 h]; [discriminate|]. intros Hlast.
  change ((c0 :: h) ++ [cur]) with (c0 :: (h ++ [cur])).
  cbn [expected_events]. rewrite events_from_snoc.
  rewrite last_cons_default in Hlast. injection Hlast as ->.
  reflexivity.
Qed.

Lemma elem_of_transition_event (e : Event) (t prev cur : nat) :
  e ∈ transition_event t prev cur <->
  (e = (t, FUSION, str prev ++ "->" ++ str cur)%string /\ (cur < prev)%nat) \/
  (e = (t, FISSION, str prev ++ "->" ++ str cur)%string /\ (prev < cur)%nat).
Proof.
  unfold transition_event.
  destruct (Nat.ltb_spec cur prev); [|destruct (Nat.ltb_spec prev cur)];
    rewrite ?list_elem_of_singleton, ?elem_of_nil; intuition lia.
Qed.

Lemma elem_of_events_from (e : Event) (t0 prev : nat) (h : list nat) :
  e ∈ events_from t0 prev h <->
  exists i a b,
    (prev :: h) !! i = Some a /\ h !! i = Some b /\
    e ∈ transition_event (t0 + i) a b.
Proof.
  revert t0 prev. induction h as [|c h IH]; intros t0 prev.
  - cbn [events_from]. rewrite elem_of_nil. split; [contradiction|].
    intros (i & a & b & _ & Hb & _). rewrite lookup_nil in Hb. discriminate.
  - cbn [events_from]. rewrite elem_of_app, IH. split.
    + intros [H|(i & a & b & Ha & Hb & H)].
      * exists 0%nat, prev, c. rewrite Nat.add_0_r. auto.
      * exists (S i), a, b. replace (t0 + S i)%nat with (S t0 + i)%nat by lia. auto.
    + intros (i & a & b & Ha & Hb & H). destruct i as [|i].
      * left. cbn in Ha, Hb. rewrite Nat.add_0_r in H. congruence.
      * right. exists i, a, b.
        replace (S t0 + i)%nat with (t0 + S i)%nat by lia. auto.
Qed.

Section EventFacts.

Variable gauss : Z -> nat -> Q.
Variables (M_base : Matrix) (n_steps : Z) (epsilon : Q) (rng : Generator).

Let n := Np.shape0 M_base.
Let state := dyn_iter gauss M_base n_steps epsilon rng.

(** What one iteration appends: the number of components of the graph
    of the step's matrix, the event that number calls for, and the
    snapshot at the key times. *)
Lemma dyn_body_record (st : DynState) (t : nat) :
  let st' := dyn_body gauss n n_steps epsilon st t in
  let G := build_graph (ds_M_t st') epsilon in
  let n_comp := length (Nx.connected_components G) in
  ds_prev_components st' = Some (Nx.connected_components G) /\
  ds_history st' = ds_history st ++ [n_comp] /\
  ds_events st' =
    ds_events st ++ detect_event t (ds_prev_components st) n_comp /\
  ds_snapshots st' =
    ds_snapshots st ++
      (if snapshot_time n_steps t
       then [{| snap_time := t; snap_M := ds_M_t st'; snap_G := G;
                snap_n_components := n_comp |}]
       else []).
Proof.
  unfold dyn_body, snapshot_time.
  destruct (perturbation gauss (ds_rng st) (3 # 100) n) as [noise rng1].
  destruct (perturbation gauss rng1 (1 # 100) n) as [drift rng2].
  cbn [ds_history ds_snapshots ds_M_t ds_events ds_prev_components].
  unfold Np.copy. split; [reflexivity|]. split; [reflexivity|].
  split; [reflexivity|].
  destruct (_ || _ || _); [reflexivity|]. rewrite app_nil_r. reflexivity.
Qed.

(** The loop keeps the log equal to what the history calls for. *)
Lemma dyn_iter_log (k : nat) :
  length (ds_history (state k)) = k /\
  ds_events (state k) = expected_events (ds_history (state k)) /\
  match ds_prev_components (state k) with
  | None => k = 0%nat
  | Some prev => last (ds_history (state k)) = Some (length prev)
  end.
Proof.
  induction k as [|k (Hlen & Hev & Hprev)].
  - cbn. auto.
  - assert (HS : state (S k) = dyn_body gauss n n_steps epsilon (state k) k)
      by apply dyn_iter_S.
    rewrite HS. clear HS.
    destruct (dyn_body_record (state k) k) as (-> & -> & -> & _).
    rewrite length_app, Hlen, last_snoc, Hev. cbn [length].
    split; [lia|]. split; [|reflexivity].
    destruct (ds_prev_components (state k)) as [prev|].
    + rewrite (expected_events_snoc _ (length prev)) by exact Hprev.
      rewrite Hlen. reflexivity.
    + subst k. destruct (ds_history (state 0)); [|discriminate Hlen].
      cbn. reflexivity.
Qed.

(** Entry [t] of the history is the number of components of the graph
    built at step [t] from the matrix of that step. *)
Lemma dyn_iter_history (k t : nat) :
  (t < k)%nat ->
  ds_history (state k) !! t =
  Some (length (Nx.connected_components
                  (build_graph (ds_M_t (state (S t))) epsilon))).
Proof.
  induction k as [|k IH]; intros Ht; [lia|].
  assert (HS : state (S k) = dyn_body gauss n n_steps epsilon (state k) k)
    by apply dyn_iter_S.
  destruct (dyn_body_record (state k) k) as (_ & Hh & _). rewrite <- HS in Hh.
  rewrite Hh.
  assert (Hlen : length (ds_history (state k)) = k) by apply dyn_iter_log.
  destruct (decide (t = k)) as [->|Hne].
  - rewrite lookup_app_r, Hlen, Nat.sub_diag by lia. reflexivity.
  - rewrite lookup_app_l by lia. apply IH. lia.
Qed.

End EventFacts.

(** The events a history calls for, step by step. *)
Lemma expected_events_spec (h : list nat) (t : nat) (kind : event_kind) :
  (exists d, (t, kind, d) ∈ expected_events h) <->
  (1 <= t)%nat /\
  exists prev cur,
    h !! (t - 1)%nat = Some prev /\ h !! t = Some cur /\
    ((kind = FUSION /\ (cur < prev)%nat) \/
     (kind = FISSION /\ (prev < cur)%nat)).
Proof.
  destruct h as [|c0 h'].
  - cbn [expected_events]. split.
    + intros (d & Hd). apply elem_of_nil in Hd. contradiction.
    + intros (_ & prev & cur & Hp & _). rewrite lookup_nil in Hp. discriminate.
  - cbn [expected_events]. split.
    + intros (d & Hd). apply elem_of_events_from in Hd.
      destruct Hd as (i & a & b & Ha & Hb & He).
      apply elem_of_transition_event in He.
      assert (t = S i /\
              ((kind = FUSION /\ (b < a)%nat) \/
               (kind = FISSION /\ (a < b)%nat))) as [-> Hk].
      { destruct He as [[He ?]|[He ?]]; inversion He; subst; split; auto. }
      split; [lia|]. exists a, b.
      replace (S i - 1)%nat with i by lia.
      split; [exact Ha|]. split; [exact Hb|exact Hk].
    + intros (Ht & prev & cur & Hp & Hc & Hk).
      destruct t as [|i]; [lia|].
      replace (S i - 1)%nat with i in Hp by lia.
      change ((c0 :: h') !! S i) with (h' !! i) in Hc.
      exists (str prev ++ "->" ++ str cur)%string.
      apply elem_of_events_from. exists i, prev, cur.
      split; [exact Hp|]. split; [exact Hc|].
      apply elem_of_transition_event.
      destruct Hk as [[-> ?]|[-> ?]]; [left|right]; auto.
Qed.

(** C7.  In a run of [simulate_dynamic_graph] that returns, the history
    holds one entry per step, entry [t] being the number of connected
    components of the graph built at step [t] from that step's matrix at
    the threshold, and the event log is exactly what those counts call
    for: an event carries the time [t] of a step after the first whose
    count differs from the previous step's count, it is a FUSION when
    the count dropped and a FISSION when it rose, every such step has
    its event, a step with equal counts has none, and no event carries
    time 0. *)
Theorem simulate_dynamic_graph_events (gauss : Z -> nat -> Q)
    (M_base : Matrix) (n_steps : Z) (epsilon : Q) (seed : Z)
    (r : DynamicResult) :
  simulate_dynamic_graph gauss M_base n_steps epsilon seed = Ok r ->
  let h := n_components_history r in
  length h = Z.to_nat n_steps /\
  (exists rng,
     default_rng (seed + 100) = Ok rng /\
     forall t, (t < Z.to_nat n_steps)%nat ->
       let M_t := ds_M_t (dyn_iter gauss M_base n_steps epsilon rng (S t)) in
       h !! t =
       Some (length (Nx.connected_components (build_graph M_t epsilon)))) /\
  events r = expected_events h /\
  (forall t kind,
     (exists d, (t, kind, d) ∈ events r) <->
     (1 <= t)%nat /\
     exists prev cur,
       h !! (t - 1)%nat = Some prev /\ h !! t = Some cur /\
       ((kind = FUSION /\ (cur < prev)%nat) \/
        (kind = FISSION /\ (prev < cur)%nat))) /\
  (forall kind d, (0%nat, kind, d) ∉ events r).
Proof.
  intros Hr. cbn zeta. apply simulate_dynamic_graph_run in Hr.
  destruct Hr as (rng & Hrng & ->). unfold dyn_run.
  cbn [n_components_history events].
  destruct (dyn_iter_log gauss M_base n_steps epsilon rng (Z.to_nat n_steps))
    as (Hlen & Hev & _).
  split; [exact Hlen|]. split.
  { exists rng. split; [exact Hrng|]. intros t Ht.
    apply (dyn_iter_history gauss M_base n_steps epsilon rng), Ht. }
  split; [exact Hev|]. rewrite Hev. split; [apply expected_events_spec|].
  intros kind d Hin.
  assert (H0 : exists d0,
            (0%nat, kind, d0) ∈
            expected_events
              (ds_history (dyn_iter gauss M_base n_steps epsilon rng
                             (Z.to_nat n_steps)))) by eauto.
  apply expected_events_spec in H0. lia.
Qed.

(** ** Graphs *)

Lemma add_node_elem (v : nat) (G : Graph) : v ∈ Nx.nodes G -> Nx.add_node v G = G.
Proof. intros Hv. unfold Nx.add_node. destruct (decide _); [reflexivity|contradiction]. Qed.

Lemma weight_add_edge (a b : nat) (w : Q) (G : Graph) (u v : nat) :
  a ∈ Nx.nodes G -> b ∈ Nx.nodes G ->
  Nx.weight (Nx.add_edge a b w G) u v =
  if decide ((a = u /\ b = v) \/ (a = v /\ b = u)) then Some w else Nx.weight G u v.
Proof.
  intros Ha Hb. unfold Nx.add_edge.
  rewrite (add_node_elem a G Ha), (add_node_elem b G Hb).
  unfold Nx.weight. cbn [Nx.adj].
  destruct (decide (u = b)) as [->|Hub].
  - rewrite lookup_insert_eq. cbn [mbind option_bind].
    destruct (decide (v = a)) as [->|Hva].
    + rewrite lookup_insert_eq. rewrite decide_True by auto. reflexivity.
    + rewrite lookup_insert_ne by congruence.
      destruct (decide (a = b)) as [->|Hab].
      * rewrite lookup_total_insert_eq.
        destruct (decide (v = b)) as [->|Hvb]; [congruence|].
        rewrite lookup_insert_ne by congruence.
        rewrite decide_False by intuition congruence.
        rewrite lookup_total_alt. destruct (Nx.adj G !! b); reflexivity.
      * rewrite lookup_total_insert_ne by congruence.
        rewrite decide_False by intuition congruence.
        rewrite lookup_total_alt. destruct (Nx.adj G !! b); reflexivity.
  - rewrite lookup_insert_ne by congruence.
    destruct (decide (u = a)) as [->|Hua].
    + rewrite lookup_insert_eq. cbn [mbind option_bind].
      destruct (decide (v = b)) as [->|Hvb].
      * rewrite lookup_insert_eq, decide_True by auto. reflexivity.
      * rewrite lookup_insert_ne by congruence.
        rewrite decide_False by intuition congruence.
        rewrite lookup_total_alt. destruct (Nx.adj G !! a); reflexivity.
    + rewrite lookup_insert_ne by congruence.
      rewrite decide_False by intuition congruence. reflexivity.
Qed.

Lemma nodes_add_edge (a b : nat) (w : Q) (G : Graph) :
  a ∈ Nx.nodes G -> b ∈ Nx.nodes G -> Nx.nodes (Nx.add_edge a b w G) = Nx.nodes G.
Proof.
  intros Ha Hb. unfold Nx.add_edge.
  rewrite (add_node_elem a G Ha), (add_node_elem b G Hb). reflexivity.
Qed.

Lemma weight_add_node (a : nat) (G : Graph) (u v : nat) :
  Nx.weight G u v = None -> Nx.weight (Nx.add_node a G) u v = None.
Proof.
  intros H. unfold Nx.add_node. destruct (decide _); [exact H|].
  unfold Nx.weight in *. cbn [Nx.adj].
  destruct (decide (a = u)) as [->|Hne].
  - rewrite lookup_insert_eq. reflexivity.
  - rewrite lookup_insert_ne by exact Hne. exact H.
Qed.

Lemma add_nodes_from_seq (k a : nat) (G : Graph) :
  Nx.nodes G = seq 0 a -> (forall u v, Nx.weight G u v = None) ->
  Nx.nodes (Nx.add_nodes_from (seq a k) G) = seq 0 (a + k) /\
  forall u v, Nx.weight (Nx.add_nodes_from (seq a k) G) u v = None.
Proof.
  revert a G. induction k as [|k IH]; intros a G Hn Hw.
  - cbn. rewrite Nat.add_0_r. auto.
  - cbn [seq]. unfold Nx.add_nodes_from. cbn [foldl].
    replace (a + S k)%nat with (S a + k)%nat by lia.
    apply IH.
    + unfold Nx.add_node. destruct (decide (a ∈ Nx.nodes G)) as [Hin|_].
      * rewrite Hn in Hin. apply list_elem_of_In, in_seq in Hin. lia.
      * cbn [Nx.nodes]. rewrite Hn, seq_S. reflexivity.
    + intros u v. apply weight_add_node, Hw.
Qed.

Lemma elem_of_nonzero (A : Matrix) (i j : nat) :
  (i, j) ∈ Np.nonzero A <->
  (i < Np.shape0 A)%nat /\ (j < Np.shape0 A)%nat /\ ~ Np.get A i j == 0.
Proof.
  unfold Np.nonzero. rewrite list_elem_of_In, in_flat_map. split.
  - intros (i' & Hi' & Hin). apply in_flat_map in Hin.
    destruct Hin as (j' & Hj' & Hin). apply in_seq in Hi', Hj'.
    destruct (Qeq_bool (Np.get A i' j') 0) eqn:E; [contradiction|].
    destruct Hin as [Hin|[]]. injection Hin as -> ->.
    split; [lia|]. split; [lia|]. intros Hz.
    apply Qeq_bool_iff in Hz. congruence.
  - intros (Hi & Hj & Hnz). exists i. split; [apply in_seq; lia|].
    apply in_flat_map. exists j. split; [apply in_seq; lia|].
    destruct (Qeq_bool (Np.get A i j) 0) eqn:E; [|left; reflexivity].
    apply Qeq_bool_iff in E. contradiction.
Qed.

(** Folding [add_edge] over a list of positions: an edge of the result was
    there before or was written from one of the positions, and its weight
    is the entry of one of those positions. *)
Lemma fold_add_edge (A : Matrix) (es : list (nat * nat)) (G : Graph) (u v : nat) :
  (forall a b, (a, b) ∈ es -> a ∈ Nx.nodes G /\ b ∈ Nx.nodes G) ->
  let G' := foldl (fun G '(a, b) => Nx.add_edge a b (Np.get A a b) G) G es in
  Nx.nodes G' = Nx.nodes G /\
  (is_Some (Nx.weight G' u v) <->
   is_Some (Nx.weight G u v) \/
   exists a b, (a, b) ∈ es /\ ((a = u /\ b = v) \/ (a = v /\ b = u))) /\
  (forall w, Nx.weight G' u v = Some w ->
     Nx.weight G u v = Some w \/
     exists a b, (a, b) ∈ es /\ ((a = u /\ b = v) \/ (a = v /\ b = u)) /\
                 w = Np.get A a b).
Proof.
  revert G. induction es as [|[a b] es IH]; intros G Hes; cbn zeta.
  - cbn [foldl]. split; [reflexivity|]. split.
    + split; [auto|]. intros [H|(a & b & H & _)]; [exact H|].
      apply elem_of_nil in H. contradiction.
    + auto.
  - cbn [foldl].
    destruct (Hes a b) as [Ha Hb]; [left|].
    specialize (IH (Nx.add_edge a b (Np.get A a b) G)).
    cbn zeta in IH. rewrite nodes_add_edge in IH by assumption.
    destruct IH as (IHn & IHe & IHw).
    { intros a' b' Hin. apply Hes. right. exact Hin. }
    split; [exact IHn|]. split.
    + rewrite IHe, weight_add_edge by assumption. split.
      * intros [H|(a' & b' & Hin & Hm)].
        -- destruct (decide _) as [Hm|_]; [|auto].
           right. exists a, b. split; [left|exact Hm].
        -- right. exists a', b'. split; [right; exact Hin|exact Hm].
      * intros [H|(a' & b' & Hin & Hm)].
        -- left. destruct (decide _); [eauto|exact H].
        -- apply elem_of_cons in Hin. destruct Hin as [Heq|Hin].
           ++ injection Heq as -> ->. left. rewrite decide_True by exact Hm. eauto.
           ++ right. eauto.
    + intros w Hw. apply IHw in Hw. destruct Hw as [Hw|(a' & b' & Hin & Hm & Hw)].
      * rewrite weight_add_edge in Hw by assumption.
        destruct (decide _) as [Hm|_]; [|auto].
        injection Hw as <-. right. exists a, b. split; [left|auto].
      * right. exists a', b'. split; [right; exact Hin|auto].
Qed.

(** The graph of an adjacency array: nodes [0 .. n-1]; [u] and [v] are
    joined when one of the two mirrored entries is non-zero, and the
    weight is one of the non-zero mirrored entries. *)
Lemma from_numpy_array_spec (A : Matrix) (u v : nat) :
  let G := Nx.from_numpy_array A in
  let n := Np.shape0 A in
  Nx.nodes G = seq 0 n /\
  (Nx.has_edge G u v <->
   (u < n)%nat /\ (v < n)%nat /\ (~ Np.get A u v == 0 \/ ~ Np.get A v u == 0)) /\
  (forall w, Nx.weight G u v = Some w ->
     (w = Np.get A u v /\ ~ Np.get A u v == 0) \/
     (w = Np.get A v u /\ ~ Np.get A v u == 0)).
Proof.
  cbn zeta. unfold Nx.from_numpy_array.
  destruct (add_nodes_from_seq (Np.shape0 A) 0 Nx.empty_graph) as [Hn0 Hw0];
    [reflexivity|intros; reflexivity|].
  cbn [Nat.add] in Hn0.
  set (G0 := Nx.add_nodes_from (seq 0 (Np.shape0 A)) Nx.empty_graph) in *.
  destruct (fold_add_edge A (Np.nonzero A) G0 u v) as (Hn & He & Hw).
  { intros a b Hin. apply elem_of_nonzero in Hin. rewrite Hn0.
    rewrite !list_elem_of_In, !in_seq. lia. }
  split; [rewrite Hn; exact Hn0|]. split.
  - unfold Nx.has_edge. rewrite He, Hw0. split.
    + intros [H|(a & b & Hin & Hm)]; [destruct H; discriminate|].
      apply elem_of_nonzero in Hin. destruct Hm as [[-> ->]|[-> ->]]; tauto.
    + intros (Hu & Hv & [H|H]); right.
      * exists u, v. rewrite elem_of_nonzero. auto.
      * exists v, u. rewrite elem_of_nonzero. auto.
  - intros w Hwt. apply Hw in Hwt.
    destruct Hwt as [Hwt|(a & b & Hin & Hm & ->)]; [rewrite Hw0 in Hwt; discriminate|].
    apply elem_of_nonzero in Hin. destruct Hm as [[-> ->]|[-> ->]]; tauto.
Qed.

(** ** The threshold graph *)

Lemma get_M_eff (M : Matrix) (epsilon : Q) (i j : nat) :
  (i < Np.shape0 M)%nat -> (j < Np.shape0 M)%nat ->
  Np.get (Np.fill_diagonal (Np.set_where_lt (Np.copy M) epsilon 0) 0) i j =
  if (i =? j)%nat then 0
  else if Qlt_le_dec (Np.get M i j) epsilon then 0 else Np.get M i j.
Proof.
  intros Hi Hj. unfold Np.copy.
  rewrite (get_fill_diagonal (Np.shape0 M));
    [|unfold Np.set_where_lt; apply shape0_tabulate|assumption..].
  unfold Np.set_where_lt. rewrite get_tabulate by assumption. reflexivity.
Qed.

Lemma M_eff_nonzero (M : Matrix) (epsilon : Q) (i j : nat) :
  (i < Np.shape0 M)%nat -> (j < Np.shape0 M)%nat ->
  ~ Np.get (Np.fill_diagonal (Np.set_where_lt (Np.copy M) epsilon 0) 0) i j == 0 <->
  i <> j /\ survives M epsilon i j.
Proof.
  intros Hi Hj. rewrite get_M_eff by assumption. unfold survives.
  destruct (Nat.eqb_spec i j) as [->|Hne].
  - split; [intros H; exfalso; apply H; reflexivity|intros [H _]; congruence].
  - destruct (Qlt_le_dec (Np.get M i j) epsilon) as [Hlt|Hle].
    + split; [intros H; exfalso; apply H; reflexivity|].
      intros (_ & Hge & _). lra.
    + tauto.
Qed.

(** The graph built at threshold [epsilon]: the nodes are [0 .. n-1]; two
    distinct nodes are joined when one of the two mirrored entries
    survives the threshold; the weight is a surviving mirrored entry. *)
Lemma build_graph_spec (M : Matrix) (epsilon : Q) (u v : nat) :
  let G := build_graph M epsilon in
  let n := Np.shape0 M in
  Nx.nodes G = seq 0 n /\
  (Nx.has_edge G u v <->
   (u < n)%nat /\ (v < n)%nat /\ u <> v /\
   (survives M epsilon u v \/ survives M epsilon v u)) /\
  (forall w, Nx.weight G u v = Some w ->
     (w = Np.get M u v /\ survives M epsilon u v) \/
     (w = Np.get M v u /\ survives M epsilon v u)).
Proof.
  cbn zeta. unfold build_graph.
  set (M_eff := Np.fill_diagonal (Np.set_where_lt (Np.copy M) epsilon 0) 0).
  assert (Hsh : Np.shape0 M_eff = Np.shape0 M).
  { unfold M_eff. rewrite shape0_fill_diagonal. unfold Np.set_where_lt, Np.copy.
    apply shape0_tabulate. }
  destruct (from_numpy_array_spec M_eff u v) as (Hn & He & Hw).
  rewrite Hsh in Hn, He.
  assert (Hedge : Nx.has_edge (Nx.from_numpy_array M_eff) u v <->
    (u < Np.shape0 M)%nat /\ (v < Np.shape0 M)%nat /\ u <> v /\
    (survives M epsilon u v \/ survives M epsilon v u)).
  { rewrite He. split.
    - intros (Hu & Hv & H). split; [exact Hu|]. split; [exact Hv|].
      unfold M_eff in H. rewrite !M_eff_nonzero in H by assumption.
      destruct H as [[? ?]|[? ?]]; auto.
    - intros (Hu & Hv & Hne & H). split; [exact Hu|]. split; [exact Hv|].
      unfold M_eff. rewrite !M_eff_nonzero by assumption.
      destruct H; [left|right]; auto. }
  split; [exact Hn|]. split; [exact Hedge|].
  intros w Hwt.
  assert (Hhas : Nx.has_edge (Nx.from_numpy_array M_eff) u v) by (eexists; exact Hwt).
  apply Hedge in Hhas. destruct Hhas as (Hu & Hv & Hne & _).
  apply Hw in Hwt. unfold M_eff in Hwt.
  rewrite !M_eff_nonzero in Hwt by assumption.
  rewrite !get_M_eff in Hwt by assumption.
  destruct (Nat.eqb_spec u v); [contradiction|].
  destruct (Nat.eqb_spec v u); [congruence|].
  destruct Hwt as [[-> [_ Hs]]|[-> [_ Hs]]]; [left|right]; (split; [|exact Hs]).
  - destruct (Qlt_le_dec (Np.get M u v) epsilon); [|reflexivity].
    destruct Hs. lra.
  - destruct (Qlt_le_dec (Np.get M v u) epsilon); [|reflexivity].
    destruct Hs. lra.
Qed.

(** ** Breadth-first search and components *)

Lemma elem_of_neighbors (G : Graph) (u v : nat) :
  v ∈ Nx.neighbors G u <-> Nx.has_edge G u v.
Proof.
  unfold Nx.neighbors, Nx.has_edge, Nx.weight.
  rewrite elem_of_dom, lookup_total_alt.
  destruct (Nx.adj G !! u); cbn; [reflexivity|].
  rewrite lookup_empty. reflexivity.
Qed.

Lemma bfs_loop_incl (G : Graph) (fuel : nat) (seen level : gset nat) :
  seen ⊆ Nx.bfs_loop G fuel seen level.
Proof.
  revert seen level. induction fuel as [|fuel IH]; intros seen level; cbn.
  - reflexivity.
  - destruct (decide (level = ∅)); [reflexivity|].
    etransitivity; [|apply IH]. set_solver.
Qed.

(** The search stays inside every closed set that holds what it starts
    from. *)
Lemma bfs_loop_least (G : Graph) (C : gset nat) (fuel : nat) (seen level : gset nat) :
  closed G C -> seen ⊆ C -> level ⊆ C -> Nx.bfs_loop G fuel seen level ⊆ C.
Proof.
  intros HC. revert seen level.
  induction fuel as [|fuel IH]; intros seen level Hs Hl; cbn.
  - exact Hs.
  - destruct (decide (level = ∅)); [exact Hs|].
    assert (Hn : Nx.next_level G seen level ⊆ C).
    { unfold Nx.next_level. intros y Hy.
      apply elem_of_difference in Hy. destruct Hy as [Hy _].
      apply elem_of_set_bind in Hy. destruct Hy as (x & Hx & Hy).
      apply (HC x); [apply Hl, Hx|exact Hy]. }
    apply IH; [set_solver|exact Hn].
Qed.

(** With fuel for every node still unprocessed, the search ends on a
    closed set. *)
Lemma bfs_loop_closed (G : Graph) (fuel : nat) (seen level : gset nat) :
  (forall x, Nx.neighbors G x ⊆ node_set G) ->
  level ⊆ seen -> seen ⊆ node_set G ->
  (forall x, x ∈ seen -> x ∉ level -> Nx.neighbors G x ⊆ seen) ->
  (size (node_set G) - size (seen ∖ level) <= fuel)%nat ->
  closed G (Nx.bfs_loop G fuel seen level).
Proof.
  intros Hwf. revert seen level.
  induction fuel as [|fuel IH]; intros seen level Hl Hs Hinv Hfuel; cbn.
  - assert (Heq : seen ∖ level = node_set G).
    { apply set_subseteq_size_eq; [set_solver|lia]. }
    intros x Hx. apply Hinv; [exact Hx|].
    intros Hxl. assert (Hxn : x ∈ seen ∖ level) by (rewrite Heq; apply Hs, Hx).
    set_solver.
  - destruct (decide (level = ∅)) as [->|Hne].
    + intros x Hx. apply Hinv; [exact Hx|set_solver].
    + set (nxt := Nx.next_level G seen level).
      assert (Hnxt : forall y, y ∈ nxt <->
                (exists x, x ∈ level /\ y ∈ Nx.neighbors G x) /\ y ∉ seen).
      { intros y. unfold nxt, Nx.next_level.
        rewrite elem_of_difference, elem_of_set_bind. reflexivity. }
      apply IH.
      * set_solver.
      * intros y Hy. apply elem_of_union in Hy. destruct Hy as [Hy|Hy].
        -- apply Hs, Hy.
        -- apply Hnxt in Hy. destruct Hy as [(x & _ & Hy) _]. apply (Hwf x), Hy.
      * intros x Hx Hxn y Hy.
        assert (Hxs : x ∈ seen).
        { apply elem_of_union in Hx. destruct Hx as [Hx|Hx]; [exact Hx|contradiction]. }
        destruct (decide (x ∈ level)) as [Hxl|Hxl].
        -- destruct (decide (y ∈ seen)) as [Hys|Hys]; [set_solver|].
           apply elem_of_union. right. apply Hnxt. eauto.
        -- apply elem_of_union. left. apply (Hinv x Hxs Hxl), Hy.
      * assert (Heq : (seen ∪ nxt) ∖ nxt = seen).
        { apply set_eq. intros y. rewrite elem_of_difference, elem_of_union, Hnxt.
          tauto. }
        rewrite Heq.
        assert (Hlt : (size (seen ∖ level) < size seen)%nat).
        { apply subset_size. apply set_choose_L in Hne. destruct Hne as [z Hz].
          split; [set_solver|]. intros Hsub.
          assert (z ∈ seen ∖ level) by (apply Hsub, Hl, Hz). set_solver. }
        lia.
Qed.

Lemma plain_bfs_source (G : Graph) (s : nat) : s ∈ Nx.plain_bfs G s.
Proof. apply bfs_loop_incl. set_solver. Qed.

Lemma plain_bfs_least (G : Graph) (C : gset nat) (s : nat) :
  closed G C -> s ∈ C -> Nx.plain_bfs G s ⊆ C.
Proof. intros HC Hs. apply bfs_loop_least; [exact HC|set_solver..]. Qed.

Lemma plain_bfs_closed (G : Graph) (s : nat) :
  well_formed G -> s ∈ Nx.nodes G -> closed G (Nx.plain_bfs G s).
Proof.
  intros [Hnd Hwf] Hs. apply bfs_loop_closed.
  - exact Hwf.
  - reflexivity.
  - unfold node_set. intros x Hx. apply elem_of_singleton in Hx. subst x.
    apply elem_of_list_to_set, Hs.
  - intros x Hx Hxn. contradiction.
  - unfold node_set. rewrite size_list_to_set by exact Hnd.
    unfold Nx.number_of_nodes. lia.
Qed.

Lemma bfs_loop_reachable (G : Graph) (s : nat) (fuel : nat) (seen level : gset nat) :
  (forall y, y ∈ seen -> rtc (Nx.has_edge G) s y) ->
  (forall y, y ∈ level -> rtc (Nx.has_edge G) s y) ->
  forall x, x ∈ Nx.bfs_loop G fuel seen level -> rtc (Nx.has_edge G) s x.
Proof.
  revert seen level. induction fuel as [|fuel IH]; intros seen level Hs Hl x; cbn.
  - apply Hs.
  - destruct (decide (level = ∅)); [apply Hs|].
    assert (Hn : forall y, y ∈ Nx.next_level G seen level -> rtc (Nx.has_edge G) s y).
    { intros y Hy. unfold Nx.next_level in Hy.
      apply elem_of_difference in Hy. destruct Hy as [Hy _].
      apply elem_of_set_bind in Hy. destruct Hy as (z & Hz & Hy).
      eapply rtc_r; [apply Hl, Hz|]. apply elem_of_neighbors, Hy. }
    apply IH; [|exact Hn].
    intros y Hy. apply elem_of_union in Hy. destruct Hy; auto.
Qed.

(** The search from [s] returns exactly the nodes reachable from [s]. *)
Lemma plain_bfs_reachable (G : Graph) (s x : nat) :
  well_formed G -> s ∈ Nx.nodes G ->
  x ∈ Nx.plain_bfs G s <-> rtc (Nx.has_edge G) s x.
Proof.
  intros Hwf Hs. split.
  - apply bfs_loop_reachable; intros y Hy; apply elem_of_singleton in Hy;
      subst y; reflexivity.
  - intros Hr. apply rtc_nsteps in Hr. destruct Hr as [k Hk].
    revert x Hk. induction k as [|k IH]; intros x Hk.
    + inversion Hk; subst. apply plain_bfs_source.
    + apply nsteps_inv_r in Hk. destruct Hk as (y & Hy & Hyx).
      apply (plain_bfs_closed G s Hwf Hs y (IH y Hy)), elem_of_neighbors, Hyx.
Qed.

(** The component loop covers the nodes it visits, and every component
    it yields is the search from one of them. *)
Lemma cc_fold_cover (G : Graph) (l : list nat) (seen : gset nat)
    (comps : list (gset nat)) :
  (forall v, v ∈ l -> v ∈ Nx.nodes G) ->
  (forall x, x ∈ seen <-> exists c, c ∈ comps /\ x ∈ c) ->
  (forall c, c ∈ comps -> exists v, v ∈ Nx.nodes G /\ c = Nx.plain_bfs G v) ->
  let st := foldl (Nx.cc_step G) (seen, comps) l in
  (forall x, x ∈ fst st <-> exists c, c ∈ snd st /\ x ∈ c) /\
  (forall c, c ∈ snd st -> exists v, v ∈ Nx.nodes G /\ c = Nx.plain_bfs G v) /\
  (forall v, v ∈ l -> v ∈ fst st) /\
  seen ⊆ fst st.
Proof.
  revert seen comps. induction l as [|v l IH]; intros seen comps Hl Hs Hc; cbn zeta.
  - cbn. split; [exact Hs|]. split; [exact Hc|]. split; [|reflexivity].
    intros v Hv. apply elem_of_nil in Hv. contradiction.
  - assert (Hl' : forall v', v' ∈ l -> v' ∈ Nx.nodes G)
      by (intros v' Hv'; apply Hl; right; exact Hv').
    cbn [foldl]. destruct (decide (v ∈ seen)) as [Hv|Hv].
    + replace (Nx.cc_step G (seen, comps) v) with (seen, comps)
        by (unfold Nx.cc_step; rewrite decide_True by exact Hv; reflexivity).
      destruct (IH seen comps Hl' Hs Hc) as (H1 & H2 & H3 & H4).
      split; [exact H1|]. split; [exact H2|]. split; [|exact H4].
      intros v' Hv'. apply elem_of_cons in Hv'.
      destruct Hv' as [->|Hv']; [apply H4, Hv|apply H3, Hv'].
    + replace (Nx.cc_step G (seen, comps) v)
        with (seen ∪ Nx.plain_bfs G v, comps ++ [Nx.plain_bfs G v])
        by (unfold Nx.cc_step; rewrite decide_False by exact Hv; reflexivity).
      destruct (IH (seen ∪ Nx.plain_bfs G v) (comps ++ [Nx.plain_bfs G v]) Hl')
        as (H1 & H2 & H3 & H4).
      * intros x. rewrite elem_of_union, Hs. split.
        -- intros [(c & Hc1 & Hc2)|Hx].
           ++ exists c. rewrite elem_of_app. auto.
           ++ exists (Nx.plain_bfs G v). rewrite elem_of_app, list_elem_of_singleton.
              auto.
        -- intros (c & Hc1 & Hc2). apply elem_of_app in Hc1.
           destruct Hc1 as [Hc1|Hc1]; [left; eauto|].
           apply list_elem_of_singleton in Hc1. subst c. right. exact Hc2.
      * intros c Hc'. apply elem_of_app in Hc'. destruct Hc' as [Hc'|Hc'].
        -- apply Hc, Hc'.
        -- apply list_elem_of_singleton in Hc'. exists v. split; [|exact Hc'].
           apply Hl. left.
      * split; [exact H1|]. split; [exact H2|]. split.
        -- intros v' Hv'. apply elem_of_cons in Hv'.
           destruct Hv' as [->|Hv']; [|apply H3, Hv'].
           apply H4, elem_of_union. right. apply plain_bfs_source.
        -- etransitivity; [|exact H4]. set_solver.
Qed.

(** Every node lies in a component, and every component is the set of
    nodes reachable from one of the nodes. *)
Lemma connected_components_cover (G : Graph) :
  well_formed G ->
  (forall v, v ∈ Nx.nodes G -> exists c, c ∈ Nx.connected_components G /\ v ∈ c) /\
  (forall c, c ∈ Nx.connected_components G ->
     exists v, v ∈ Nx.nodes G /\ forall x, x ∈ c <-> rtc (Nx.has_edge G) v x).
Proof.
  intros Hwf. unfold Nx.connected_components.
  destruct (cc_fold_cover G (Nx.nodes G) ∅ []) as (H1 & H2 & H3 & _).
  - auto.
  - intros x. split; [set_solver|]. intros (c & Hc & _).
    apply elem_of_nil in Hc. contradiction.
  - intros c Hc. apply elem_of_nil in Hc. contradiction.
  - split.
    + intros v Hv. apply H1, H3, Hv.
    + intros c Hc. destruct (H2 c Hc) as (v & Hv & ->). exists v.
      split; [exact Hv|]. intros x. apply plain_bfs_reachable; assumption.
Qed.

Lemma closed_union (G : Graph) (S1 S2 : gset nat) :
  closed G S1 -> closed G S2 -> closed G (S1 ∪ S2).
Proof.
  intros H1 H2 x Hx y Hy. apply elem_of_union in Hx.
  destruct Hx as [Hx|Hx]; [specialize (H1 x Hx y Hy)|specialize (H2 x Hx y Hy)];
    set_solver.
Qed.

Lemma closed_fewer_edges (G1 G2 : Graph) (S : gset nat) :
  (forall x, Nx.neighbors G2 x ⊆ Nx.neighbors G1 x) -> closed G1 S -> closed G2 S.
Proof. intros Hsub HC x Hx y Hy. apply (HC x Hx), Hsub, Hy. Qed.

(** Removing edges can only add components: the component loop over the
    sparser graph has seen no more and has yielded no fewer. *)
Lemma cc_fold_mono (G1 G2 : Graph) :
  well_formed G1 ->
  (forall x, Nx.neighbors G2 x ⊆ Nx.neighbors G1 x) ->
  forall (l : list nat) (seen1 seen2 : gset nat) (comps1 comps2 : list (gset nat)),
    (forall v, v ∈ l -> v ∈ Nx.nodes G1) ->
    seen2 ⊆ seen1 -> closed G1 seen1 ->
    (length comps1 <= length comps2)%nat ->
    (length (snd (foldl (Nx.cc_step G1) (seen1, comps1) l)) <=
     length (snd (foldl (Nx.cc_step G2) (seen2, comps2) l)))%nat.
Proof.
  intros Hwf Hsub l.
  induction l as [|v l IH]; intros seen1 seen2 comps1 comps2 Hl Hs Hc Hlen.
  - exact Hlen.
  - cbn [foldl]. unfold Nx.cc_step at 2 4.
    assert (Hv : v ∈ Nx.nodes G1) by (apply Hl; left).
    assert (Hl' : forall v', v' ∈ l -> v' ∈ Nx.nodes G1)
      by (intros v' Hv'; apply Hl; right; exact Hv').
    destruct (decide (v ∈ seen2)) as [H2|H2].
    + rewrite decide_True by (apply Hs, H2). apply IH; assumption.
    + destruct (decide (v ∈ seen1)) as [H1|H1]; apply IH; try assumption.
      * pose proof (plain_bfs_least G2 seen1 v
                      (closed_fewer_edges G1 G2 seen1 Hsub Hc) H1).
        set_solver.
      * rewrite length_app. cbn. lia.
      * assert (Nx.plain_bfs G2 v ⊆ Nx.plain_bfs G1 v).
        { apply plain_bfs_least; [|apply plain_bfs_source].
          apply (closed_fewer_edges G1 G2); [exact Hsub|].
          apply plain_bfs_closed; assumption. }
        set_solver.
      * apply closed_union; [exact Hc|]. apply plain_bfs_closed; assumption.
      * rewrite !length_app. cbn. lia.
Qed.

Lemma connected_components_mono (G1 G2 : Graph) :
  well_formed G1 -> Nx.nodes G1 = Nx.nodes G2 ->
  (forall x, Nx.neighbors G2 x ⊆ Nx.neighbors G1 x) ->
  (length (Nx.connected_components G1) <= length (Nx.connected_components G2))%nat.
Proof.
  intros Hwf Hn Hsub. unfold Nx.connected_components. rewrite <- Hn.
  apply cc_fold_mono; try assumption; [auto|reflexivity| |reflexivity].
  intros x Hx. set_solver.
Qed.

(** Without edges every node is a component of its own. *)
Lemma plain_bfs_isolated (G : Graph) (v : nat) :
  Nx.neighbors G v = ∅ -> Nx.plain_bfs G v = {[v]}.
Proof.
  intros Hv. apply set_eq. intros x. split.
  - apply plain_bfs_least; [|set_solver].
    intros y Hy. apply elem_of_singleton in Hy. subst y. rewrite Hv. set_solver.
  - intros Hx. apply elem_of_singleton in Hx. subst x. apply plain_bfs_source.
Qed.

Lemma cc_fold_isolated (G : Graph) (l : list nat) (seen : gset nat)
    (comps : list (gset nat)) :
  (forall x, Nx.neighbors G x = ∅) -> NoDup l -> (forall v, v ∈ l -> v ∉ seen) ->
  snd (foldl (Nx.cc_step G) (seen, comps) l) = comps ++ map (fun v => {[v]}) l.
Proof.
  intros Hiso. revert seen comps.
  induction l as [|v l IH]; intros seen comps Hnd Hdis.
  - cbn. rewrite app_nil_r. reflexivity.
  - cbn [foldl map]. unfold Nx.cc_step at 2.
    rewrite decide_False by (apply Hdis; left).
    rewrite plain_bfs_isolated by apply Hiso.
    apply NoDup_cons in Hnd. destruct Hnd as [Hv Hnd].
    rewrite IH, <- app_assoc; [reflexivity|exact Hnd|].
    intros v' Hv' Hin. apply elem_of_union in Hin. destruct Hin as [Hin|Hin].
    + apply (Hdis v'); [right; exact Hv'|exact Hin].
    + apply elem_of_singleton in Hin. subst v'. contradiction.
Qed.

Lemma connected_components_isolated (G : Graph) :
  NoDup (Nx.nodes G) -> (forall x, Nx.neighbors G x = ∅) ->
  Nx.connected_components G = map (fun v => {[v]}) (Nx.nodes G).
Proof.
  intros Hnd Hiso. unfold Nx.connected_components.
  rewrite cc_fold_isolated; [reflexivity|exact Hiso|exact Hnd|set_solver].
Qed.

Lemma build_graph_well_formed (M : Matrix) (epsilon : Q) :
  well_formed (build_graph M epsilon).
Proof.
  split.
  - rewrite (proj1 (build_graph_spec M epsilon 0 0)). apply NoDup_seq.
  - intros u v Hv. apply elem_of_neighbors in Hv.
    destruct (build_graph_spec M epsilon u v) as (Hn & He & _).
    apply He in Hv. unfold node_set. rewrite Hn.
    apply elem_of_list_to_set, list_elem_of_In, in_seq. lia.
Qed.

Lemma degree_sum_mono (G1 G2 : Graph) (l : list nat) :
  (forall x, Nx.neighbors G2 x ⊆ Nx.neighbors G1 x) ->
  (foldr Nat.add 0 (map (Nx.degree G2) l) <=
   foldr Nat.add 0 (map (Nx.degree G1) l))%nat.
Proof.
  intros Hsub. induction l as [|v l IH]; cbn [map foldr]; [lia|].
  assert (Nx.degree G2 v <= Nx.degree G1 v)%nat; [|lia].
  unfold Nx.degree. pose proof (subseteq_size _ _ (Hsub v)).
  destruct (decide (v ∈ Nx.neighbors G2 v)) as [Hin|_]; [|destruct (decide _); lia].
  rewrite decide_True by (apply Hsub, Hin). lia.
Qed.

(** ** The percolation sweep *)

Lemma length_diff (a : list Q) : length (Np.diff a) = (length a - 1)%nat.
Proof.
  induction a as [|x [|y a] IH]; [reflexivity..|].
  change (Np.diff (x :: y :: a)) with ((y - x) :: Np.diff (y :: a)).
  cbn [length] in *. lia.
Qed.




Lemma linspace_step_pos (n : nat) :
  (2 <= n)%nat -> 0 < ((99 # 100) - (1 # 100)) / inject_Z (Z.of_nat (n - 1)).
Proof.
  intros Hn. apply Qlt_shift_div_l.
  - change 0 with (inject_Z 0). rewrite <- Zlt_Qlt. lia.
  - rewrite Qmult_0_l. reflexivity.
Qed.

(** The thresholds of the sweep as numpy computes them: [i * step + 0.01]
    up to the last but one, and [0.99] itself at the end. *)
Lemma linspace_lookup (num : Z) (l : list Q) :
  Np.linspace (1 # 100) (99 # 100) num = Ok l ->
  (0 <= num)%Z /\ length l = Z.to_nat num /\
  (forall i, (i < Z.to_nat num - 1)%nat ->
     l !! i =
     Some (inject_Z (Z.of_nat i) *
             (((99 # 100) - (1 # 100)) / inject_Z (Z.of_nat (Z.to_nat num - 1)))
           + (1 # 100))) /\
  ((2 <= Z.to_nat num)%nat -> l !! (Z.to_nat num - 1)%nat = Some (99 # 100)).
Proof.
  unfold Np.linspace. destruct (Z.ltb_spec num 0); [discriminate|].
  intros [= <-]. split; [assumption|].
  set (n := Z.to_nat num).
  destruct (Nat.ltb_spec 0 (n - 1)) as [Hdiv|Hdiv].
  - assert (Hn : (2 <= n)%nat) by lia.
    destruct (Nat.ltb_spec 1 n) as [_|?]; [|lia].
    pose proof (linspace_step_pos n Hn) as Hpos.
    destruct (Qeq_bool _ 0) eqn:Hz;
      [apply Qeq_bool_eq in Hz; rewrite Hz in Hpos; discriminate Hpos|].
    rewrite !length_map, length_seq.
    split; [rewrite length_insert, !length_map, length_seq; reflexivity|].
    split.
    + intros i Hi. rewrite list_lookup_insert_ne by lia.
      change (map ?f ?x) with (f <$> x).
      rewrite !list_lookup_fmap, lookup_seq_lt by lia. reflexivity.
    + intros _. apply list_lookup_insert_eq.
      rewrite !length_map, length_seq. lia.
  - destruct (Nat.ltb_spec 1 n) as [?|_]; [lia|].
    split; [rewrite !length_map, length_seq; reflexivity|].
    split; [intros i Hi; lia|intros Hn; lia].
Qed.

(** They start at 0.01, never decrease and stay within [0.01, 0.99]. *)
Lemma linspace_range (num : Z) (l : list Q) (i : nat) (e : Q) :
  Np.linspace (1 # 100) (99 # 100) num = Ok l -> (2 <= Z.to_nat num)%nat ->
  l !! i = Some e ->
  1 # 100 <= e <= 99 # 100 /\ (i = 0%nat -> e == 1 # 100) /\
  ((1 <= i)%nat -> 1 # 100 < e).
Proof.
  intros Hlin Hn Hi. apply linspace_lookup in Hlin.
  destruct Hlin as (_ & Hlen & Hlk & Hlast).
  pose proof (lookup_lt_Some _ _ _ Hi) as Hil. rewrite Hlen in Hil.
  set (n := Z.to_nat num) in *.
  destruct (decide (i = n - 1)%nat) as [->|Hne].
  - rewrite Hlast in Hi by exact Hn. injection Hi as <-.
    split; [split; [unfold Qle; cbn; lia|apply Qle_refl]|].
    split; [intros H0; lia|intros _; reflexivity].
  - rewrite Hlk in Hi by lia. injection Hi as <-.
    pose proof (linspace_step_pos n Hn) as Hpos.
    set (step := _ / _) in *.
    assert (H0 : 0 <= inject_Z (Z.of_nat i))
      by (change 0 with (inject_Z 0); rewrite <- Zle_Qle; lia).
    assert (Hup : inject_Z (Z.of_nat i) * step <= (99 # 100) - (1 # 100)).
    { assert (Hd : 0 < inject_Z (Z.of_nat (n - 1)))
        by (change 0 with (inject_Z 0); rewrite <- Zlt_Qlt; lia).
      assert (Hfull : inject_Z (Z.of_nat (n - 1)) * step == (99 # 100) - (1 # 100)).
      { unfold step. field. intros Hz. rewrite Hz in Hd. discriminate Hd. }
      rewrite <- Hfull. apply Qmult_le_compat_r; [|apply Qlt_le_weak, Hpos].
      rewrite <- Zle_Qle. lia. }
    split; [split|split].
    + pose proof (Qmult_le_0_compat _ _ H0 (Qlt_le_weak _ _ Hpos)). lra.
    + lra.
    + intros ->. cbn. ring.
    + intros Hi1.
      assert (H1 : 1 <= inject_Z (Z.of_nat i))
        by (change 1 with (inject_Z 1); rewrite <- Zle_Qle; lia).
      pose proof (Qmult_le_compat_r _ _ _ H1 (Qlt_le_weak _ _ Hpos)). lra.
Qed.

Lemma linspace_mono (num : Z) (l : list Q) (i j : nat) (a b : Q) :
  Np.linspace (1 # 100) (99 # 100) num = Ok l -> (i <= j)%nat ->
  l !! i = Some a -> l !! j = Some b -> a <= b.
Proof.
  intros Hlin Hij Hi Hj.
  destruct (decide (i = j)) as [->|Hne].
  { rewrite Hi in Hj. injection Hj as <-. apply Qle_refl. }
  pose proof (linspace_lookup _ _ Hlin) as (_ & Hlen & Hlk & Hlast).
  pose proof (lookup_lt_Some _ _ _ Hj) as Hjl. rewrite Hlen in Hjl.
  set (n := Z.to_nat num) in *.
  assert (Hn : (2 <= n)%nat) by lia.
  destruct (decide (j = n - 1)%nat) as [->|Hjn].
  - rewrite Hlast in Hj by exact Hn. injection Hj as <-.
    apply (linspace_range num l i a Hlin Hn Hi).
  - rewrite Hlk in Hi, Hj by lia. injection Hi as <-. injection Hj as <-.
    apply Qplus_le_l, Qmult_le_compat_r;
      [|apply Qlt_le_weak, linspace_step_pos, Hn].
    rewrite <- Zle_Qle. lia.
Qed.

Section SweepFacts.

Variable eigvalsh : Matrix -> outcome (list Q).
Variable M : Matrix.

(** What one threshold contributes to the three lists. *)
Let clusters_at (eps : Q) : nat :=
  length (Nx.connected_components (build_graph M eps)).
Let giant_at (eps : Q) : Q :=
  inject_Z (Z.of_nat (giant_size (Nx.connected_components (build_graph M eps))))
  / inject_Z (Z.of_nat (Np.shape0 M)).
Let fiedler_at (eps : Q) : Q := sweep_fiedler eigvalsh (build_graph M eps).

Lemma sweep_body_ok (e : Q) (st : SweepState) :
  Np.shape0 M <> 0%nat ->
  sweep_body eigvalsh M (Np.shape0 M) st e =
  Ok {| n_clusters_list := n_clusters_list st ++ [clusters_at e];
        sw_giant_sizes := sw_giant_sizes st ++ [giant_at e];
        sw_fiedler_values := sw_fiedler_values st ++ [fiedler_at e] |}.
Proof.
  intros Hn. unfold sweep_body, int_div.
  destruct (Nat.eqb_spec (Np.shape0 M) 0); [contradiction|]. reflexivity.
Qed.

Lemma for_each_sweep (eps : list Q) (st : SweepState) :
  Np.shape0 M <> 0%nat ->
  for_each (sweep_body eigvalsh M (Np.shape0 M)) eps st =
  Ok {| n_clusters_list := n_clusters_list st ++ map clusters_at eps;
        sw_giant_sizes := sw_giant_sizes st ++ map giant_at eps;
        sw_fiedler_values := sw_fiedler_values st ++ map fiedler_at eps |}.
Proof.
  intros Hn. revert st. induction eps as [|e eps IH]; intros st.
  - cbn. rewrite !app_nil_r. destruct st; reflexivity.
  - cbn [for_each]. rewrite sweep_body_ok by exact Hn.
    cbn [mbind outcome_bind]. rewrite IH.
    cbn [n_clusters_list sw_giant_sizes sw_fiedler_values map].
    rewrite <- !app_assoc. reflexivity.
Qed.

Lemma for_each_sweep_empty (e : Q) (eps : list Q) (st : SweepState) :
  Np.shape0 M = 0%nat ->
  for_each (sweep_body eigvalsh M (Np.shape0 M)) (e :: eps) st =
  Raise ZeroDivisionError.
Proof.
  intros Hn. cbn [for_each]. unfold sweep_body, int_div. rewrite Hn. reflexivity.
Qed.

(** A sweep that returns has recorded, threshold by threshold, the
    values of the three measures. *)
Lemma percolation_curve_lists (n_steps : Z) (r : PercolationResult) :
  percolation_curve eigvalsh M n_steps = Ok r ->
  Np.linspace (1 # 100) (99 # 100) n_steps = Ok (epsilons r) /\
  n_clusters r = map clusters_at (epsilons r) /\
  giant_sizes r = map giant_at (epsilons r) /\
  fiedler_values r = map fiedler_at (epsilons r).
Proof.
  unfold percolation_curve.
  destruct (Np.linspace (1 # 100) (99 # 100) n_steps) as [eps|] eqn:Hlin;
    [|discriminate].
  cbn [mbind outcome_bind].
  destruct (decide (Np.shape0 M = 0%nat)) as [Hz|Hnz].
  - destruct eps as [|e eps].
    + cbn. discriminate.
    + rewrite for_each_sweep_empty by exact Hz. discriminate.
  - rewrite for_each_sweep by exact Hnz. cbn [mbind outcome_bind].
    cbn [n_clusters_list sw_giant_sizes sw_fiedler_values app].
    destruct (Np.argmax _) as [i|]; [|discriminate]. cbn [mbind outcome_bind].
    destruct (Np.index eps (i + 1)) as [c|]; [|discriminate].
    cbn [mbind outcome_bind]. intros [= <-]. cbn. auto.
Qed.

End SweepFacts.

Lemma percolation_curve_ok (eigvalsh : Matrix -> outcome (list Q)) (M : Matrix)
    (n_steps : Z) (r : PercolationResult) :
  percolation_curve eigvalsh M n_steps = Ok r ->
  (2 <= n_steps)%Z /\ Np.shape0 M <> 0%nat.
Proof.
  unfold percolation_curve.
  destruct (Np.linspace (1 # 100) (99 # 100) n_steps) as [eps|] eqn:Hlin;
    [|discriminate].
  apply linspace_lookup in Hlin. destruct Hlin as (Hpos & Hlen & _).
  cbn [mbind outcome_bind].
  destruct (decide (Np.shape0 M = 0%nat)) as [Hz|Hnz].
  - destruct eps as [|e eps].
    + cbn. discriminate.
    + rewrite for_each_sweep_empty by exact Hz. discriminate.
  - rewrite for_each_sweep by exact Hnz. cbn [mbind outcome_bind].
    cbn [n_clusters_list app].
    destruct (Np.argmax _) as [i|] eqn:Harg; [|discriminate].
    intros _. split; [|exact Hnz].
    destruct (Np.diff _) as [|d ds] eqn:Hd; [discriminate|].
    apply (f_equal length) in Hd.
    rewrite length_diff, !length_map, Hlen in Hd. cbn in Hd. lia.
Qed.

(** The edges of the graph at the higher threshold are edges of the graph
    at the lower one. *)
Lemma build_graph_fewer_edges (M : Matrix) (t1 t2 : Q) (u v : nat) :
  t1 <= t2 ->
  Nx.has_edge (build_graph M t2) u v -> Nx.has_edge (build_graph M t1) u v.
Proof.
  intros Ht H2.
  destruct (build_graph_spec M t1 u v) as (_ & H1 & _).
  destruct (build_graph_spec M t2 u v) as (_ & H & _).
  apply H in H2. apply H1. unfold survives in *.
  destruct H2 as (Hu & Hv & Hne & Hs). repeat (split; [assumption|]).
  destruct Hs as [[? ?]|[? ?]]; [left|right]; split; (lra || assumption).
Qed.

Lemma build_graph_clusters_mono (M : Matrix) (t1 t2 : Q) :
  t1 <= t2 ->
  (length (Nx.connected_components (build_graph M t1)) <=
   length (Nx.connected_components (build_graph M t2)))%nat.
Proof.
  intros Ht. apply connected_components_mono.
  - apply build_graph_well_formed.
  - rewrite (proj1 (build_graph_spec M t1 0 0)), (proj1 (build_graph_spec M t2 0 0)).
    reflexivity.
  - intros u v Hv. apply elem_of_neighbors. apply elem_of_neighbors in Hv.
    apply (build_graph_fewer_edges M t1 t2); assumption.
Qed.

(** C3.  For thresholds [t1 <= t2] over the same matrix, every edge of
    the graph induced at [t2] is an edge of the graph induced at [t1] (with
    an equal weight when the matrix is symmetric), so the edge count at
    [t2] is no larger, and the graph at [t2] has at least as many connected
    components.  In a percolation sweep that returns, the first threshold
    is 0.01, the last is 0.99, the cluster counts never decrease along the
    sweep, and so the count at 0.01 is at most the count at 0.99. *)
Theorem threshold_monotone (M : Matrix) (t1 t2 : Q) :
  t1 <= t2 ->
  let G1 := build_graph M t1 in
  let G2 := build_graph M t2 in
  (forall u v, Nx.has_edge G2 u v -> Nx.has_edge G1 u v) /\
  (forall u v w, Nx.weight G2 u v = Some w ->
     exists w', Nx.weight G1 u v = Some w' /\
                (symmetric (Np.shape0 M) M -> w' == w)) /\
  (Nx.number_of_edges G2 <= Nx.number_of_edges G1)%nat /\
  (length (Nx.connected_components G1) <=
   length (Nx.connected_components G2))%nat /\
  (forall eigvalsh n_steps r,
     percolation_curve eigvalsh M n_steps = Ok r ->
     (forall i j a b, (i <= j)%nat ->
        n_clusters r !! i = Some a -> n_clusters r !! j = Some b ->
        (a <= b)%nat) /\
     exists e0 e1 a b,
       head (epsilons r) = Some e0 /\ e0 == 1 # 100 /\
       last (epsilons r) = Some e1 /\ e1 == 99 # 100 /\
       head (n_clusters r) = Some a /\ last (n_clusters r) = Some b /\
       (a <= b)%nat).
Proof.
  intros Ht. cbn zeta.
  assert (Hsub : forall x,
    Nx.neighbors (build_graph M t2) x ⊆ Nx.neighbors (build_graph M t1) x).
  { intros u v Hv. apply elem_of_neighbors. apply elem_of_neighbors in Hv.
    apply (build_graph_fewer_edges M t1 t2); assumption. }
  split; [intros u v; apply build_graph_fewer_edges; exact Ht|].
  split; [|split; [|split; [apply build_graph_clusters_mono; exact Ht|]]].
  - intros u v w Hw.
    assert (H2 : Nx.has_edge (build_graph M t2) u v) by (eexists; exact Hw).
    pose proof (build_graph_fewer_edges M t1 t2 u v Ht H2) as [w' Hw'].
    exists w'. split; [exact Hw'|]. intros Hsym.
    destruct (build_graph_spec M t2 u v) as (_ & He & Hwt).
    apply He in H2. destruct H2 as (Hu & Hv & _).
    apply Hwt in Hw.
    apply (proj2 (proj2 (build_graph_spec M t1 u v))) in Hw'.
    pose proof (Hsym u v Hu Hv) as Hs.
    destruct Hw as [[-> _]|[-> _]], Hw' as [[-> _]|[-> _]];
      rewrite ?Hs; reflexivity.
  - unfold Nx.number_of_edges.
    rewrite (proj1 (build_graph_spec M t1 0 0)), (proj1 (build_graph_spec M t2 0 0)).
    apply Nat.Div0.div_le_mono, degree_sum_mono, Hsub.
  - intros eigvalsh n_steps r Hr.
    destruct (percolation_curve_ok _ _ _ _ Hr) as [Hsteps Hnz].
    destruct (percolation_curve_lists _ _ _ _ Hr) as (Hlin & Hcl & _).
    pose proof (linspace_lookup _ _ Hlin) as (_ & Hlen & _ & Hlast).
    set (n := Z.to_nat n_steps) in *.
    assert (Hn : (2 <= n)%nat) by (unfold n; lia).
    assert (Hmono : forall i j a b, (i <= j)%nat ->
              n_clusters r !! i = Some a -> n_clusters r !! j = Some b ->
              (a <= b)%nat).
    { intros i j a b Hij Ha Hb. rewrite Hcl in Ha, Hb.
      change (map ?f ?l) with (f <$> l) in Ha, Hb.
      rewrite list_lookup_fmap in Ha, Hb.
      destruct (epsilons r !! i) as [ei|] eqn:Hi; [|discriminate].
      destruct (epsilons r !! j) as [ej|] eqn:Hj; [|discriminate].
      cbn in Ha, Hb. injection Ha as <-. injection Hb as <-.
      apply build_graph_clusters_mono.
      apply (linspace_mono n_steps (epsilons r) i j); assumption. }
    split; [exact Hmono|].
    destruct (epsilons r !! 0%nat) as [e0|] eqn:H0;
      [|apply lookup_ge_None in H0; lia].
    specialize (Hlast Hn).
    assert (Hc0 : n_clusters r !! 0%nat =
              Some (length (Nx.connected_components (build_graph M e0)))).
    { rewrite Hcl. change (map ?f ?l) with (f <$> l).
      rewrite list_lookup_fmap, H0. reflexivity. }
    assert (Hc1 : n_clusters r !! (n - 1)%nat =
              Some (length (Nx.connected_components (build_graph M (99 # 100))))).
    { rewrite Hcl. change (map ?f ?l) with (f <$> l).
      rewrite list_lookup_fmap, Hlast. reflexivity. }
    assert (Hlen' : length (n_clusters r) = n) by (rewrite Hcl, length_map; exact Hlen).
    exists e0, (99 # 100). eexists _, _.
    split; [rewrite head_lookup; exact H0|].
    split; [apply (linspace_range n_steps (epsilons r) 0 e0 Hlin Hn H0); reflexivity|].
    split; [rewrite last_lookup, Hlen, <- Nat.sub_1_r; exact Hlast|].
    split; [reflexivity|].
    split; [rewrite head_lookup; exact Hc0|].
    split; [rewrite last_lookup, Hlen', <- Nat.sub_1_r; exact Hc1|].
    apply (Hmono 0%nat (n - 1)%nat); [lia|exact Hc0|exact Hc1].
Qed.

Lemma no_edges_counts (G : Graph) :
  NoDup (Nx.nodes G) -> (forall u v, ~ Nx.has_edge G u v) ->
  Nx.number_of_edges G = 0%nat /\
  Nx.connected_components G = map (fun v => {[v]}) (Nx.nodes G).
Proof.
  intros Hnd Hno.
  assert (Hiso : forall x, Nx.neighbors G x = ∅).
  { intros x. apply set_eq. intros y. rewrite elem_of_neighbors.
    split; [intros H; destruct (Hno x y H)|set_solver]. }
  split; [|apply connected_components_isolated; assumption].
  unfold Nx.number_of_edges.
  assert (Hsum : forall l, foldr Nat.add 0%nat (map (Nx.degree G) l) = 0%nat).
  { induction l as [|v l IH]; [reflexivity|]. cbn [map foldr]. rewrite IH.
    unfold Nx.degree. rewrite Hiso, size_empty, decide_False by set_solver.
    reflexivity. }
  rewrite Hsum. reflexivity.
Qed.

(** C2, as the code has it.  The graph built from [M] at threshold [t] has
    the nodes [0 .. n-1]; two distinct nodes [i], [j] are joined exactly
    when [M[i][j]] or [M[j][i]] is at least [t] and not zero, a zero entry
    being an absent edge; the weight of an edge is such an entry, so for a
    symmetric [M] the edge [(i, j)] with weight [M[i][j]] is present exactly
    when [M[i][j] >= t] and [M[i][j]] is not zero.  No node is joined to
    itself.  With [t <= 0] and positive off-diagonal entries the graph is
    complete; with [t] above every off-diagonal entry it has no edge and
    [n] components, one per node. *)
Theorem build_graph_edges (M : Matrix) (t : Q) :
  let G := build_graph M t in
  let n := Np.shape0 M in
  Nx.nodes G = seq 0 n /\
  (forall i j,
     Nx.has_edge G i j <->
     (i < n)%nat /\ (j < n)%nat /\ i <> j /\
     (survives M t i j \/ survives M t j i)) /\
  (forall i j w,
     Nx.weight G i j = Some w ->
     t <= w /\ ~ w == 0 /\ (w = Np.get M i j \/ w = Np.get M j i)) /\
  (symmetric n M ->
   forall i j, (i < n)%nat -> (j < n)%nat -> i <> j ->
     (exists w, Nx.weight G i j = Some w /\ w == Np.get M i j) <->
     t <= Np.get M i j /\ ~ Np.get M i j == 0) /\
  (forall i, ~ Nx.has_edge G i i) /\
  (t <= 0 ->
   (forall i j, (i < n)%nat -> (j < n)%nat -> i <> j -> 0 < Np.get M i j) ->
   forall i j, (i < n)%nat -> (j < n)%nat -> i <> j -> Nx.has_edge G i j) /\
  ((forall i j, (i < n)%nat -> (j < n)%nat -> i <> j -> Np.get M i j < t) ->
   (forall i j, ~ Nx.has_edge G i j) /\
   Nx.number_of_edges G = 0%nat /\
   length (Nx.connected_components G) = n).
Proof.
  cbn zeta.
  assert (Hn : Nx.nodes (build_graph M t) = seq 0 (Np.shape0 M))
    by apply (build_graph_spec M t 0 0).
  assert (He : forall i j, Nx.has_edge (build_graph M t) i j <->
            (i < Np.shape0 M)%nat /\ (j < Np.shape0 M)%nat /\ i <> j /\
            (survives M t i j \/ survives M t j i))
    by (intros i j; apply (build_graph_spec M t i j)).
  split; [exact Hn|]. split; [exact He|].
  split; [|split; [|split; [|split]]].
  - intros i j w Hw. apply (build_graph_spec M t i j) in Hw. unfold survives in Hw.
    destruct Hw as [[-> [? ?]]|[-> [? ?]]]; auto.
  - intros Hsym i j Hi Hj Hne. pose proof (Hsym i j Hi Hj) as Hs. split.
    + intros (w & Hw & _). apply (build_graph_spec M t i j) in Hw.
      unfold survives in Hw.
      destruct Hw as [[_ [? ?]]|[_ [? ?]]]; [auto|].
      split; [lra|]. intros Hz. rewrite Hs in Hz. contradiction.
    + intros Hsv.
      assert (Hedge : Nx.has_edge (build_graph M t) i j).
      { apply He. repeat (split; [assumption|]). left. exact Hsv. }
      destruct Hedge as [w Hw]. exists w. split; [exact Hw|].
      apply (build_graph_spec M t i j) in Hw.
      destruct Hw as [[-> _]|[-> _]]; [reflexivity|symmetry; exact Hs].
  - intros i Hii. apply He in Hii. destruct Hii as (_ & _ & Hne & _). congruence.
  - intros Ht Hpos i j Hi Hj Hne. apply He. repeat (split; [assumption|]).
    left. pose proof (Hpos i j Hi Hj Hne). unfold survives. split; lra.
  - intros Hlow.
    assert (Hno : forall i j, ~ Nx.has_edge (build_graph M t) i j).
    { intros i j Hij. apply He in Hij. unfold survives in Hij.
      destruct Hij as (Hi & Hj & Hne & [[Hge _]|[Hge _]]).
      - pose proof (Hlow i j Hi Hj Hne). lra.
      - pose proof (Hlow j i Hj Hi (not_eq_sym Hne)). lra. }
    split; [exact Hno|].
    destruct (no_edges_counts (build_graph M t)) as [Hedges Hcc];
      [rewrite Hn; apply NoDup_seq|exact Hno|].
    split; [exact Hedges|].
    rewrite Hcc, length_map, Hn, length_seq. reflexivity.
Qed.

(** C2 as stated fails.  The identity matrix of size 2 is a coherence
    matrix whose entry [(0, 1)] is 0, hence at least the threshold 0, yet
    the graph built at threshold 0 has no edge between 0 and 1, so it is
    not the complete graph either.  On a matrix that is not symmetric the
    edge between 1 and 0 exists at threshold 1/2 although [M[1][0]] is
    below it, and its weight is [M[0][1]]. *)
Lemma build_graph_zero_entry :
  (let M : Matrix := [[1; 0]; [0; 1]] in
   coherence_invariant 2 M /\
   0 <= Np.get M 0 1 /\
   Nx.weight (build_graph M 0) 0 1 = None /\
   Nx.number_of_edges (build_graph M 0) = 0%nat) /\
  (let M : Matrix := [[1; 9 # 10]; [1 # 10; 1]] in
   Np.get M 1 0 < 1 # 2 /\
   Nx.weight (build_graph M (1 # 2)) 1 0 = Some (9 # 10)).
Proof.
  cbn zeta. split.
  - split; [|split; [unfold Qle; cbn; lia|split; vm_compute; reflexivity]].
    split; [split; [reflexivity|repeat constructor]|].
    split; [|split].
    + intros [|[|i]] [|[|j]] Hi Hj; try lia; reflexivity.
    + intros [|[|i]] Hi; try lia; reflexivity.
    + intros [|[|i]] [|[|j]] Hi Hj; try lia; vm_compute; split; discriminate.
  - split; vm_compute; reflexivity.
Qed.




(** ** The Laplacian summary *)

Lemma insert_sorted_perm (x : Q) (l : list Q) : Np.insert_sorted x l ≡ₚ x :: l.
Proof.
  induction l as [|y l IH]; [reflexivity|]. cbn [Np.insert_sorted].
  destruct (Qlt_le_dec y x); [|reflexivity].
  rewrite IH. apply Permutation_swap.
Qed.

Lemma sort_perm (a : list Q) : Np.sort a ≡ₚ a.
Proof.
  induction a as [|x a IH]; [reflexivity|].
  unfold Np.sort in *. cbn [fold_right]. rewrite insert_sorted_perm, IH. reflexivity.
Qed.

Lemma insert_sorted_sorted (x : Q) (l : list Q) :
  StronglySorted Qle l -> StronglySorted Qle (Np.insert_sorted x l).
Proof.
  induction 1 as [|y l Hs IH Hy]; cbn [Np.insert_sorted].
  - repeat constructor.
  - destruct (Qlt_le_dec y x) as [Hlt|Hle].
    + constructor; [exact IH|]. rewrite insert_sorted_perm.
      constructor; [lra|exact Hy].
    + constructor; [constructor; assumption|].
      constructor; [exact Hle|].
      eapply Forall_impl; [exact Hy|]. intros z Hz. cbn in Hz. lra.
Qed.

Lemma sort_sorted (a : list Q) : StronglySorted Qle (Np.sort a).
Proof.
  induction a as [|x a IH]; [constructor|].
  unfold Np.sort in *. cbn [fold_right]. apply insert_sorted_sorted, IH.
Qed.

(** What [compute_laplacian] returns: the eigenvalues the solver gave
    for the Laplacian [D - W], sorted ascending; as [n_zeros] the number
    of them whose absolute value is below 1e-8; as Fiedler value the
    second entry of the sorted sequence, the second smallest eigenvalue,
    when the graph has more than one node, and 0 otherwise.  For the
    empty graph everything is empty or zero. *)
Lemma compute_laplacian_spec (eigvalsh : Matrix -> outcome (list Q))
    (G : Graph) (r : LaplacianResult) :
  compute_laplacian eigvalsh G = Ok r ->
  StronglySorted Qle (eigenvalues r) /\
  n_zeros r =
    length (List.filter (fun x => Qltb (Qabs x) (1 # 100000000)) (eigenvalues r)) /\
  (Nx.number_of_nodes G <> 0%nat ->
   exists ev, eigvalsh (Nx.laplacian_matrix G) = Ok ev /\
              eigenvalues r ≡ₚ ev /\
              laplacian r = Some (Nx.laplacian_matrix G)) /\
  ((1 < Nx.number_of_nodes G)%nat ->
   eigenvalues r !! 1%nat = Some (fiedler r) /\
   forall x, x ∈ drop 1 (eigenvalues r) -> fiedler r <= x) /\
  ((Nx.number_of_nodes G <= 1)%nat -> fiedler r = 0) /\
  (Nx.number_of_nodes G = 0%nat -> eigenvalues r = [] /\ n_zeros r = 0%nat).
Proof.
  unfold compute_laplacian.
  destruct (Nat.eqb_spec (Nx.number_of_nodes G) 0) as [Hz|Hnz].
  - intros [= <-]. cbn. split; [constructor|]. split; [reflexivity|].
    split; [contradiction|]. split; [lia|]. auto.
  - destruct (eigvalsh (Nx.laplacian_matrix G)) as [ev|] eqn:Hev; [|discriminate].
    cbn [mbind outcome_bind].
    destruct (Nat.ltb_spec 1 (Nx.number_of_nodes G)) as [Hgt|Hle].
    + unfold Np.index. destruct (Np.sort ev !! 1%nat) as [f|] eqn:Hf; [|discriminate].
      cbn [mbind outcome_bind]. intros [= <-]. cbn.
      split; [apply sort_sorted|]. split; [reflexivity|].
      split; [intros _; exists ev; auto using sort_perm|].
      split; [|split; [lia|contradiction]].
      intros _. split; [exact Hf|].
      pose proof (sort_sorted ev) as Hs.
      destruct (Np.sort ev) as [|x0 [|x1 l]]; [discriminate..|].
      cbn in Hf. injection Hf as ->. cbn [drop].
      intros x Hx. apply elem_of_cons in Hx. destruct Hx as [->|Hx]; [lra|].
      apply StronglySorted_inv in Hs. destruct Hs as [Hs _].
      apply StronglySorted_inv in Hs. destruct Hs as [_ Hall].
      rewrite Forall_forall in Hall. apply Hall, Hx.
    + cbn [mbind outcome_bind]. intros [= <-]. cbn.
      split; [apply sort_sorted|]. split; [reflexivity|].
      split; [intros _; exists ev; auto using sort_perm|].
      split; [lia|]. split; [reflexivity|contradiction].
Qed.

(** The Laplacian of two nodes joined by an edge of weight 1e-9. *)
Lemma tiny_laplacian_entries :
  exists a b c d,
    Nx.laplacian_matrix
      (build_graph [[1; 1 # 1000000000]; [1 # 1000000000; 1]] 0) =
      [[a; b]; [c; d]] /\
    a == 1 # 1000000000 /\ b == - (1 # 1000000000) /\
    c == - (1 # 1000000000) /\ d == 1 # 1000000000.
Proof.
  eexists _, _, _, _. split; [vm_compute; reflexivity|].
  repeat split; vm_compute; reflexivity.
Qed.

(** Its only eigenvalues are 0 and 2e-9. *)
Lemma tiny_laplacian_eigenvalues (lam : Q) (v : list Q) :
  eigenpair
    (Nx.laplacian_matrix
       (build_graph [[1; 1 # 1000000000]; [1 # 1000000000; 1]] 0)) lam v ->
  lam == 0 \/ lam == 2 # 1000000000.
Proof.
  destruct tiny_laplacian_entries as (a & b & c & d & -> & Ha & Hb & Hc & Hd).
  unfold eigenpair, mat_vec. intros [Hnz Heq].
  destruct v as [|v0 [|v1 [|v2 v]]]; cbn in Heq.
  - inversion Heq.
  - inversion Heq as [|? ? ? ? _ Ht]; inversion Ht.
  - inversion Heq as [|? ? ? ? E0 Ht]; subst.
    inversion Ht as [|? ? ? ? E1 _]; subst. clear Heq Ht.
    rewrite Ha, Hb in E0. rewrite Hc, Hd in E1.
    assert (Hsum : lam * (v0 + v1) == 0).
    { rewrite Qmult_plus_distr_r, <- E0, <- E1. ring. }
    apply Qmult_integral in Hsum. destruct Hsum as [H0|H01]; [left; exact H0|].
    right.
    assert (Hv1 : v1 == - v0) by lra.
    assert (Hprod : ((2 # 1000000000) - lam) * v0 == 0).
    { rewrite Hv1 in E0.
      transitivity
        ((1 # 1000000000) * v0 + (- (1 # 1000000000) * - v0 + 0) - lam * v0);
        [ring|rewrite E0; ring]. }
    apply Qmult_integral in Hprod. destruct Hprod as [H|H]; [lra|].
    exfalso. apply Exists_cons in Hnz. destruct Hnz as [Hnz|Hnz]; [contradiction|].
    apply Exists_cons in Hnz. destruct Hnz as [Hnz|Hnz]; [apply Hnz; lra|].
    inversion Hnz.
  - inversion Heq as [|? ? ? ? _ Ht]; inversion Ht as [|? ? ? ? _ Ht']; inversion Ht'.
Qed.

Lemma Qabs_small (x : Q) :
  x == 0 \/ x == 2 # 1000000000 -> Qltb (Qabs x) zero_tol = true.
Proof.
  intros [H|H]; apply Qltb_true; rewrite H; vm_compute; reflexivity.
Qed.

(** C4.  The count of near-zero eigenvalues is not the number of
    connected components.  Two nodes joined by an edge of weight 1e-9
    form one component; the Laplacian has the eigenvalues 0 and 2e-9,
    with the eigenvectors (1, 1) and (1, -1), and no others; both lie
    below the tolerance 1e-8, so whenever the solver returns two
    eigenvalues of this Laplacian [n_zeros] is 2 while the graph has 1
    component.  The rest of the claim holds for every graph: the
    eigenvalues come back sorted ascending, and the Fiedler value is the
    second smallest of them when the graph has more than one node and 0
    otherwise. *)
Theorem compute_laplacian_tiny_weight :
  let M : Matrix := [[1; 1 # 1000000000]; [1 # 1000000000; 1]] in
  let G := build_graph M 0 in
  let L := Nx.laplacian_matrix G in
  coherence_invariant 2 M /\
  n_components (compute_topology G) = 1%nat /\
  eigenpair L 0 [1; 1] /\
  eigenpair L (2 # 1000000000) [1; -1] /\
  (forall lam v, eigenpair L lam v -> lam == 0 \/ lam == 2 # 1000000000) /\
  (forall eigvalsh ev,
     eigvalsh L = Ok ev -> length ev = 2%nat ->
     Forall (fun lam => exists v, eigenpair L lam v) ev ->
     exists r, compute_laplacian eigvalsh G = Ok r /\ n_zeros r = 2%nat) /\
  (exists r,
     compute_laplacian (fun _ => Ok [2 # 1000000000; 0]) G = Ok r /\
     eigenvalues r = [0; 2 # 1000000000] /\ n_zeros r = 2%nat) /\
  (forall eigvalsh G' r,
     compute_laplacian eigvalsh G' = Ok r ->
     StronglySorted Qle (eigenvalues r) /\
     ((1 < Nx.number_of_nodes G')%nat ->
      eigenvalues r !! 1%nat = Some (fiedler r) /\
      forall x, x ∈ drop 1 (eigenvalues r) -> fiedler r <= x) /\
     ((Nx.number_of_nodes G' <= 1)%nat -> fiedler r = 0)).
Proof.
  cbn zeta. split; [|split; [|split; [|split; [|split; [|split; [|split]]]]]].
  - split; [split; [reflexivity|repeat constructor]|].
    split; [|split].
    + intros [|[|i]] [|[|j]] Hi Hj; try lia; reflexivity.
    + intros [|[|i]] Hi; try lia; reflexivity.
    + intros [|[|i]] [|[|j]] Hi Hj; try lia; vm_compute; split; discriminate.
  - vm_compute. reflexivity.
  - split; [left; discriminate|].
    vm_compute. repeat constructor.
  - split; [left; discriminate|].
    vm_compute. repeat constructor.
  - apply tiny_laplacian_eigenvalues.
  - intros eigvalsh ev Hev Hlen Hall.
    destruct ev as [|x [|y [|z ev]]]; try discriminate Hlen.
    apply Forall_cons in Hall. destruct Hall as [[vx Hx] Hall].
    apply Forall_cons in Hall. destruct Hall as [[vy Hy] _].
    apply tiny_laplacian_eigenvalues, Qabs_small in Hx, Hy.
    unfold compute_laplacian.
    replace (Nx.number_of_nodes
               (build_graph [[1; 1 # 1000000000]; [1 # 1000000000; 1]] 0))
      with 2%nat by (vm_compute; reflexivity).
    cbn [Nat.eqb Nat.ltb Nat.leb]. rewrite Hev. cbn [mbind outcome_bind].
    unfold Np.sort. cbn [fold_right Np.insert_sorted].
    destruct (Qlt_le_dec y x); cbn [Np.index lookup list_lookup mbind outcome_bind];
      (eexists; split; [reflexivity|]); cbn [n_zeros];
      unfold Np.count_abs_lt; cbn [List.filter]; rewrite Hx, Hy; reflexivity.
  - eexists. split; [vm_compute; reflexivity|split; reflexivity].
  - intros eigvalsh G' r Hr.
    destruct (compute_laplacian_spec eigvalsh G' r Hr) as (Hs & _ & _ & Hf & Hz & _).
    split; [exact Hs|]. split; [exact Hf|exact Hz].
Qed.

(** ** Input validation *)

(** C8, as the code has it.  No operation checks its arguments itself;
    the only refusals are numpy's.  [create_coherence_matrix] raises
    [ValueError] exactly when the entity count or the seed is negative
    (the array allocation, the generator) and returns otherwise, the empty
    matrix for an entity count of 0.  [build_graph] accepts every
    threshold: for a square matrix it returns a graph on the nodes
    [0 .. n-1], without edges when the threshold exceeds 1 and the
    entries are at most 1.  [simulate_dynamic_graph] raises [ValueError]
    when [seed + 100] is negative and otherwise returns for a square
    matrix and every step count, with an empty trace when the step count
    is below 1.  The sweep refuses a negative step count in
    [np.linspace], before any graph is built. *)
Theorem validation_absent :
  (forall uniform n seed,
     (create_coherence_matrix uniform n seed = Raise ValueError <->
      (n < 0)%Z \/ (seed < 0)%Z) /\
     ((0 <= n)%Z -> (0 <= seed)%Z ->
      exists M, create_coherence_matrix uniform n seed = Ok M)) /\
  (forall uniform seed,
     (0 <= seed)%Z -> create_coherence_matrix uniform 0 seed = Ok []) /\
  (forall M t, Np.square (Np.shape0 M) M ->
     Nx.nodes (build_graph M t) = seq 0 (Np.shape0 M)) /\
  (forall M t, Np.square (Np.shape0 M) M -> 1 < t ->
     bounded01 (Np.shape0 M) M ->
     forall i j, ~ Nx.has_edge (build_graph M t) i j) /\
  (forall gauss M n_steps epsilon seed,
     ((seed + 100 < 0)%Z ->
      simulate_dynamic_graph gauss M n_steps epsilon seed = Raise ValueError) /\
     ((0 <= seed + 100)%Z -> Np.square (Np.shape0 M) M ->
      exists r, simulate_dynamic_graph gauss M n_steps epsilon seed = Ok r /\
                dyn_n_steps r = n_steps /\
                length (n_components_history r) = Z.to_nat n_steps) /\
     ((0 <= seed + 100)%Z -> (n_steps <= 0)%Z ->
      simulate_dynamic_graph gauss M n_steps epsilon seed =
      Ok {| snapshots := []; n_components_history := []; events := [];
            dyn_n_steps := n_steps |})) /\
  (forall eigvalsh M n_steps,
     (n_steps < 0)%Z -> percolation_curve eigvalsh M n_steps = Raise ValueError).
Proof.
  split; [|split; [|split; [|split; [|split]]]].
  - intros uniform n seed. unfold create_coherence_matrix, default_rng.
    destruct (Z.ltb_spec seed 0) as [Hs|Hs]; cbn [mbind outcome_bind].
    + split; [split; [intros _; right; exact Hs|reflexivity]|lia].
    + destruct (Z.ltb_spec n 0) as [Hn|Hn].
      * split; [split; [intros _; left; exact Hn|reflexivity]|lia].
      * split; [split; [discriminate|lia]|]. intros _ _. eexists. reflexivity.
  - intros uniform seed Hs. unfold create_coherence_matrix, default_rng.
    destruct (Z.ltb_spec seed 0); [lia|]. reflexivity.
  - intros M t _. apply (build_graph_spec M t 0 0).
  - intros M t _ Ht Hb i j Hij. apply (build_graph_spec M t i j) in Hij.
    unfold survives in Hij. destruct Hij as (Hi & Hj & _ & [[Hge _]|[Hge _]]).
    + pose proof (Hb i j Hi Hj). lra.
    + pose proof (Hb j i Hj Hi). lra.
  - intros gauss M n_steps epsilon seed.
    destruct (simulate_dynamic_graph_returns gauss M n_steps epsilon seed)
      as [Hneg Hpos].
    split; [exact Hneg|]. split.
    + intros Hs _. destruct (Hpos Hs) as [r Hr]. exists r. split; [exact Hr|].
      apply simulate_dynamic_graph_run in Hr. destruct Hr as (rng & _ & ->).
      cbn [dyn_n_steps n_components_history]. split; [reflexivity|].
      apply (dyn_iter_log gauss M n_steps epsilon rng (Z.to_nat n_steps)).
    + intros Hs Hn. unfold simulate_dynamic_graph, default_rng.
      destruct (Z.ltb_spec (seed + 100) 0); [lia|]. cbn [mbind outcome_bind].
      unfold dyn_run, dyn_iter.
      replace (Z.to_nat n_steps) with 0%nat by lia. reflexivity.
  - intros eigvalsh M n_steps Hn. unfold percolation_curve, Np.linspace.
    destruct (Z.ltb_spec n_steps 0); [reflexivity|lia].
Qed.

(** C8 as stated fails: an entity count of 0, the thresholds 2 and -1 and
    a negative step count of the evolver are all accepted, and a result is
    returned. *)
Lemma invalid_inputs_accepted :
  create_coherence_matrix (fun _ _ => 1 # 2) 0 42 = Ok [] /\
  Nx.nodes (build_graph [[1; 1 # 2]; [1 # 2; 1]] 2) = [0; 1]%nat /\
  Nx.weight (build_graph [[1; 1 # 2]; [1 # 2; 1]] (-1)) 0 1 = Some (1 # 2) /\
  simulate_dynamic_graph (fun _ _ => 0) [[1; 1 # 2]; [1 # 2; 1]] (-1) (1 # 2) 42 =
    Ok {| snapshots := []; n_components_history := []; events := [];
          dyn_n_steps := -1 |}.
Proof. repeat split; vm_compute; reflexivity. Qed.

(** ** The small-world check *)


Section SmallWorldFacts.

Variable average_clustering : Graph -> Q.
Variable average_shortest_path_length : Graph -> outcome Q.
Variable log : Q -> Q.

Let check := check_small_world average_clustering average_shortest_path_length log.

(** The dictionary the function starts from. *)
Let base : gmap string pyval :=
  <["sigma" := PyNum 0]> (<["is_small_world" := PyBool false]> ∅).

(** C10.  [check_small_world] never reads [n_nodes]: any two values of
    that argument give the same result on the same graph. *)
Theorem check_small_world_ignores_n_nodes (G : Graph) (n1 n2 : Z) :
  check_small_world average_clustering average_shortest_path_length log G n1 =
  check_small_world average_clustering average_shortest_path_length log G n2.
Proof. reflexivity. Qed.

(** The degenerate cases return [sigma = 0] and not small-world. *)
Lemma check_small_world_degenerate (G : Graph) (n_nodes : Z) :
  Nx.number_of_edges G = 0%nat \/ (Nx.number_of_nodes G < 4)%nat \/
  (exists c0 cs, Nx.connected_components G = c0 :: cs /\
                 (size (max_by_len c0 cs) < 4)%nat) ->
  check G n_nodes = base.
Proof.
  unfold check, check_small_world. fold base.
  intros [H|[H|(c0 & cs & Hcc & Hg)]].
  - rewrite H. reflexivity.
  - destruct (_ =? _)%nat; [reflexivity|].
    destruct (Nat.ltb_spec (Nx.number_of_nodes G) 4); [reflexivity|lia].
  - destruct (_ || _); [reflexivity|].
    destruct (_ <? 2)%nat; [reflexivity|].
    rewrite Hcc. destruct (Nat.ltb_spec (size (max_by_len c0 cs)) 4); [reflexivity|lia].
Qed.

(** Outside the degenerate cases the reference path length is
    [log(giant size) / log 2]: the mean degree is looked up in the result
    dictionary, which never holds it, so the default 2 is always used. *)
Lemma check_small_world_sigma (G : Graph) (n_nodes : Z)
    (c0 : gset nat) (cs : list (gset nat)) (L_actual : Q) :
  Nx.number_of_edges G <> 0%nat -> (4 <= Nx.number_of_nodes G)%nat ->
  Nx.connected_components G = c0 :: cs ->
  (4 <= size (max_by_len c0 cs))%nat ->
  average_shortest_path_length (Nx.subgraph G (max_by_len c0 cs)) = Ok L_actual ->
  0 < L_actual ->
  let m := inject_Z (Z.of_nat (Nx.number_of_edges G)) in
  let n := Nx.number_of_nodes G in
  let C_random := 2 * m / inject_Z (Z.of_nat (n * (n - 1))) in
  let L_random := log (inject_Z (Z.of_nat (size (max_by_len c0 cs)))) / log 2 in
  ~ L_random == 0 ->
  let sigma :=
    (average_clustering G / C_random)
    / Qmax (L_actual / Qmax L_random (1 # 100)) (1 # 100) in
  check G n_nodes !! "sigma" = Some (PyNum sigma) /\
  check G n_nodes !! "is_small_world" = Some (PyBool (Qltb 1 sigma)).
Proof.
  intros Hm Hn Hcc Hg Hpath HL. cbn zeta. intros HLr.
  unfold check, check_small_world.
  destruct (Nat.eqb_spec (Nx.number_of_edges G) 0); [contradiction|].
  destruct (Nat.ltb_spec (Nx.number_of_nodes G) 4); [lia|]. cbn [orb].
  destruct (Nat.ltb_spec (Nx.number_of_nodes G) 2); [lia|].
  destruct (Nat.ltb_spec 1 (Nx.number_of_nodes G)); [|lia].
  rewrite Hcc.
  destruct (Nat.ltb_spec (size (max_by_len c0 cs)) 4); [lia|].
  rewrite Hpath.
  replace ((<["sigma" := PyNum 0]> (<["is_small_world" := PyBool false]> ∅)
              : gmap string pyval) !! "avg_degree") with (@None pyval)
    by reflexivity.
  cbn [default num_of]. change (Qmax 2 2) with 2.
  destruct (Qeq_bool _ 0) eqn:Hz; [apply Qeq_bool_iff in Hz; contradiction|].
  assert (Hp : 0 < 2 * inject_Z (Z.of_nat (Nx.number_of_edges G))
                   / inject_Z (Z.of_nat (Nx.number_of_nodes G *
                                         (Nx.number_of_nodes G - 1)))).
  { apply Qlt_shift_div_l.
    - change 0 with (inject_Z 0). rewrite <- Zlt_Qlt. nia.
    - rewrite Qmult_0_l.
      assert (0 < inject_Z (Z.of_nat (Nx.number_of_edges G))); [|lra].
      change 0 with (inject_Z 0). rewrite <- Zlt_Qlt. lia. }
  rewrite (Qltb_true _ _ Hp), (Qltb_true _ _ HL).
  cbn [andb]. split.
  - rewrite !lookup_insert_ne by discriminate.
    apply lookup_insert_eq.
  - rewrite !lookup_insert_ne by discriminate.
    apply lookup_insert_eq.
Qed.

End SmallWorldFacts.

(** C9 on the complete graph of four nodes with unit weights, whose
    clustering is 1, whose mean path length is 1 and whose mean degree
    is 3: the code divides [ln 4] by [ln 2] and returns [sigma = 2],
    where the stated formula divides by [ln 3] and gives about 1.26. *)
Lemma check_small_world_K4 :
  let G := build_graph (Np.tabulate 4 (fun _ _ => 1)) (1 # 2) in
  let r := check_small_world (fun _ => 1) (fun _ => Ok 1) ln_table G 4 in
  Nx.number_of_edges G = 6%nat /\
  map (Nx.degree G) (Nx.nodes G) = [3; 3; 3; 3]%nat /\
  (exists sigma, r !! "sigma" = Some (PyNum sigma) /\ sigma == 2) /\
  ~ (1 / 1) / (1 / (ln_table 4 / ln_table 3)) == 2.
Proof.
  cbn zeta. split; [vm_compute; reflexivity|]. split; [vm_compute; reflexivity|].
  split.
  - eexists. split; [vm_compute; reflexivity|]. vm_compute. reflexivity.
  - vm_compute. discriminate.
Qed.

(** ** The statements at sample inputs *)

Lemma two_blocks_invariant : coherence_invariant 4 two_blocks.
Proof.
  split; [split; [reflexivity|repeat constructor]|].
  split; [|split].
  - intros [|[|[|[|i]]]] [|[|[|[|j]]]] Hi Hj; try lia; reflexivity.
  - intros [|[|[|[|i]]]] Hi; try lia; reflexivity.
  - intros [|[|[|[|i]]]] [|[|[|[|j]]]] Hi Hj; try lia;
      vm_compute; split; discriminate.
Defined.

(** The scenario of two blocks: at threshold 1/2 there are exactly two
    clusters of size two and the giant fraction is 1/2. *)
Lemma two_blocks_scenario :
  map size (Nx.connected_components (build_graph two_blocks (1 # 2))) = [2; 2]%nat /\
  int_div (giant_size (Nx.connected_components (build_graph two_blocks (1 # 2))))
    (Np.shape0 two_blocks) = Ok (2 # 4).
Proof. split; vm_compute; reflexivity. Qed.

Lemma sample_uniform_range (seed : Z) (k : nat) : 0 <= sample_uniform seed k < 1.
Proof. unfold sample_uniform, Qle, Qlt. cbn. lia. Defined.

Lemma create_coherence_matrix_invariant_witness :
  (1 <= 3)%Z /\
  exists M,
    create_coherence_matrix sample_uniform 3 42 = Ok M /\
    coherence_invariant 3 M.
Proof.
  split; [lia|].
  destruct (create_coherence_matrix_invariant sample_uniform sample_uniform_range 3 42)
    as (_ & Hret & Hinv); [lia|].
  destruct Hret as [M HM]; [lia|].
  exists M. split; [exact HM|]. apply (Hinv M HM).
Defined.

Lemma threshold_monotone_witness :
  1 # 100 <= 1 # 2 /\
  (length (Nx.connected_components (build_graph two_blocks (1 # 100))) <=
   length (Nx.connected_components (build_graph two_blocks (1 # 2))))%nat.
Proof.
  assert (H : 1 # 100 <= 1 # 2) by (unfold Qle; cbn; lia).
  split; [exact H|].
  apply (threshold_monotone two_blocks (1 # 100) (1 # 2) H).
Defined.


Lemma simulate_dynamic_graph_invariant_witness :
  coherence_invariant 4 two_blocks /\
  exists r,
    simulate_dynamic_graph sample_gauss two_blocks 3 (1 # 2) 42 = Ok r /\
    forall s, s ∈ snapshots r -> coherence_invariant 4 (snap_M s).
Proof.
  split; [exact two_blocks_invariant|].
  eexists. split; [reflexivity|]. intros s Hs.
  eapply (simulate_dynamic_graph_invariant sample_gauss two_blocks 3 (1 # 2) 42
            two_blocks_invariant); [reflexivity|exact Hs].
Defined.

Lemma simulate_dynamic_graph_events_witness :
  exists r,
    simulate_dynamic_graph sample_gauss two_blocks 3 (1 # 2) 42 = Ok r /\
    length (n_components_history r) = 3%nat /\
    events r = expected_events (n_components_history r).
Proof.
  eexists. split; [reflexivity|].
  destruct (simulate_dynamic_graph_events sample_gauss two_blocks 3 (1 # 2) 42 _
              eq_refl) as (Hlen & _ & Hev & _).
  split; [exact Hlen|exact Hev].
Defined.

Lemma build_graph_edges_witness :
  (forall i j, (i < 4)%nat -> (j < 4)%nat -> i <> j ->
     Np.get two_blocks i j < 95 # 100) /\
  length (Nx.connected_components (build_graph two_blocks (95 # 100))) = 4%nat.
Proof.
  assert (H : forall i j, (i < Np.shape0 two_blocks)%nat ->
            (j < Np.shape0 two_blocks)%nat -> i <> j ->
            Np.get two_blocks i j < 95 # 100).
  { intros [|[|[|[|i]]]] [|[|[|[|j]]]] Hi Hj Hne;
      cbn in Hi, Hj; try lia; try congruence; reflexivity. }
  split; [exact H|].
  apply (build_graph_edges two_blocks (95 # 100)). exact H.
Defined.

(** * Further properties of the code *)

(** ** Undirected graphs *)

Lemma fold_add_edge_symmetric (A : Matrix) (es : list (nat * nat)) (G : Graph) :
  (forall a b, (a, b) ∈ es -> a ∈ Nx.nodes G /\ b ∈ Nx.nodes G) ->
  (forall u v, Nx.weight G u v = Nx.weight G v u) ->
  forall u v,
    Nx.weight (foldl (fun G '(a, b) => Nx.add_edge a b (Np.get A a b) G) G es) u v =
    Nx.weight (foldl (fun G '(a, b) => Nx.add_edge a b (Np.get A a b) G) G es) v u.
Proof.
  revert G. induction es as [|[a b] es IH]; intros G Hes Hsym u v.
  - apply Hsym.
  - cbn [foldl]. destruct (Hes a b) as [Ha Hb]; [left|].
    apply IH.
    + intros a' b' Hin. rewrite nodes_add_edge by assumption. apply Hes. right. exact Hin.
    + intros x y. rewrite !weight_add_edge by assumption.
      destruct (decide ((a = x /\ b = y) \/ (a = y /\ b = x))) as [H|H].
      * rewrite decide_True by tauto. reflexivity.
      * rewrite decide_False by tauto. apply Hsym.
Qed.

Lemma from_numpy_array_symmetric (A : Matrix) (u v : nat) :
  Nx.weight (Nx.from_numpy_array A) u v = Nx.weight (Nx.from_numpy_array A) v u.
Proof.
  unfold Nx.from_numpy_array.
  destruct (add_nodes_from_seq (Np.shape0 A) 0 Nx.empty_graph) as [Hn0 Hw0];
    [reflexivity|intros; reflexivity|].
  cbn [Nat.add] in Hn0.
  apply fold_add_edge_symmetric.
  - intros a b Hin. apply elem_of_nonzero in Hin. rewrite Hn0.
    rewrite !list_elem_of_In, !in_seq. lia.
  - intros x y. rewrite !Hw0. reflexivity.
Qed.

Lemma rtc_symmetric_rel {A : Type} (R : relation A) (x y : A) :
  (forall a b, R a b -> R b a) -> rtc R x y -> rtc R y x.
Proof.
  intros Hsym Hr. induction Hr as [|x y z Hxy Hyz IH]; [reflexivity|].
  eapply rtc_r; [exact IH|apply Hsym, Hxy].
Qed.

Lemma closed_rtc (G : Graph) (S : gset nat) (x y : nat) :
  closed G S -> x ∈ S -> rtc (Nx.has_edge G) x y -> y ∈ S.
Proof.
  intros HC Hx Hr. induction Hr as [|x y z Hxy Hyz IH]; [exact Hx|].
  apply IH. apply (HC x Hx), elem_of_neighbors, Hxy.
Qed.

Lemma plain_bfs_nodes (G : Graph) (s : nat) :
  well_formed G -> s ∈ Nx.nodes G -> Nx.plain_bfs G s ⊆ node_set G.
Proof.
  intros [Hnd Hwf] Hs. apply plain_bfs_least.
  - intros x _. apply Hwf.
  - apply elem_of_list_to_set, Hs.
Qed.

(** ** Components partition the nodes *)

Lemma total_size_snoc (comps : list (gset nat)) (c : gset nat) :
  total_size (comps ++ [c]) = (total_size comps + size c)%nat.
Proof.
  unfold total_size. induction comps as [|c0 comps IH]; cbn; [lia|].
  cbn in IH. rewrite IH. lia.
Qed.

Lemma cc_fold_partition (G : Graph) :
  well_formed G ->
  (forall u v, Nx.has_edge G u v -> Nx.has_edge G v u) ->
  forall (l : list nat) (seen : gset nat) (comps : list (gset nat)),
    (forall v, v ∈ l -> v ∈ Nx.nodes G) ->
    closed G seen ->
    total_size comps = size seen ->
    (forall c, c ∈ comps -> c ⊆ seen) ->
    (forall i j c1 c2, comps !! i = Some c1 -> comps !! j = Some c2 ->
       i <> j -> c1 ## c2) ->
    let st := foldl (Nx.cc_step G) (seen, comps) l in
    closed G (fst st) /\
    total_size (snd st) = size (fst st) /\
    (forall c, c ∈ snd st -> c ⊆ fst st) /\
    (forall i j c1 c2, snd st !! i = Some c1 -> snd st !! j = Some c2 ->
       i <> j -> c1 ## c2).
Proof.
  intros Hwf Hsym l.
  induction l as [|v l IH]; intros seen comps Hl Hc Hsz Hsub Hdis; cbn zeta.
  - cbn. auto.
  - assert (Hl' : forall v', v' ∈ l -> v' ∈ Nx.nodes G)
      by (intros v' Hv'; apply Hl; right; exact Hv').
    assert (Hv : v ∈ Nx.nodes G) by (apply Hl; left).
    cbn [foldl]. destruct (decide (v ∈ seen)) as [Hin|Hin].
    + replace (Nx.cc_step G (seen, comps) v) with (seen, comps)
        by (unfold Nx.cc_step; rewrite decide_True by exact Hin; reflexivity).
      apply IH; assumption.
    + replace (Nx.cc_step G (seen, comps) v)
        with (seen ∪ Nx.plain_bfs G v, comps ++ [Nx.plain_bfs G v])
        by (unfold Nx.cc_step; rewrite decide_False by exact Hin; reflexivity).
      assert (Hdisj : seen ## Nx.plain_bfs G v).
      { intros x Hx1 Hx2. apply Hin.
        apply (closed_rtc G seen x v Hc Hx1).
        apply rtc_symmetric_rel; [exact Hsym|].
        apply plain_bfs_reachable; assumption. }
      apply IH; try assumption.
      * apply closed_union; [exact Hc|]. apply plain_bfs_closed; assumption.
      * rewrite total_size_snoc, Hsz, size_union by exact Hdisj. reflexivity.
      * intros c Hcin. apply elem_of_app in Hcin. destruct Hcin as [Hcin|Hcin].
        -- specialize (Hsub c Hcin). set_solver.
        -- apply list_elem_of_singleton in Hcin. subst c. set_solver.
      * intros i j c1 c2 Hi Hj Hij.
        apply lookup_app_Some in Hi. apply lookup_app_Some in Hj.
        destruct Hi as [Hi|[Hile Hi]], Hj as [Hj|[Hjle Hj]].
        -- eapply Hdis; eassumption.
        -- apply list_lookup_singleton_Some in Hj. destruct Hj as [_ <-].
           assert (c1 ⊆ seen) by (apply Hsub; eapply list_elem_of_lookup_2; exact Hi).
           set_solver.
        -- apply list_lookup_singleton_Some in Hi. destruct Hi as [_ <-].
           assert (c2 ⊆ seen) by (apply Hsub; eapply list_elem_of_lookup_2; exact Hj).
           set_solver.
        -- apply list_lookup_singleton_Some in Hi, Hj. lia.
Qed.

Lemma connected_components_bfs (G : Graph) (c : gset nat) :
  c ∈ Nx.connected_components G ->
  exists v, v ∈ Nx.nodes G /\ c = Nx.plain_bfs G v.
Proof.
  unfold Nx.connected_components.
  destruct (cc_fold_cover G (Nx.nodes G) ∅ []) as (_ & H2 & _).
  - auto.
  - intros x. split; [set_solver|]. intros (c' & Hc & _).
    apply elem_of_nil in Hc. contradiction.
  - intros c' Hc. apply elem_of_nil in Hc. contradiction.
  - apply H2.
Qed.

(** The components of an undirected graph are pairwise disjoint, cover
    the nodes, and their sizes add up to the number of nodes. *)
Lemma connected_components_partition (G : Graph) :
  well_formed G ->
  (forall u v, Nx.has_edge G u v -> Nx.has_edge G v u) ->
  total_size (Nx.connected_components G) = Nx.number_of_nodes G /\
  (forall i j c1 c2,
     Nx.connected_components G !! i = Some c1 ->
     Nx.connected_components G !! j = Some c2 -> i <> j -> c1 ## c2).
Proof.
  intros Hwf Hsym.
  destruct (cc_fold_partition G Hwf Hsym (Nx.nodes G) ∅ []) as (_ & Hsz & _ & Hdis).
  - auto.
  - intros x Hx. set_solver.
  - reflexivity.
  - intros c Hc. apply elem_of_nil in Hc. contradiction.
  - intros i j c1 c2 Hi. rewrite lookup_nil in Hi. discriminate.
  - split; [|exact Hdis].
    unfold Nx.connected_components. rewrite Hsz.
    destruct (cc_fold_cover G (Nx.nodes G) ∅ []) as (H1 & H2 & H3 & _).
    + auto.
    + intros x. split; [set_solver|]. intros (c' & Hc & _).
      apply elem_of_nil in Hc. contradiction.
    + intros c' Hc. apply elem_of_nil in Hc. contradiction.
    + assert (Heq : (foldl (Nx.cc_step G) (∅, []) (Nx.nodes G)).1 = node_set G).
      { apply set_eq. intros x. split.
        - intros Hx. apply H1 in Hx. destruct Hx as (c & Hc & Hx).
          destruct (H2 c Hc) as (v & Hv & ->).
          apply (plain_bfs_nodes G v Hwf Hv), Hx.
        - intros Hx. apply H3. apply elem_of_list_to_set in Hx. exact Hx. }
      rewrite Heq. unfold node_set, Nx.number_of_nodes.
      apply size_list_to_set, Hwf.
Qed.

(** Arithmetic of a list of positive sizes. *)
Lemma sizes_bounds (l : list nat) :
  Forall (fun s => (1 <= s)%nat) l ->
  let total := foldr Nat.add 0%nat l in
  let big := foldr Nat.max 0%nat l in
  (length l <= total)%nat /\ (big <= total)%nat /\
  (total <= length l * big)%nat /\ (length l + big <= total + 1 \/ l = [])%nat /\
  Forall (fun s => (s <= big)%nat) l.
Proof.
  induction 1 as [|s l Hs Hl IH]; cbn zeta.
  - cbn. repeat split; auto; lia.
  - cbn zeta in IH. destruct IH as (H1 & H2 & H3 & H4 & H5).
    cbn [foldr length].
    set (total := foldr Nat.add 0%nat l) in *.
    set (big := foldr Nat.max 0%nat l) in *.
    split; [lia|]. split; [lia|]. split; [nia|]. split.
    + left. destruct H4 as [H4| ->]; [lia|]. cbn in *. lia.
    + constructor; [lia|]. eapply Forall_impl; [exact H5|]. cbn. lia.
Qed.

Lemma giant_size_spec (comps : list (gset nat)) (c : gset nat) :
  c ∈ comps -> (size c <= giant_size comps)%nat.
Proof.
  unfold giant_size. induction comps as [|c0 comps IH]; intros Hin.
  - apply elem_of_nil in Hin. contradiction.
  - cbn. apply elem_of_cons in Hin. destruct Hin as [->|Hin]; [lia|].
    specialize (IH Hin). lia.
Qed.

Lemma giant_size_le (l1 l2 : list (gset nat)) :
  (forall c, c ∈ l2 -> exists c1, c1 ∈ l1 /\ (size c <= size c1)%nat) ->
  (giant_size l2 <= giant_size l1)%nat.
Proof.
  intros H. induction l2 as [|c l2 IH]; [unfold giant_size; cbn; lia|].
  unfold giant_size in *. cbn [map foldr].
  destruct (H c) as (c1 & Hc1 & Hle); [left|].
  pose proof (giant_size_spec l1 c1 Hc1) as Hg. unfold giant_size in Hg.
  assert (IH' : (foldr Nat.max 0 (map size l2) <= foldr Nat.max 0 (map size l1))%nat).
  { apply IH. intros c' Hc'. apply H. right. exact Hc'. }
  lia.
Qed.

(** With fewer edges every component lies inside an old one, so the
    largest component cannot grow. *)
Lemma giant_size_mono (G1 G2 : Graph) :
  well_formed G1 -> Nx.nodes G1 = Nx.nodes G2 ->
  (forall x, Nx.neighbors G2 x ⊆ Nx.neighbors G1 x) ->
  (giant_size (Nx.connected_components G2) <=
   giant_size (Nx.connected_components G1))%nat.
Proof.
  intros Hwf Hn Hsub. apply giant_size_le. intros c2 Hc2.
  apply connected_components_bfs in Hc2. destruct Hc2 as (v & Hv & ->).
  rewrite <- Hn in Hv.
  destruct (connected_components_cover G1 Hwf) as [Hcov _].
  destruct (Hcov v Hv) as (c1 & Hc1 & Hvc1).
  exists c1. split; [exact Hc1|]. apply subseteq_size.
  apply plain_bfs_least; [|exact Hvc1].
  apply (closed_fewer_edges G1 G2); [exact Hsub|].
  apply connected_components_bfs in Hc1. destruct Hc1 as (v' & Hv' & ->).
  apply plain_bfs_closed; assumption.
Qed.

Lemma build_graph_symmetric (M : Matrix) (epsilon : Q) (u v : nat) :
  Nx.has_edge (build_graph M epsilon) u v -> Nx.has_edge (build_graph M epsilon) v u.
Proof.
  unfold Nx.has_edge, build_graph. rewrite from_numpy_array_symmetric. auto.
Qed.

Lemma component_sizes_positive (G : Graph) :
  Forall (fun s => (1 <= s)%nat) (map size (Nx.connected_components G)).
Proof.
  apply Forall_forall. intros s Hs. apply list_elem_of_fmap in Hs.
  destruct Hs as (c & -> & Hc).
  apply connected_components_bfs in Hc. destruct Hc as (v & _ & ->).
  pose proof (plain_bfs_source G v) as Hv.
  assert (Hsub : ({[v]} : gset nat) ⊆ Nx.plain_bfs G v) by set_solver.
  apply subseteq_size in Hsub. rewrite size_singleton in Hsub. exact Hsub.
Qed.

(** ** The thresholded graph: direction, components and counts *)

(** X1.  The graph [build_graph] returns is undirected: an edge carries
    the same weight in both directions, and [v] is a neighbour of [u]
    exactly when [u] is a neighbour of [v], whether or not the matrix
    is symmetric. *)
Theorem build_graph_undirected (M : Matrix) (epsilon : Q) (u v : nat) :
  Nx.weight (build_graph M epsilon) u v = Nx.weight (build_graph M epsilon) v u /\
  (v ∈ Nx.neighbors (build_graph M epsilon) u <->
   u ∈ Nx.neighbors (build_graph M epsilon) v).
Proof.
  split; [apply from_numpy_array_symmetric|].
  rewrite !elem_of_neighbors. split; apply build_graph_symmetric.
Qed.

Lemma build_graph_total_size (M : Matrix) (epsilon : Q) :
  total_size (Nx.connected_components (build_graph M epsilon)) = Np.shape0 M.
Proof.
  destruct (connected_components_partition (build_graph M epsilon)) as [Hsz _].
  - apply build_graph_well_formed.
  - apply build_graph_symmetric.
  - rewrite Hsz. unfold Nx.number_of_nodes.
    rewrite (proj1 (build_graph_spec M epsilon 0 0)), length_seq. reflexivity.
Qed.

Lemma build_graph_component_bounds (M : Matrix) (epsilon : Q) :
  (1 <= Np.shape0 M)%nat ->
  let comps := Nx.connected_components (build_graph M epsilon) in
  (1 <= length comps <= Np.shape0 M)%nat /\
  (1 <= giant_size comps <= Np.shape0 M)%nat /\
  (Np.shape0 M <= length comps * giant_size comps)%nat /\
  (length comps + giant_size comps <= Np.shape0 M + 1)%nat.
Proof.
  intros HN. cbn zeta.
  pose proof (build_graph_total_size M epsilon) as Htot.
  pose proof (sizes_bounds _ (component_sizes_positive (build_graph M epsilon)))
    as (H1 & H2 & H3 & H4 & _).
  cbn zeta in H1, H2, H3, H4. unfold total_size in Htot.
  rewrite Htot, length_map in *. fold (giant_size (Nx.connected_components
    (build_graph M epsilon))) in *.
  destruct H4 as [H4|H4].
  - nia.
  - rewrite H4 in Htot. cbn in Htot. lia.
Qed.

Lemma build_graph_nodes (M : Matrix) (epsilon : Q) (v : nat) :
  v ∈ Nx.nodes (build_graph M epsilon) <-> (v < Np.shape0 M)%nat.
Proof.
  rewrite (proj1 (build_graph_spec M epsilon 0 0)), list_elem_of_In, in_seq. lia.
Qed.

Lemma build_graph_components_parts (M : Matrix) (epsilon : Q) :
  let G := build_graph M epsilon in
  let comps := Nx.connected_components G in
  (forall i j c1 c2, comps !! i = Some c1 -> comps !! j = Some c2 ->
     i <> j -> c1 ## c2) /\
  (forall v, (v < Np.shape0 M)%nat -> exists c, c ∈ comps /\ v ∈ c) /\
  (forall c x y, c ∈ comps -> x ∈ c ->
     (y ∈ c <-> rtc (Nx.has_edge G) x y)) /\
  (forall c x, c ∈ comps -> x ∈ c -> (x < Np.shape0 M)%nat).
Proof.
  cbn zeta.
  pose proof (build_graph_well_formed M epsilon) as Hwf.
  destruct (connected_components_partition (build_graph M epsilon) Hwf
              (build_graph_symmetric M epsilon)) as [_ Hdis].
  destruct (connected_components_cover (build_graph M epsilon) Hwf) as [Hcov Hcls].
  split; [exact Hdis|]. split; [|split].
  - intros v Hv. apply Hcov, build_graph_nodes, Hv.
  - intros c x y Hc Hx. destruct (Hcls c Hc) as (v & _ & Hv).
    apply Hv in Hx. rewrite Hv. split.
    + intros Hy. etransitivity; [|exact Hy].
      apply rtc_symmetric_rel; [apply build_graph_symmetric|exact Hx].
    + intros Hxy. etransitivity; eassumption.
  - intros c x Hc Hx.
    destruct (connected_components_bfs _ c Hc) as (v & Hv & ->).
    apply (plain_bfs_nodes _ v Hwf Hv) in Hx.
    apply (build_graph_nodes M epsilon). unfold node_set in Hx.
    apply elem_of_list_to_set in Hx. exact Hx.
Qed.

(** X2.  The connected components of the thresholded graph partition
    the entities [0 .. N-1]: their sizes add up to [N], two of them
    never share a node, every entity lies in one, and a component
    holds exactly the nodes reachable along edges from any of its
    members. *)
Theorem build_graph_components_partition (M : Matrix) (epsilon : Q) :
  let G := build_graph M epsilon in
  let comps := Nx.connected_components G in
  total_size comps = Np.shape0 M /\
  (forall i j c1 c2, comps !! i = Some c1 -> comps !! j = Some c2 ->
     i <> j -> c1 ## c2) /\
  (forall v, (v < Np.shape0 M)%nat -> exists c, c ∈ comps /\ v ∈ c) /\
  (forall c x y, c ∈ comps -> x ∈ c ->
     (y ∈ c <-> rtc (Nx.has_edge G) x y)).
Proof.
  cbn zeta.
  destruct (build_graph_components_parts M epsilon) as (Hdis & Hcov & Hcls & _).
  split; [apply build_graph_total_size|].
  split; [exact Hdis|]. split; [exact Hcov|exact Hcls].
Qed.

(** X3.  The counts [compute_topology] reports for a thresholded graph
    on at least one entity are bounded by the number of entities [N]:
    there are between 1 and [N] components, the giant component has
    between 1 and [N] nodes, [N] is at most their product, and their sum
    is at most [N + 1]. *)
Theorem compute_topology_bounds (M : Matrix) (epsilon : Q) :
  (1 <= Np.shape0 M)%nat ->
  let topo := compute_topology (build_graph M epsilon) in
  let N := Np.shape0 M in
  (1 <= n_components topo <= N)%nat /\
  (1 <= topo_giant_size topo <= N)%nat /\
  (N <= n_components topo * topo_giant_size topo)%nat /\
  (n_components topo + topo_giant_size topo <= N + 1)%nat.
Proof.
  intros HN. cbn zeta. unfold compute_topology.
  cbn [n_components topo_giant_size].
  apply build_graph_component_bounds, HN.
Qed.

(** ** Ranges along the percolation sweep *)
Lemma percolation_curve_eps_c (eigvalsh : Matrix -> outcome (list Q)) (M : Matrix)
    (n_steps : Z) (r : PercolationResult) :
  percolation_curve eigvalsh M n_steps = Ok r ->
  exists k, (k + 1 < Z.to_nat n_steps)%nat /\
            epsilons r !! (k + 1)%nat = Some (eps_c r).
Proof.
  unfold percolation_curve.
  destruct (Np.linspace (1 # 100) (99 # 100) n_steps) as [eps|] eqn:Hlin;
    [|discriminate].
  apply linspace_lookup in Hlin. destruct Hlin as (_ & Hlen & _).
  cbn [mbind outcome_bind].
  destruct (decide (Np.shape0 M = 0%nat)) as [Hz|Hnz].
  - destruct eps as [|e eps].
    + cbn. discriminate.
    + rewrite for_each_sweep_empty by exact Hz. discriminate.
  - rewrite for_each_sweep by exact Hnz. cbn [mbind outcome_bind].
    cbn [n_clusters_list sw_giant_sizes sw_fiedler_values app].
    destruct (Np.argmax _) as [i|]; [|discriminate]. cbn [mbind outcome_bind].
    unfold Np.index. destruct (eps !! (i + 1)%nat) as [c|] eqn:Hc; [|discriminate].
    cbn [mbind outcome_bind]. intros [= <-]. cbn [epsilons eps_c].
    exists i. split; [|exact Hc]. apply lookup_lt_Some in Hc. lia.
Qed.

Lemma fraction_range (a b : nat) :
  (1 <= a <= b)%nat ->
  0 < inject_Z (Z.of_nat a) / inject_Z (Z.of_nat b) <= 1.
Proof.
  intros Hab.
  assert (Hb : 0 < inject_Z (Z.of_nat b))
    by (change 0 with (inject_Z 0); rewrite <- Zlt_Qlt; lia).
  split.
  - apply Qlt_shift_div_l; [exact Hb|]. rewrite Qmult_0_l.
    change 0 with (inject_Z 0). rewrite <- Zlt_Qlt. lia.
  - apply Qle_shift_div_r; [exact Hb|]. rewrite Qmult_1_l.
    rewrite <- Zle_Qle. lia.
Qed.

(** X4.  When [percolation_curve] returns, its four lists have the
    length of the sweep, every cluster count lies in [1, N], every
    giant fraction in (0, 1], every threshold in [0.01, 0.99], the
    critical threshold is above 0.01 and at most 0.99, and the
    threshold [main] derives from it for the dynamic simulation,
    [eps_c * 0.95], lies strictly between 0 and 1. *)
Theorem percolation_curve_ranges (eigvalsh : Matrix -> outcome (list Q))
    (M : Matrix) (n_steps : Z) (r : PercolationResult) :
  percolation_curve eigvalsh M n_steps = Ok r ->
  let n := Z.to_nat n_steps in
  let N := Np.shape0 M in
  (length (epsilons r) = n /\ length (n_clusters r) = n /\
   length (giant_sizes r) = n /\ length (fiedler_values r) = n) /\
  Forall (fun c => (1 <= c <= N)%nat) (n_clusters r) /\
  Forall (fun g => 0 < g <= 1) (giant_sizes r) /\
  Forall (fun e => 1 # 100 <= e <= 99 # 100) (epsilons r) /\
  (1 # 100 < eps_c r /\ eps_c r <= 99 # 100) /\
  0 < eps_dynamic r < 1.
Proof.
  intros Hr. cbn zeta.
  destruct (percolation_curve_ok _ _ _ _ Hr) as [Hsteps Hnz].
  destruct (percolation_curve_lists _ _ _ _ Hr) as (Hlin & Hcl & Hgs & Hfv).
  destruct (percolation_curve_eps_c _ _ _ _ Hr) as (k & Hk & Hc).
  pose proof (linspace_lookup _ _ Hlin) as (_ & Hlen & _).
  set (n := Z.to_nat n_steps) in *.
  assert (Hn : (2 <= n)%nat) by (unfold n; lia).
  assert (Heps : forall i e, epsilons r !! i = Some e ->
            1 # 100 <= e <= 99 # 100 /\ ((1 <= i)%nat -> 1 # 100 < e)).
  { intros i e Hi.
    destruct (linspace_range n_steps (epsilons r) i e Hlin Hn Hi) as (H1 & _ & H2).
    split; assumption. }
  assert (HcR : 1 # 100 < eps_c r /\ eps_c r <= 99 # 100).
  { destruct (Heps _ _ Hc) as [[_ Hle] Hlt]. split; [apply Hlt; lia|exact Hle]. }
  split; [|split; [|split; [|split; [|split]]]].
  - rewrite Hcl, Hgs, Hfv, !length_map. auto.
  - rewrite Hcl. apply Forall_forall. intros c Hc'.
    apply list_elem_of_fmap in Hc'. destruct Hc' as (e & -> & _).
    apply build_graph_component_bounds. lia.
  - rewrite Hgs. apply Forall_forall. intros g Hg.
    apply list_elem_of_fmap in Hg. destruct Hg as (e & -> & _).
    apply fraction_range.
    apply (build_graph_component_bounds M e). lia.
  - apply Forall_forall. intros e He. apply list_elem_of_lookup in He.
    destruct He as [i Hi]. apply (Heps i e Hi).
  - exact HcR.
  - unfold eps_dynamic. destruct HcR. split; lra.
Qed.

(** X5.  Along the sweep of [percolation_curve] the giant fraction never
    grows: a later (higher) threshold gives a giant component that is no
    larger. *)
Theorem percolation_giant_nonincreasing (eigvalsh : Matrix -> outcome (list Q))
    (M : Matrix) (n_steps : Z) (r : PercolationResult) :
  percolation_curve eigvalsh M n_steps = Ok r ->
  forall i j a b, (i <= j)%nat ->
    giant_sizes r !! i = Some a -> giant_sizes r !! j = Some b -> b <= a.
Proof.
  intros Hr i j a b Hij Ha Hb.
  destruct (percolation_curve_ok _ _ _ _ Hr) as [Hsteps Hnz].
  destruct (percolation_curve_lists _ _ _ _ Hr) as (Hlin & _ & Hgs & _).
  rewrite Hgs in Ha, Hb. change (map ?f ?l) with (f <$> l) in Ha, Hb.
  rewrite list_lookup_fmap in Ha, Hb.
  destruct (epsilons r !! i) as [ti|] eqn:Hi; [|discriminate].
  destruct (epsilons r !! j) as [tj|] eqn:Hj; [|discriminate].
  cbn in Ha, Hb. injection Ha as <-. injection Hb as <-.
  pose proof (linspace_mono n_steps (epsilons r) i j ti tj Hlin Hij Hi Hj) as Hle.
  assert (Hg : (giant_size (Nx.connected_components (build_graph M tj)) <=
                giant_size (Nx.connected_components (build_graph M ti)))%nat).
  { apply giant_size_mono.
    - apply build_graph_well_formed.
    - rewrite (proj1 (build_graph_spec M ti 0 0)), (proj1 (build_graph_spec M tj 0 0)).
      reflexivity.
    - intros u v Hv. apply elem_of_neighbors. apply elem_of_neighbors in Hv.
      apply (build_graph_fewer_edges M ti tj); assumption. }
  unfold Qdiv. apply Qmult_le_compat_r.
  - rewrite <- Zle_Qle. lia.
  - apply Qinv_le_0_compat. change 0 with (inject_Z 0). rewrite <- Zle_Qle. lia.
Qed.

(** ** Snapshots and history of the dynamic simulation *)
Lemma filter_seq_S (P : nat -> bool) (k : nat) :
  List.filter P (seq 0 (S k)) =
  List.filter P (seq 0 k) ++ (if P k then [k] else []).
Proof. rewrite seq_S, List.filter_app. cbn. destruct (P k); reflexivity. Qed.

Lemma filter_seq_none (P : nat -> bool) (a len : nat) :
  (forall t, (a <= t < a + len)%nat -> P t = false) ->
  List.filter P (seq a len) = [].
Proof.
  revert a. induction len as [|len IH]; intros a H; [reflexivity|].
  cbn [seq List.filter]. rewrite H by lia. apply IH. intros t Ht. apply H. lia.
Qed.

Section SnapshotFacts.

Variable gauss : Z -> nat -> Q.
Variables (M_base : Matrix) (n_steps : Z) (epsilon : Q) (rng : Generator).

Let n := Np.shape0 M_base.
Let state := dyn_iter gauss M_base n_steps epsilon rng.

Lemma dyn_iter_snapshots (k : nat) :
  map snap_time (ds_snapshots (state k)) =
    List.filter (snapshot_time n_steps) (seq 0 k) /\
  forall s, s ∈ ds_snapshots (state k) ->
    (snap_time s < k)%nat /\
    snap_M s = ds_M_t (state (S (snap_time s))) /\
    snap_G s = build_graph (snap_M s) epsilon /\
    snap_n_components s = length (Nx.connected_components (snap_G s)).
Proof.
  induction k as [|k [IHt IHs]].
  - split; [reflexivity|]. intros s Hs. apply elem_of_nil in Hs. contradiction.
  - assert (HS : state (S k) = dyn_body gauss n n_steps epsilon (state k) k)
      by apply dyn_iter_S.
    destruct (dyn_body_record gauss M_base n_steps epsilon (state k) k)
      as (_ & _ & _ & Hsn).
    fold n in Hsn. rewrite <- HS in Hsn.
    rewrite Hsn, filter_seq_S, map_app, IHt. split.
    + destruct (snapshot_time n_steps k); reflexivity.
    + intros s Hs. apply elem_of_app in Hs. destruct Hs as [Hs|Hs].
      * destruct (IHs s Hs) as (H1 & H2 & H3 & H4). repeat split; auto; lia.
      * destruct (snapshot_time n_steps k); [|apply elem_of_nil in Hs; contradiction].
        apply list_elem_of_singleton in Hs. subst s.
        cbn [snap_time snap_M snap_G snap_n_components].
        split; [lia|]. split; [reflexivity|]. split; reflexivity.
Qed.

(** The snapshots held when the loop ends. *)
Lemma dyn_run_snapshots :
  let times := map snap_time (ds_snapshots (state (Z.to_nat n_steps))) in
  times = List.filter (snapshot_time n_steps) (seq 0 (Z.to_nat n_steps)) /\
  (length (ds_snapshots (state (Z.to_nat n_steps))) <= 3)%nat /\
  ((1 <= n_steps)%Z ->
   head times = Some 0%nat /\ last times = Some (Z.to_nat n_steps - 1)%nat) /\
  ((3 <= n_steps)%Z ->
   times = [0; Z.to_nat (n_steps / 2); Z.to_nat n_steps - 1]%nat) /\
  (forall s, s ∈ ds_snapshots (state (Z.to_nat n_steps)) ->
     snap_G s = build_graph (snap_M s) epsilon /\
     snap_n_components s = length (Nx.connected_components (snap_G s)) /\
     ds_history (state (Z.to_nat n_steps)) !! snap_time s =
       Some (snap_n_components s)).
Proof.
  cbn zeta.
  destruct (dyn_iter_snapshots (Z.to_nat n_steps)) as [Ht Hs].
  set (k := Z.to_nat n_steps) in *.
  split; [exact Ht|]. split; [|split; [|split]].
  - rewrite <- (length_map snap_time), Ht.
    assert (Hsub : List.filter (snapshot_time n_steps) (seq 0 k)
                   ⊆+ [0; Z.to_nat (n_steps / 2); Z.to_nat (n_steps - 1)]%nat).
    { apply NoDup_submseteq;
        [apply NoDup_ListNoDup, List.NoDup_filter, NoDup_ListNoDup, NoDup_seq|].
      intros t Hin. apply list_elem_of_In, filter_In in Hin.
      destruct Hin as [_ HP]. unfold snapshot_time in HP.
      rewrite !elem_of_cons.
      destruct (Z.eqb_spec (Z.of_nat t) 0); [left; lia|].
      destruct (Z.eqb_spec (Z.of_nat t) (n_steps / 2)); [right; left; lia|].
      destruct (Z.eqb_spec (Z.of_nat t) (n_steps - 1)); [right; right; left; lia|].
      discriminate. }
    apply submseteq_length in Hsub. exact Hsub.
  - intros Hn. rewrite Ht. destruct k as [|k'] eqn:Hk; [lia|]. split.
    + reflexivity.
    + rewrite filter_seq_S.
      assert (HP : snapshot_time n_steps k' = true).
      { unfold snapshot_time.
        destruct (Z.eqb_spec (Z.of_nat k') (n_steps - 1)) as [_|Hne];
          [apply orb_true_r|lia]. }
      rewrite HP, last_snoc. f_equal. lia.
  - intros Hn. rewrite Ht.
    set (m := Z.to_nat (n_steps / 2)).
    assert (Hm : (1 <= m /\ m + 2 <= k)%nat).
    { unfold m, k. split.
      - assert (1 <= n_steps / 2)%Z by (apply Z.div_le_lower_bound; lia). lia.
      - assert (n_steps / 2 + 2 <= n_steps)%Z; [|lia].
        assert (2 * (n_steps / 2) <= n_steps)%Z by (apply Z.mul_div_le; lia).
        lia. }
    assert (Hmid : Z.of_nat m = (n_steps / 2)%Z).
    { unfold m. rewrite Z2Nat.id; [reflexivity|]. apply Z.div_pos; lia. }
    replace k with (1 + ((m - 1) + (1 + ((k - m - 2) + 1))))%nat by lia.
    rewrite !seq_app, !List.filter_app. cbn [seq].
    rewrite (filter_seq_none _ (0 + 1) (m - 1)), (filter_seq_none _ _ (k - m - 2)).
    + cbn [List.filter app].
      replace (snapshot_time n_steps 0) with true by reflexivity.
      replace (0 + 1 + (m - 1))%nat with m by lia.
      assert (HPm : snapshot_time n_steps m = true).
      { unfold snapshot_time. rewrite Hmid, Z.eqb_refl, orb_true_r. reflexivity. }
      rewrite HPm.
      assert (HPl : snapshot_time n_steps (m + 1 + (k - m - 2)) = true).
      { unfold snapshot_time.
        destruct (Z.eqb_spec (Z.of_nat (m + 1 + (k - m - 2))) (n_steps - 1));
          [apply orb_true_r|]. unfold k in *. lia. }
      rewrite HPl. cbn [app]. f_equal. f_equal. f_equal. unfold k. lia.
    + intros t Hrange. unfold snapshot_time.
      destruct (Z.eqb_spec (Z.of_nat t) 0); [lia|].
      destruct (Z.eqb_spec (Z.of_nat t) (n_steps / 2)); [lia|].
      destruct (Z.eqb_spec (Z.of_nat t) (n_steps - 1)); [unfold k in *; lia|].
      reflexivity.
    + intros t Hrange. unfold snapshot_time.
      destruct (Z.eqb_spec (Z.of_nat t) 0); [lia|].
      destruct (Z.eqb_spec (Z.of_nat t) (n_steps / 2)); [lia|].
      destruct (Z.eqb_spec (Z.of_nat t) (n_steps - 1)); [unfold k in *; lia|].
      reflexivity.
  - intros s Hin. destruct (Hs s Hin) as (Hlt & HM & HG & Hc).
    split; [exact HG|]. split; [exact Hc|].
    unfold state. rewrite dyn_iter_history by exact Hlt. fold state. rewrite Hc, HG, HM. reflexivity.
Qed.


End SnapshotFacts.

(** X6.  A run of [simulate_dynamic_graph] that returns has kept a
    snapshot at the steps 0, [n_steps // 2] and [n_steps - 1] and at no
    other, once per step: at most three, the first at step 0 and the
    last at the final step of a run with a step, exactly the three in
    that order from three steps on.  Each snapshot holds the graph of
    its own matrix at the threshold, the number of components of that
    graph, and that number is the entry of the history at the snapshot's
    time. *)
Theorem simulate_dynamic_graph_snapshots (gauss : Z -> nat -> Q)
    (M_base : Matrix) (n_steps : Z) (epsilon : Q) (seed : Z)
    (r : DynamicResult) :
  simulate_dynamic_graph gauss M_base n_steps epsilon seed = Ok r ->
  let times := map snap_time (snapshots r) in
  times = List.filter (snapshot_time n_steps) (seq 0 (Z.to_nat n_steps)) /\
  (length (snapshots r) <= 3)%nat /\
  ((1 <= n_steps)%Z ->
   head times = Some 0%nat /\ last times = Some (Z.to_nat n_steps - 1)%nat) /\
  ((3 <= n_steps)%Z ->
   times = [0; Z.to_nat (n_steps / 2); Z.to_nat n_steps - 1]%nat) /\
  (forall s, s ∈ snapshots r ->
     snap_G s = build_graph (snap_M s) epsilon /\
     snap_n_components s = length (Nx.connected_components (snap_G s)) /\
     n_components_history r !! snap_time s = Some (snap_n_components s)).
Proof.
  intros Hr. apply simulate_dynamic_graph_run in Hr.
  destruct Hr as (rng & _ & ->). cbn [snapshots n_components_history].
  unfold dyn_run. apply (dyn_run_snapshots gauss M_base n_steps epsilon rng).
Qed.


(** ** Friction on the matrix *)

Lemma tabulate_ext (n : nat) (f g : nat -> nat -> Q) :
  (forall i j, (i < n)%nat -> (j < n)%nat -> f i j = g i j) ->
  Np.tabulate n f = Np.tabulate n g.
Proof.
  intros H. unfold Np.tabulate. apply map_ext_in. intros i Hi.
  apply map_ext_in. intros j Hj. apply in_seq in Hi, Hj. apply H; lia.
Qed.

Lemma shape0_apply_friction (M : Matrix) (epsilon : Q) :
  Np.shape0 (apply_friction M epsilon) = Np.shape0 M.
Proof.
  unfold apply_friction. rewrite shape0_fill_diagonal.
  unfold Np.set_where_lt, Np.copy. apply shape0_tabulate.
Qed.

Lemma get_apply_friction (M : Matrix) (epsilon : Q) (i j : nat) :
  (i < Np.shape0 M)%nat -> (j < Np.shape0 M)%nat ->
  Np.get (apply_friction M epsilon) i j =
  if (i =? j)%nat then 1
  else if Qlt_le_dec (Np.get M i j) epsilon then 0 else Np.get M i j.
Proof.
  intros Hi Hj. unfold apply_friction, Np.copy.
  rewrite (get_fill_diagonal (Np.shape0 M));
    [|unfold Np.set_where_lt; apply shape0_tabulate|assumption..].
  unfold Np.set_where_lt. rewrite get_tabulate by assumption. reflexivity.
Qed.

(** X8.  [apply_friction] keeps the invariant of a coherence matrix
    (square, symmetric, unit diagonal, entries in [0, 1]); off the
    diagonal it keeps an entry that is at least [epsilon], the entry
    equal to [epsilon] included, and sets an entry below [epsilon] to
    zero. *)
Theorem apply_friction_invariant (M : Matrix) (epsilon : Q) (n : nat) :
  coherence_invariant n M ->
  coherence_invariant n (apply_friction M epsilon) /\
  forall i j, (i < n)%nat -> (j < n)%nat -> i <> j ->
    (epsilon <= Np.get M i j ->
     Np.get (apply_friction M epsilon) i j = Np.get M i j) /\
    (Np.get M i j < epsilon -> Np.get (apply_friction M epsilon) i j = 0).
Proof.
  intros ([Hlen Hrows] & Hsym & Hdiag & Hb).
  assert (Hn : Np.shape0 M = n) by exact Hlen.
  split; [split; [|split; [|split]]|].
  - unfold apply_friction, Np.fill_diagonal.
    replace (Np.shape0 (Np.set_where_lt (Np.copy M) epsilon 0)) with n
      by (unfold Np.set_where_lt, Np.copy; rewrite shape0_tabulate; auto).
    apply square_tabulate.
  - intros i j Hi Hj. rewrite !get_apply_friction by lia.
    rewrite (Nat.eqb_sym j i). destruct (i =? j)%nat; [reflexivity|].
    pose proof (Hsym i j Hi Hj) as Hs.
    destruct (Qlt_le_dec (Np.get M i j) epsilon),
      (Qlt_le_dec (Np.get M j i) epsilon); try reflexivity; try exact Hs; lra.
  - intros i Hi. rewrite get_apply_friction by lia. rewrite Nat.eqb_refl. reflexivity.
  - intros i j Hi Hj. rewrite get_apply_friction by lia.
    destruct (i =? j)%nat; [lra|].
    destruct (Qlt_le_dec (Np.get M i j) epsilon); [lra|apply Hb; assumption].
  - intros i j Hi Hj Hne. rewrite get_apply_friction by lia.
    destruct (Nat.eqb_spec i j); [contradiction|].
    destruct (Qlt_le_dec (Np.get M i j) epsilon); split; intros; (reflexivity || lra).
Qed.

(** X9.  Applying friction twice is applying it once at the larger of
    the two thresholds; in particular [apply_friction] is idempotent at
    a fixed threshold. *)
Theorem apply_friction_compose (M : Matrix) (e1 e2 : Q) :
  apply_friction (apply_friction M e1) e2 = apply_friction M (Qmax e1 e2) /\
  apply_friction (apply_friction M e1) e1 = apply_friction M e1.
Proof.
  assert (Hgen : forall e e' : Q,
    (forall x : Q, x < e' <-> x < e1 \/ x < e) ->
    apply_friction (apply_friction M e1) e = apply_friction M e').
  { intros e e' He'.
    unfold apply_friction at 1 3. unfold Np.fill_diagonal, Np.set_where_lt, Np.copy.
    rewrite !shape0_tabulate, shape0_apply_friction.
    apply tabulate_ext. intros i j Hi Hj.
    destruct (i =? j)%nat eqn:Eij; [reflexivity|].
    rewrite !get_tabulate by assumption.
    rewrite get_apply_friction by assumption. rewrite Eij.
    pose proof (He' (Np.get M i j)) as Hx.
    destruct (Qlt_le_dec (Np.get M i j) e1) as [H1|H1].
    - destruct (Qlt_le_dec 0 e); destruct (Qlt_le_dec (Np.get M i j) e');
        try reflexivity; exfalso; apply (Qlt_not_le _ _ (proj2 Hx (or_introl H1)));
        assumption.
    - destruct (Qlt_le_dec (Np.get M i j) e) as [H2|H2];
        destruct (Qlt_le_dec (Np.get M i j) e') as [H3|H3]; try reflexivity.
      + exfalso. apply (Qlt_not_le _ _ (proj2 Hx (or_intror H2))). exact H3.
      + exfalso. apply Hx in H3. destruct H3; lra. }
  split; apply Hgen.
  - intros x. rewrite Q.max_lt_iff. reflexivity.
  - intros x. tauto.
Qed.

(** ** Self-loops do not change the components *)

Lemma next_level_loops (G1 G2 : Graph) (seen level : gset nat) :
  (forall x y, x <> y -> (y ∈ Nx.neighbors G1 x <-> y ∈ Nx.neighbors G2 x)) ->
  level ⊆ seen ->
  Nx.next_level G1 seen level = Nx.next_level G2 seen level.
Proof.
  intros Hn Hl. apply set_eq. intros y. unfold Nx.next_level.
  rewrite !elem_of_difference, !elem_of_set_bind. split.
  - intros [(x & Hx & Hy) Hs]. split; [|exact Hs]. exists x. split; [exact Hx|].
    apply Hn; [|exact Hy]. intros ->. apply Hs, Hl, Hx.
  - intros [(x & Hx & Hy) Hs]. split; [|exact Hs]. exists x. split; [exact Hx|].
    apply Hn; [|exact Hy]. intros ->. apply Hs, Hl, Hx.
Qed.

Lemma bfs_loop_loops (G1 G2 : Graph) (fuel : nat) (seen level : gset nat) :
  (forall x y, x <> y -> (y ∈ Nx.neighbors G1 x <-> y ∈ Nx.neighbors G2 x)) ->
  level ⊆ seen ->
  Nx.bfs_loop G1 fuel seen level = Nx.bfs_loop G2 fuel seen level.
Proof.
  intros Hn. revert seen level. induction fuel as [|fuel IH]; intros seen level Hl.
  - reflexivity.
  - cbn. destruct (decide (level = ∅)); [reflexivity|].
    rewrite (next_level_loops G1 G2) by assumption.
    apply IH. set_solver.
Qed.

Lemma connected_components_loops (G1 G2 : Graph) :
  Nx.nodes G1 = Nx.nodes G2 ->
  (forall x y, x <> y -> (y ∈ Nx.neighbors G1 x <-> y ∈ Nx.neighbors G2 x)) ->
  Nx.connected_components G1 = Nx.connected_components G2.
Proof.
  intros Hnodes Hn.
  assert (Hstep : forall st v, Nx.cc_step G1 st v = Nx.cc_step G2 st v).
  { intros [seen comps] v. unfold Nx.cc_step.
    destruct (decide (v ∈ seen)); [reflexivity|].
    assert (Hb : Nx.plain_bfs G1 v = Nx.plain_bfs G2 v).
    { unfold Nx.plain_bfs, Nx.number_of_nodes. rewrite <- Hnodes.
      apply bfs_loop_loops; [exact Hn|reflexivity]. }
    rewrite Hb. reflexivity. }
  unfold Nx.connected_components. rewrite <- Hnodes. f_equal.
  generalize (∅ : gset nat, [] : list (gset nat)).
  generalize (Nx.nodes G1). intros l.
  induction l as [|v l IH]; intros st; [reflexivity|].
  cbn [foldl]. rewrite Hstep. apply IH.
Qed.

Lemma apply_friction_neighbors (M : Matrix) (epsilon : Q) (x y : nat) :
  x <> y ->
  y ∈ Nx.neighbors (Nx.from_numpy_array (apply_friction M epsilon)) x <->
  y ∈ Nx.neighbors (build_graph M epsilon) x.
Proof.
  intros Hne. rewrite !elem_of_neighbors.
  destruct (from_numpy_array_spec (apply_friction M epsilon) x y) as (_ & He & _).
  destruct (build_graph_spec M epsilon x y) as (_ & Hb & _).
  rewrite He, Hb, shape0_apply_friction. clear He Hb.
  assert (Hoff : forall i j, (i < Np.shape0 M)%nat -> (j < Np.shape0 M)%nat ->
            i <> j ->
            (~ Np.get (apply_friction M epsilon) i j == 0 <-> survives M epsilon i j)).
  { intros i j Hi Hj Hij. rewrite get_apply_friction by assumption.
    destruct (Nat.eqb_spec i j); [contradiction|]. unfold survives.
    destruct (Qlt_le_dec (Np.get M i j) epsilon) as [Hlt|Hle].
    - split; [intros H; exfalso; apply H; reflexivity|intros [? _]; lra].
    - tauto. }
  split.
  - intros (Hx & Hy & H). repeat (split; [assumption|]).
    rewrite !Hoff in H by auto. exact H.
  - intros (Hx & Hy & _ & H). repeat (split; [assumption|]).
    rewrite !Hoff by auto. exact H.
Qed.

Lemma friction_components (M : Matrix) (epsilon : Q) :
  Nx.connected_components (Nx.from_numpy_array (apply_friction M epsilon)) =
  Nx.connected_components (build_graph M epsilon).
Proof.
  apply connected_components_loops.
  - rewrite (proj1 (from_numpy_array_spec (apply_friction M epsilon) 0 0)).
    rewrite (proj1 (build_graph_spec M epsilon 0 0)), shape0_apply_friction.
    reflexivity.
  - intros x y Hne. apply apply_friction_neighbors, Hne.
Qed.

Lemma find_clusters_friction (M : Matrix) (epsilon : Q) :
  find_clusters (apply_friction M epsilon) =
  (length (Nx.connected_components (build_graph M epsilon)),
   map (Sp.label_of (Nx.connected_components (build_graph M epsilon)))
     (seq 0 (Np.shape0 M))).
Proof.
  unfold find_clusters, Sp.connected_components.
  rewrite friction_components, shape0_apply_friction. reflexivity.
Qed.

(** X10.  The two programs agree on the clusters: the components of the
    graph of [apply_friction M epsilon], whose diagonal of ones makes a
    self-loop at every node, are the components of [build_graph M
    epsilon], so [find_clusters] counts what [compute_topology]
    reports as [n_components]. *)
Theorem find_clusters_matches_build_graph (M : Matrix) (epsilon : Q) :
  Nx.connected_components (Nx.from_numpy_array (apply_friction M epsilon)) =
    Nx.connected_components (build_graph M epsilon) /\
  fst (find_clusters (apply_friction M epsilon)) =
    n_components (compute_topology (build_graph M epsilon)).
Proof.
  split; [apply friction_components|].
  rewrite find_clusters_friction. unfold compute_topology.
  cbn [fst n_components]. reflexivity.
Qed.

(** ** Cluster labels *)

Lemma label_of_spec (comps : list (gset nat)) (i : nat) (c : gset nat) :
  c ∈ comps -> i ∈ c ->
  exists c', comps !! Sp.label_of comps i = Some c' /\ i ∈ c'.
Proof.
  intros Hc Hi. unfold Sp.label_of.
  destruct (list_find_elem_of (fun c => i ∈ c) comps c Hc Hi) as [[k c'] Hf].
  rewrite Hf. cbn. apply list_find_Some in Hf. destruct Hf as (Hk & Hic & _).
  eauto.
Qed.

Lemma label_lookup (M : Matrix) (epsilon : Q) (i l : nat) :
  let comps := Nx.connected_components (build_graph M epsilon) in
  map (Sp.label_of comps) (seq 0 (Np.shape0 M)) !! i = Some l <->
  (i < Np.shape0 M)%nat /\ l = Sp.label_of comps i.
Proof.
  cbn zeta. change (map ?f ?x) with (f <$> x). rewrite list_lookup_fmap. split.
  - intros Hl.
    destruct (seq 0 (Np.shape0 M) !! i) as [i'|] eqn:Hi; [|discriminate].
    apply lookup_seq in Hi. destruct Hi as [-> Hi]. cbn in Hl. injection Hl as <-.
    split; [exact Hi|reflexivity].
  - intros [Hi ->]. rewrite lookup_seq_lt by exact Hi. reflexivity.
Qed.

(** The label of a node is the position of the one component that holds
    it. *)
Lemma label_of_component (M : Matrix) (epsilon : Q) (i k : nat) :
  let comps := Nx.connected_components (build_graph M epsilon) in
  (i < Np.shape0 M)%nat ->
  Sp.label_of comps i = k <-> exists c, comps !! k = Some c /\ i ∈ c.
Proof.
  cbn zeta. intros Hi.
  destruct (build_graph_components_parts M epsilon) as (Hdis & Hcov & _ & _).
  destruct (Hcov i Hi) as (c & Hc & Hic).
  destruct (label_of_spec _ i c Hc Hic) as (c' & Hc' & Hic').
  split.
  - intros <-. eauto.
  - intros (c2 & Hc2 & Hic2).
    destruct (decide (Sp.label_of (Nx.connected_components (build_graph M epsilon)) i = k))
      as [Heq|Hne]; [exact Heq|].
    exfalso. apply (Hdis _ _ c' c2 Hc' Hc2 Hne i); assumption.
Qed.

Lemma first_component (M : Matrix) (epsilon : Q) :
  (1 <= Np.shape0 M)%nat ->
  exists c0, Nx.connected_components (build_graph M epsilon) !! 0%nat = Some c0 /\
             0%nat ∈ c0.
Proof.
  intros HN. unfold Nx.connected_components.
  rewrite (proj1 (build_graph_spec M epsilon 0 0)).
  destruct (Np.shape0 M) as [|N']; [lia|]. cbn [seq foldl].
  unfold Nx.cc_step at 2. rewrite decide_False by set_solver.
  assert (Hkeep : forall l st c0, snd st !! 0%nat = Some c0 ->
            snd (foldl (Nx.cc_step (build_graph M epsilon)) st l) !! 0%nat = Some c0).
  { induction l as [|v l IH]; intros st c0 Hst; [exact Hst|].
    cbn [foldl]. apply IH. unfold Nx.cc_step. destruct st as [seen cs].
    destruct (decide (v ∈ seen)); [exact Hst|]. cbn [snd] in *.
    rewrite lookup_app_l; [exact Hst|]. apply lookup_lt_Some in Hst. exact Hst. }
  eexists. split; [apply Hkeep; reflexivity|]. apply plain_bfs_source.
Qed.

(** X11.  The labels [find_clusters] returns after [apply_friction]: one
    per entity, each below the number of clusters, each cluster number
    in use, two entities carrying the same label exactly when a path of
    edges of the thresholded graph joins them, and entity 0 labelled
    0. *)
Theorem find_clusters_labels (M : Matrix) (epsilon : Q) :
  let n_clusters := fst (find_clusters (apply_friction M epsilon)) in
  let labels := snd (find_clusters (apply_friction M epsilon)) in
  let N := Np.shape0 M in
  let G := build_graph M epsilon in
  length labels = N /\
  (forall i l, labels !! i = Some l -> (l < n_clusters)%nat) /\
  (forall k, (k < n_clusters)%nat -> exists i, labels !! i = Some k) /\
  (forall i j li lj, labels !! i = Some li -> labels !! j = Some lj ->
     (li = lj <-> rtc (Nx.has_edge G) i j)) /\
  ((1 <= N)%nat -> labels !! 0%nat = Some 0%nat).
Proof.
  cbn zeta. rewrite find_clusters_friction. cbn [fst snd].
  set (G := build_graph M epsilon).
  set (comps := Nx.connected_components G).
  destruct (build_graph_components_parts M epsilon) as (Hdis & Hcov & Hcls & Hin).
  fold G in Hdis, Hcov, Hcls, Hin. fold comps in Hdis, Hcov, Hcls, Hin.
  assert (Hlab : forall i l,
            map (Sp.label_of comps) (seq 0 (Np.shape0 M)) !! i = Some l ->
            (i < Np.shape0 M)%nat /\ exists c, comps !! l = Some c /\ i ∈ c).
  { intros i l Hl. apply label_lookup in Hl. destruct Hl as [Hi ->].
    split; [exact Hi|]. apply (label_of_component M epsilon i _ Hi). reflexivity. }
  split; [rewrite length_map, length_seq; reflexivity|].
  split; [|split; [|split]].
  - intros i l Hl. destruct (Hlab i l Hl) as (_ & c & Hc & _).
    apply lookup_lt_Some in Hc. exact Hc.
  - intros k Hk. destruct (lookup_lt_is_Some_2 comps k Hk) as [c Hc].
    pose proof (component_sizes_positive G) as Hpos. fold comps in Hpos.
    rewrite Forall_forall in Hpos.
    assert (Hsz : (1 <= size c)%nat).
    { apply Hpos, list_elem_of_In, in_map, list_elem_of_In.
      eapply list_elem_of_lookup_2. exact Hc. }
    destruct (set_choose_L c) as [x Hx];
      [intros ->; rewrite size_empty in Hsz; lia|].
    assert (HxN : (x < Np.shape0 M)%nat).
    { apply (Hin c x); [eapply list_elem_of_lookup_2; exact Hc|exact Hx]. }
    exists x. apply label_lookup. split; [exact HxN|]. symmetry.
    apply (label_of_component M epsilon x k HxN). eauto.
  - intros i j li lj Hi Hj.
    destruct (Hlab i li Hi) as (_ & ci & Hci & Hici).
    destruct (Hlab j lj Hj) as (_ & cj & Hcj & Hjcj).
    assert (Hcin : ci ∈ comps) by (eapply list_elem_of_lookup_2; exact Hci).
    split.
    + intros <-. rewrite Hci in Hcj. injection Hcj as <-.
      apply (Hcls ci i j Hcin Hici), Hjcj.
    + intros Hr. apply (Hcls ci i j Hcin Hici) in Hr.
      destruct (decide (li = lj)) as [Heq|Hne]; [exact Heq|].
      exfalso. apply (Hdis li lj ci cj Hci Hcj Hne j); assumption.
  - intros HN. apply label_lookup. split; [lia|]. symmetry.
    apply (label_of_component M epsilon 0%nat 0%nat); [lia|].
    apply first_component, HN.
Qed.

(** ** Local collapse *)

Lemma for_each_snoc {S X : Type} (body : S -> X -> outcome S) (xs : list X)
    (x : X) (st : S) :
  for_each body (xs ++ [x]) st = (st' ← for_each body xs st; body st' x).
Proof.
  revert st. induction xs as [|y xs IH]; intros st.
  - cbn. destruct (body st x); reflexivity.
  - cbn [app for_each]. destruct (body st y) as [st1|e]; cbn; [apply IH|reflexivity].
Qed.

Lemma Qltb_iff (x y : Q) : Qltb x y = true <-> x < y.
Proof.
  unfold Qltb. destruct (Qlt_le_dec x y); split; intros; auto; try discriminate; lra.
Qed.

Lemma collapse_body_spec (eigvalsh : Matrix -> outcome (list Q))
    (M_eff : Matrix) (labels : list nat) (results rs : list ClusterResult) (k : nat) :
  collapse_body eigvalsh M_eff labels results k = Ok rs ->
  exists r, rs = results ++ [r] /\ collapse_entry eigvalsh M_eff labels k r.
Proof.
  unfold collapse_body, collapse_entry.
  destruct (Nat.ltb_spec (length (where_eq labels k)) 2) as [Hlt|Hge].
  - intros [= <-]. eexists. split; [reflexivity|]. cbn.
    split; [reflexivity|]. split; [reflexivity|]. split; [|split; [auto|lia]].
    split; [intros _; reflexivity|reflexivity].
  - destruct (eigvalsh _) as [evs|] eqn:Hev; [|discriminate].
    cbn [mbind outcome_bind]. unfold item_last.
    destruct (last evs) as [lam|] eqn:Hlast; [|discriminate].
    cbn [mbind outcome_bind]. intros [= <-]. eexists. split; [reflexivity|]. cbn.
    split; [reflexivity|]. split; [reflexivity|]. split; [apply Qltb_iff|].
    split; [lia|]. intros _. exists evs. auto.
Qed.

Lemma local_collapse_entries (eigvalsh : Matrix -> outcome (list Q))
    (M_eff : Matrix) (labels : list nat) (n : nat) (rs : list ClusterResult) :
  local_collapse eigvalsh M_eff labels n = Ok rs ->
  length rs = n /\
  forall k r, rs !! k = Some r -> collapse_entry eigvalsh M_eff labels k r.
Proof.
  unfold local_collapse. revert rs. induction n as [|n IH]; intros rs.
  - cbn. intros [= <-]. split; [reflexivity|]. intros k r Hk. discriminate.
  - rewrite seq_S, for_each_snoc. cbn [Nat.add].
    destruct (for_each _ (seq 0 n) []) as [rs0|] eqn:H0; [|discriminate].
    cbn [mbind outcome_bind]. intros Hb.
    apply collapse_body_spec in Hb. destruct Hb as (r & -> & Hr).
    destruct (IH rs0 eq_refl) as [Hlen Hall].
    split; [rewrite length_app, Hlen; cbn; lia|].
    intros k r' Hk. apply lookup_app_Some in Hk. destruct Hk as [Hk|[Hge Hk]].
    + apply Hall, Hk.
    + apply list_lookup_singleton_Some in Hk. destruct Hk as [Hk <-].
      replace k with n by lia. exact Hr.
Qed.

(** Counting the nodes label by label counts every node once. *)
Lemma count_labels (g : nat -> nat) (n : nat) (l : list nat) :
  foldr Nat.add 0%nat
    (map (fun k => length (List.filter (fun i => (g i =? k)%nat) l)) (seq 0 n)) =
  length (List.filter (fun i => (g i <? n)%nat) l).
Proof.
  induction n as [|n IH].
  - cbn. induction l as [|i l IHl]; [reflexivity|exact IHl].
  - rewrite seq_S, map_app, foldr_app. cbn [map foldr Nat.add].
    assert (Hsnoc : forall (xs : list nat) (a : nat),
              foldr Nat.add a xs = (foldr Nat.add 0 xs + a)%nat).
    { induction xs as [|x xs IHx]; intros a; cbn; [lia|]. rewrite IHx. lia. }
    rewrite Hsnoc, IH, Nat.add_0_r. clear IH Hsnoc.
    induction l as [|i l IHl]; [reflexivity|]. cbn [List.filter].
    destruct (Nat.ltb_spec (g i) n), (Nat.eqb_spec (g i) n),
      (Nat.ltb_spec (g i) (S n)); cbn [length]; lia.
Qed.

Lemma nth_map_lt {A B : Type} (f : A -> B) (l : list A) (d : B) (d' : A) (i : nat) :
  (i < length l)%nat -> nth i (map f l) d = f (nth i l d').
Proof.
  intros Hi. rewrite (nth_indep _ d (f d')) by (rewrite length_map; exact Hi).
  apply map_nth.
Qed.

Lemma trace_unit_diagonal (M : Matrix) (idx : list nat) :
  (forall i, i ∈ idx -> Np.get M i i == 1) ->
  trace (ix_ M idx idx) == inject_Z (Z.of_nat (length idx)).
Proof.
  intros Hd. unfold trace, Np.shape0, ix_. rewrite length_map.
  assert (Hget : forall i, (i < length idx)%nat ->
            Np.get (map (fun i => map (fun j => Np.get M i j) idx) idx) i i =
            Np.get M (nth i idx 0%nat) (nth i idx 0%nat)).
  { intros i Hi. unfold Np.get.
    rewrite (nth_map_lt _ idx [] 0%nat) by exact Hi.
    rewrite (nth_map_lt _ idx 0 0%nat) by exact Hi.
    reflexivity. }
  assert (Hsum : forall k, (k <= length idx)%nat ->
            foldr Qplus 0
              (map (fun i => Np.get (map (fun i => map (fun j => Np.get M i j) idx) idx) i i)
                 (seq 0 k)) == inject_Z (Z.of_nat k)).
  { induction k as [|k IH]; intros Hk; [reflexivity|].
    rewrite seq_S, map_app, foldr_app. cbn [map foldr Nat.add].
    assert (Hsnoc : forall (xs : list Q) (a : Q),
              foldr Qplus a xs == foldr Qplus 0 xs + a).
    { induction xs as [|x xs IHx]; intros a; cbn; [ring|]. rewrite IHx. ring. }
    rewrite Hsnoc, IH by lia. rewrite Hget by lia.
    rewrite Hd by (apply list_elem_of_In, nth_In; lia).
    rewrite Nat2Z.inj_succ. unfold Z.succ. rewrite inject_Z_plus. ring. }
  apply Hsum. lia.
Qed.

Lemma where_eq_elem (labels : list nat) (k i : nat) :
  i ∈ where_eq labels k <-> (i < length labels)%nat /\ nth i labels 0%nat = k.
Proof.
  unfold where_eq. rewrite list_elem_of_In, filter_In, in_seq.
  destruct (Nat.eqb_spec (nth i labels 0%nat) k); split; intros; try tauto;
    intuition (try lia; try congruence).
Qed.

(** X12.  When [local_collapse] returns, it has one record per cluster
    number, in order: record [k] is cluster [k], its size is the number
    of entities labelled [k], it is marked collapsed exactly when its
    gamma exceeds 1/2, and a cluster of fewer than two entities (an
    unused label included) has gamma 1 and is collapsed.  When every
    label is below the number of clusters the sizes add up to the
    number of entities. *)
Theorem local_collapse_structure (eigvalsh : Matrix -> outcome (list Q))
    (M_eff : Matrix) (labels : list nat) (n_clusters : nat)
    (rs : list ClusterResult) :
  local_collapse eigvalsh M_eff labels n_clusters = Ok rs ->
  length rs = n_clusters /\
  (forall k r, rs !! k = Some r ->
     cr_cluster r = k /\
     cr_size r = length (where_eq labels k) /\
     (cr_collapsed r = true <-> 1 # 2 < cr_gamma r) /\
     ((cr_size r < 2)%nat -> cr_gamma r = 1 /\ cr_collapsed r = true)) /\
  ((forall l, l ∈ labels -> (l < n_clusters)%nat) ->
   foldr Nat.add 0%nat (map cr_size rs) = length labels).
Proof.
  intros Hrs. apply local_collapse_entries in Hrs. destruct Hrs as [Hlen Hall].
  split; [exact Hlen|]. split.
  - intros k r Hk. destruct (Hall k r Hk) as (H1 & H2 & H3 & H4 & _).
    cbn zeta in *. split; [exact H1|]. split; [exact H2|]. split; [exact H3|].
    intros Hs. rewrite H2 in Hs. destruct (H4 Hs) as [Hg _].
    split; [exact Hg|]. apply H3. rewrite Hg. reflexivity.
  - intros Hlab.
    assert (Hsz : map cr_size rs =
              map (fun k => length (where_eq labels k)) (seq 0 n_clusters)).
    { apply list_eq. intros k. change (map ?f ?l) with (f <$> l).
      rewrite !list_lookup_fmap.
      destruct (rs !! k) as [r|] eqn:Hk.
      - pose proof (lookup_lt_Some _ _ _ Hk) as Hlt. rewrite Hlen in Hlt.
        rewrite lookup_seq_lt by exact Hlt. cbn.
        destruct (Hall k r Hk) as (_ & H2 & _). cbn zeta in H2. rewrite H2. reflexivity.
      - apply lookup_ge_None in Hk. rewrite Hlen in Hk.
        rewrite lookup_seq_ge by exact Hk. reflexivity. }
    rewrite Hsz. unfold where_eq.
    rewrite (count_labels (fun i => nth i labels 0%nat) n_clusters).
    transitivity (length (seq 0 (length labels))); [|apply length_seq].
    f_equal. apply forallb_filter_id. apply forallb_forall. intros i Hi.
    apply in_seq in Hi. apply Nat.ltb_lt, Hlab, list_elem_of_In, nth_In. lia.
Qed.

(** X13.  On a matrix with unit diagonal, the gamma [local_collapse]
    records for a cluster of two or more entities is the last
    eigenvalue the solver returns for the cluster's submatrix divided
    by the cluster's size, the trace of that submatrix. *)
Theorem local_collapse_unit_diagonal (eigvalsh : Matrix -> outcome (list Q))
    (M_eff : Matrix) (labels : list nat) (n_clusters : nat)
    (rs : list ClusterResult) :
  local_collapse eigvalsh M_eff labels n_clusters = Ok rs ->
  (forall i, (i < length labels)%nat -> Np.get M_eff i i == 1) ->
  forall k r, rs !! k = Some r -> (2 <= cr_size r)%nat ->
    exists evs,
      eigvalsh (ix_ M_eff (where_eq labels k) (where_eq labels k)) = Ok evs /\
      last evs = Some (cr_dominant_eigenvalue r) /\
      cr_gamma r == cr_dominant_eigenvalue r / inject_Z (Z.of_nat (cr_size r)).
Proof.
  intros Hrs Hdiag k r Hk Hsize.
  apply local_collapse_entries in Hrs. destruct Hrs as [_ Hall].
  destruct (Hall k r Hk) as (_ & H2 & _ & _ & H5). cbn zeta in H2, H5.
  rewrite H2 in Hsize. destruct (H5 Hsize) as (evs & Hev & Hlast & Hg).
  exists evs. split; [exact Hev|]. split; [exact Hlast|].
  assert (Htr : trace (ix_ M_eff (where_eq labels k) (where_eq labels k)) ==
                inject_Z (Z.of_nat (length (where_eq labels k)))).
  { apply trace_unit_diagonal. intros i Hi. apply where_eq_elem in Hi.
    apply Hdiag. tauto. }
  rewrite Hg, H2.
  assert (Hpos : 0 < trace (ix_ M_eff (where_eq labels k) (where_eq labels k))).
  { rewrite Htr. change 0 with (inject_Z 0). rewrite <- Zlt_Qlt. lia. }
  rewrite (Qltb_true _ _ Hpos), Htr. reflexivity.
Qed.

(** ** The Laplacian of the thresholded graph *)

Lemma Qsum_nonneg (l : list Q) :
  Forall (fun x => 0 <= x) l -> 0 <= foldr Qplus 0 l.
Proof.
  induction 1 as [|x l Hx _ IH]; cbn; [lra|lra].
Qed.

(** A sum of non-negative terms is at least each of them. *)
Lemma Qsum_ge_term (l : list Q) (x : Q) :
  Forall (fun y => 0 <= y) l -> x ∈ l -> x <= foldr Qplus 0 l.
Proof.
  induction 1 as [|y l Hy Hl IH]; intros Hx.
  - apply elem_of_nil in Hx. contradiction.
  - cbn [foldr]. pose proof (Qsum_nonneg l Hl) as Hs.
    apply elem_of_cons in Hx. destruct Hx as [->|Hx]; [lra|].
    specialize (IH Hx). lra.
Qed.

Lemma adjacency_build_graph (M : Matrix) (epsilon : Q) (i j : nat) :
  (i < Np.shape0 M)%nat -> (j < Np.shape0 M)%nat ->
  Nx.adjacency (build_graph M epsilon) i j =
  default 0 (Nx.weight (build_graph M epsilon) i j).
Proof.
  intros Hi Hj. unfold Nx.adjacency.
  rewrite (proj1 (build_graph_spec M epsilon 0 0)).
  rewrite !lookup_seq_lt by assumption. reflexivity.
Qed.

Lemma build_graph_weight_range (M : Matrix) (epsilon : Q) (u v : nat) (w : Q) :
  Nx.weight (build_graph M epsilon) u v = Some w -> epsilon <= w /\ ~ w == 0.
Proof.
  intros Hw.
  destruct (proj2 (proj2 (build_graph_spec M epsilon u v)) w Hw)
    as [[-> [H1 H2]]|[-> [H1 H2]]]; split; assumption.
Qed.

Lemma build_graph_no_loop (M : Matrix) (epsilon : Q) (u : nat) :
  Nx.weight (build_graph M epsilon) u u = None.
Proof.
  destruct (Nx.weight (build_graph M epsilon) u u) as [w|] eqn:Hw; [|reflexivity].
  assert (He : Nx.has_edge (build_graph M epsilon) u u) by (unfold Nx.has_edge; eauto).
  apply (proj1 (proj2 (build_graph_spec M epsilon u u))) in He.
  destruct He as (_ & _ & Hne & _). congruence.
Qed.

Lemma get_laplacian (M : Matrix) (epsilon : Q) (i j : nat) :
  (i < Np.shape0 M)%nat -> (j < Np.shape0 M)%nat ->
  Np.get (Nx.laplacian_matrix (build_graph M epsilon)) i j =
  (if (i =? j)%nat
   then foldr Qplus 0 (map (Nx.adjacency (build_graph M epsilon) i)
                         (seq 0 (Np.shape0 M)))
   else 0) - Nx.adjacency (build_graph M epsilon) i j.
Proof.
  intros Hi Hj. unfold Nx.laplacian_matrix, Nx.number_of_nodes.
  rewrite (proj1 (build_graph_spec M epsilon 0 0)), length_seq.
  rewrite get_tabulate by assumption. reflexivity.
Qed.

(** X14.  The Laplacian of a graph built at a non-negative threshold is
    square and symmetric; off the diagonal its entry is minus the weight
    of the edge, 0 where there is none, hence never positive; on the
    diagonal it is at least as large as the absolute value of every
    other entry of its row, hence never negative. *)
Theorem build_graph_laplacian (M : Matrix) (epsilon : Q) :
  0 <= epsilon ->
  let n := Np.shape0 M in
  let G := build_graph M epsilon in
  let L := Nx.laplacian_matrix G in
  Np.square n L /\ symmetric n L /\
  (forall i j, (i < n)%nat -> (j < n)%nat -> i <> j ->
     Np.get L i j == - default 0 (Nx.weight G i j) /\ Np.get L i j <= 0) /\
  (forall i, (i < n)%nat -> 0 <= Np.get L i i) /\
  (forall i j, (i < n)%nat -> (j < n)%nat -> i <> j ->
     - Np.get L i j <= Np.get L i i).
Proof.
  intros Heps. cbn zeta.
  set (G := build_graph M epsilon). set (n := Np.shape0 M).
  assert (Hnn : Nx.number_of_nodes G = n).
  { unfold Nx.number_of_nodes, G.
    rewrite (proj1 (build_graph_spec M epsilon 0 0)), length_seq. reflexivity. }
  assert (Hadj_nonneg : forall i j, (i < n)%nat -> (j < n)%nat ->
            0 <= Nx.adjacency G i j).
  { intros i j Hi Hj. unfold G. rewrite adjacency_build_graph by assumption.
    destruct (Nx.weight (build_graph M epsilon) i j) as [w|] eqn:Hw; cbn; [|lra].
    apply build_graph_weight_range in Hw. lra. }
  assert (Hrow_nonneg : forall i, (i < n)%nat ->
            Forall (fun y => 0 <= y) (map (Nx.adjacency G i) (seq 0 n))).
  { intros i Hi. apply Forall_forall. intros x Hx.
    apply list_elem_of_In, in_map_iff in Hx. destruct Hx as (j & <- & Hj).
    apply in_seq in Hj. apply Hadj_nonneg; lia. }
  assert (Hdiag : forall i, (i < n)%nat ->
            Np.get (Nx.laplacian_matrix G) i i ==
            foldr Qplus 0 (map (Nx.adjacency G i) (seq 0 n))).
  { intros i Hi. unfold G. rewrite get_laplacian by assumption.
    rewrite Nat.eqb_refl. rewrite (adjacency_build_graph M epsilon i i) by assumption.
    rewrite build_graph_no_loop. cbn [default]. fold G. fold n.
    unfold Qminus. rewrite Qplus_0_r. reflexivity. }
  assert (Hoff : forall i j, (i < n)%nat -> (j < n)%nat -> i <> j ->
            Np.get (Nx.laplacian_matrix G) i j == - Nx.adjacency G i j).
  { intros i j Hi Hj Hne. unfold G. rewrite get_laplacian by assumption.
    rewrite (proj2 (Nat.eqb_neq i j)) by exact Hne. fold G. ring. }
  split; [|split; [|split; [|split]]].
  - unfold Nx.laplacian_matrix. rewrite Hnn. apply square_tabulate.
  - intros i j Hi Hj. unfold G. rewrite !get_laplacian by assumption.
    rewrite !adjacency_build_graph by assumption.
    unfold build_graph at 2 4. rewrite (from_numpy_array_symmetric _ i j).
    destruct (Nat.eqb_spec i j) as [->|Hne].
    + rewrite Nat.eqb_refl. reflexivity.
    + rewrite (proj2 (Nat.eqb_neq j i)) by congruence. reflexivity.
  - intros i j Hi Hj Hne. rewrite (Hoff i j Hi Hj Hne).
    pose proof (Hadj_nonneg i j Hi Hj) as Hge.
    unfold G in *. rewrite adjacency_build_graph in * by assumption.
    split; [reflexivity|lra].
  - intros i Hi. rewrite (Hdiag i Hi). apply Qsum_nonneg, Hrow_nonneg, Hi.
  - intros i j Hi Hj Hne. rewrite (Hoff i j Hi Hj Hne), (Hdiag i Hi).
    rewrite Qopp_involutive. apply Qsum_ge_term; [apply Hrow_nonneg, Hi|].
    apply list_elem_of_In, in_map, in_seq. lia.
Qed.

(** ** The small-world verdict *)

Lemma max_by_len_elem (c0 : gset nat) (cs : list (gset nat)) :
  max_by_len c0 cs ∈ c0 :: cs.
Proof.
  revert c0. induction cs as [|c cs IH]; intros c0; cbn [max_by_len].
  - left.
  - destruct (size c0 <? size c)%nat.
    + right. apply IH.
    + specialize (IH c0). apply elem_of_cons in IH. destruct IH as [->|IH].
      * left.
      * right. right. exact IH.
Qed.

(** X15.  The dictionary of [check_small_world] always holds a number
    under ["sigma"] and a truth value under ["is_small_world"], and the
    latter is true exactly when the former exceeds 1.  It never holds
    ["avg_degree"], it holds ["C_ratio"] exactly when it holds
    ["L_ratio"], and a positive verdict implies a graph with an edge, at
    least four nodes and a component of at least four nodes. *)
Theorem check_small_world_verdict (average_clustering : Graph -> Q)
    (average_shortest_path_length : Graph -> outcome Q) (log : Q -> Q)
    (G : Graph) (n_nodes : Z) :
  let r := check_small_world average_clustering average_shortest_path_length
             log G n_nodes in
  r !! "avg_degree" = None /\
  (is_Some (r !! "C_ratio") <-> is_Some (r !! "L_ratio")) /\
  exists sigma b,
    r !! "sigma" = Some (PyNum sigma) /\
    r !! "is_small_world" = Some (PyBool b) /\
    (b = true <-> 1 < sigma) /\
    (b = true ->
     Nx.number_of_edges G <> 0%nat /\ (4 <= Nx.number_of_nodes G)%nat /\
     is_Some (r !! "C_ratio") /\
     exists c, c ∈ Nx.connected_components G /\ (4 <= size c)%nat).
Proof.
  cbn zeta. unfold check_small_world.
  assert (Hbase : forall r : gmap string pyval,
            r = <["sigma" := PyNum 0]> (<["is_small_world" := PyBool false]> ∅) ->
            r !! "avg_degree" = None /\
            (is_Some (r !! "C_ratio") <-> is_Some (r !! "L_ratio")) /\
            exists sigma b,
              r !! "sigma" = Some (PyNum sigma) /\
              r !! "is_small_world" = Some (PyBool b) /\
              (b = true <-> 1 < sigma) /\
              (b = true ->
               Nx.number_of_edges G <> 0%nat /\ (4 <= Nx.number_of_nodes G)%nat /\
               is_Some (r !! "C_ratio") /\
               exists c, c ∈ Nx.connected_components G /\ (4 <= size c)%nat)).
  { intros r ->. split; [reflexivity|]. split.
    - split; intros [x Hx]; discriminate Hx.
    - exists 0, false. split; [reflexivity|]. split; [reflexivity|].
      split; [|discriminate]. split; [discriminate|]. intros H. lra. }
  destruct (Nat.eqb_spec (Nx.number_of_edges G) 0) as [He|He];
    [apply Hbase; reflexivity|].
  destruct (Nat.ltb_spec (Nx.number_of_nodes G) 4) as [Hn|Hn];
    [apply Hbase; reflexivity|].
  cbn [orb].
  destruct (Nat.ltb_spec (Nx.number_of_nodes G) 2) as [Hn2|Hn2]; [lia|].
  destruct (Nx.connected_components G) as [|c0 cs] eqn:Hcc;
    [apply Hbase; reflexivity|].
  destruct (Nat.ltb_spec (size (max_by_len c0 cs)) 4) as [Hg|Hg];
    [apply Hbase; reflexivity|].
  destruct (average_shortest_path_length _) as [L_actual|e];
    [|apply Hbase; reflexivity].
  match goal with
  | |- context [if ?c then _ else _] => destruct c eqn:Hc
  end.
  - split; [reflexivity|]. split.
    + split; intros _; eexists; reflexivity.
    + eexists _, _. split; [reflexivity|]. split; [reflexivity|].
      split; [apply Qltb_iff|]. intros _.
      split; [exact He|]. split; [exact Hn|]. split; [eexists; reflexivity|].
      exists (max_by_len c0 cs). split; [apply max_by_len_elem|exact Hg].
  - apply Hbase. apply map_eq. intros k.
    destruct (decide (k = "sigma")) as [->|Hk]; [reflexivity|].
    rewrite !lookup_insert_ne by congruence. reflexivity.
Qed.

(** ** Connectivity read off the component count *)

Lemma sizes_all_one (l : list nat) :
  Forall (fun s => (1 <= s)%nat) l ->
  foldr Nat.add 0%nat l = length l -> Forall (fun s => s = 1%nat) l.
Proof.
  induction 1 as [|s l Hs Hl IH]; intros Hsum; [constructor|].
  cbn in Hsum.
  assert (length l <= foldr Nat.add 0%nat l)%nat.
  { clear -Hl. induction Hl as [|s l Hs _ IH]; cbn; lia. }
  constructor; [lia|]. apply IH. lia.
Qed.

Lemma connected_one_component (M : Matrix) (epsilon : Q) :
  (1 <= Np.shape0 M)%nat ->
  (forall i j, (i < Np.shape0 M)%nat -> (j < Np.shape0 M)%nat ->
     rtc (Nx.has_edge (build_graph M epsilon)) i j) ->
  length (Nx.connected_components (build_graph M epsilon)) = 1%nat.
Proof.
  intros HN Hconn.
  destruct (build_graph_components_parts M epsilon) as (Hdis & Hcov & Hcls & Hin).
  pose proof (component_sizes_positive (build_graph M epsilon)) as Hpos.
  destruct (Nx.connected_components (build_graph M epsilon))
    as [|c1 [|c2 cs]] eqn:Hcomps; [|reflexivity|].
  - destruct (Hcov 0%nat HN) as (c & Hc & _). inversion Hc.
  - exfalso.
    assert (H1 : (1 <= size c1)%nat) by (inversion Hpos; assumption).
    assert (H2 : (1 <= size c2)%nat).
    { inversion Hpos as [|? ? _ Hp2]; subst. inversion Hp2; assumption. }
    destruct (set_choose_L c1) as [x Hx];
      [intros ->; rewrite size_empty in H1; lia|].
    destruct (set_choose_L c2) as [y Hy];
      [intros ->; rewrite size_empty in H2; lia|].
    assert (Hxy : y ∈ c1).
    { apply (Hcls c1 x y); [left|exact Hx|].
      apply Hconn.
      - apply (Hin c1 x); [left|exact Hx].
      - apply (Hin c2 y); [right; left|exact Hy]. }
    apply (Hdis 0%nat 1%nat c1 c2 eq_refl eq_refl) with (x := y);
      [lia|exact Hxy|exact Hy].
Qed.

Lemma one_component_giant (M : Matrix) (epsilon : Q) :
  length (Nx.connected_components (build_graph M epsilon)) = 1%nat ->
  giant_size (Nx.connected_components (build_graph M epsilon)) = Np.shape0 M.
Proof.
  intros Hlen. pose proof (build_graph_total_size M epsilon) as Htot.
  destruct (Nx.connected_components (build_graph M epsilon)) as [|c [|c' cs]];
    try discriminate.
  unfold total_size in Htot. unfold giant_size. cbn in *. lia.
Qed.

(** X16.  What the extreme component counts say about the thresholded
    graph: one component exactly when the matrix is non-empty and every
    two entities are joined by a path, [N] components exactly when the
    graph has no edge; with one component the giant component is
    everything, with [N] of them (and [N] at least 1) it is a single
    node. *)
Theorem compute_topology_extremes (M : Matrix) (epsilon : Q) :
  let G := build_graph M epsilon in
  let topo := compute_topology G in
  let N := Np.shape0 M in
  (n_components topo = 1%nat <->
   (1 <= N)%nat /\
   forall i j, (i < N)%nat -> (j < N)%nat -> rtc (Nx.has_edge G) i j) /\
  (n_components topo = N <-> forall u v, ~ Nx.has_edge G u v) /\
  (n_components topo = 1%nat -> topo_giant_size topo = N) /\
  ((1 <= N)%nat -> n_components topo = N -> topo_giant_size topo = 1%nat).
Proof.
  cbn zeta. unfold compute_topology. cbn [n_components topo_giant_size].
  set (G := build_graph M epsilon).
  set (comps := Nx.connected_components G).
  destruct (build_graph_components_parts M epsilon) as (Hdis & Hcov & Hcls & Hin).
  fold G in Hdis, Hcov, Hcls, Hin. fold comps in Hdis, Hcov, Hcls, Hin.
  pose proof (build_graph_total_size M epsilon) as Htot.
  fold G in Htot. fold comps in Htot.
  pose proof (component_sizes_positive G) as Hpos. fold comps in Hpos.
  assert (Hfrag : length comps = Np.shape0 M ->
            Forall (fun s => s = 1%nat) (map size comps)).
  { intros Hlen. apply sizes_all_one; [exact Hpos|].
    unfold total_size in Htot. rewrite Htot, length_map. symmetry. exact Hlen. }
  split; [|split; [|split]].
  - split.
    + intros Hlen.
      destruct comps as [|c [|c' cs]] eqn:Hcomps; try discriminate.
      assert (HN : (1 <= Np.shape0 M)%nat).
      { unfold total_size in Htot. inversion Hpos; subst. cbn in Htot. lia. }
      split; [exact HN|]. intros i j Hi Hj.
      destruct (Hcov i Hi) as (ci & Hci & Hici).
      destruct (Hcov j Hj) as (cj & Hcj & Hjcj).
      apply list_elem_of_singleton in Hci, Hcj. subst ci cj.
      apply (Hcls c i j); [left|exact Hici|exact Hjcj].
    + intros [HN Hconn]. apply connected_one_component; assumption.
  - split.
    + intros Hlen u v Huv. apply Hfrag in Hlen.
      apply (proj1 (proj2 (build_graph_spec M epsilon u v))) in Huv as Huv'.
      destruct Huv' as (Hu & Hv & Hne & _).
      destruct (Hcov u Hu) as (c & Hc & Huc).
      assert (Hvc : v ∈ c).
      { apply (Hcls c u v Hc Huc). apply rtc_once. exact Huv. }
      assert (Hsz : size c = 1%nat).
      { rewrite Forall_forall in Hlen. apply Hlen.
        apply list_elem_of_In, in_map, list_elem_of_In, Hc. }
      apply size_1_elem_of in Hsz. destruct Hsz as [z Hz].
      apply leibniz_equiv in Hz. subst c. set_solver.
    + intros Hno.
      destruct (no_edges_counts G) as [_ Hcc];
        [apply build_graph_well_formed|exact Hno|].
      fold comps in Hcc. rewrite Hcc, length_map.
      unfold G. rewrite (proj1 (build_graph_spec M epsilon 0 0)), length_seq.
      reflexivity.
  - apply one_component_giant.
  - intros HN Hlen. apply Hfrag in Hlen. unfold giant_size.
    assert (Hne : comps <> []).
    { intros Hnil. destruct (Hcov 0%nat HN) as (c & Hc & _).
      rewrite Hnil in Hc. inversion Hc. }
    clear -Hlen Hne. induction comps as [|c cs IH]; [congruence|].
    cbn in *. inversion Hlen as [|? ? Hc Hcs]; subst.
    destruct cs as [|c' cs']; [cbn; lia|].
    rewrite IH; [lia|exact Hcs|discriminate].
Qed.

(** ** The complete graph below every entry *)

Lemma sum_const (f : nat -> nat) (c : nat) (l : list nat) :
  (forall x, x ∈ l -> f x = c) ->
  foldr Nat.add 0%nat (map f l) = (length l * c)%nat.
Proof.
  induction l as [|x l IH]; intros Hf; [reflexivity|].
  cbn. rewrite Hf by left. rewrite IH; [reflexivity|].
  intros y Hy. apply Hf. right. exact Hy.
Qed.

(** X17.  A threshold that every off-diagonal entry of a non-empty matrix
    passes gives the complete graph: every node has degree [N - 1],
    there are [N (N - 1) / 2] edges, one component, and the giant
    component is everything. *)
Theorem build_graph_below_all_entries (M : Matrix) (epsilon : Q) :
  (1 <= Np.shape0 M)%nat ->
  (forall i j, (i < Np.shape0 M)%nat -> (j < Np.shape0 M)%nat -> i <> j ->
     survives M epsilon i j) ->
  let G := build_graph M epsilon in
  let N := Np.shape0 M in
  (forall v, (v < N)%nat -> Nx.degree G v = (N - 1)%nat) /\
  Nx.number_of_edges G = (N * (N - 1) / 2)%nat /\
  n_components (compute_topology G) = 1%nat /\
  topo_giant_size (compute_topology G) = N.
Proof.
  intros HN Hall. cbn zeta.
  assert (Hedge : forall u v, Nx.has_edge (build_graph M epsilon) u v <->
            (u < Np.shape0 M)%nat /\ (v < Np.shape0 M)%nat /\ u <> v).
  { intros u v. rewrite (proj1 (proj2 (build_graph_spec M epsilon u v))).
    split; [tauto|]. intros (Hu & Hv & Hne).
    split; [exact Hu|]. split; [exact Hv|]. split; [exact Hne|].
    left. apply Hall; assumption. }
  assert (Hdeg : forall v, (v < Np.shape0 M)%nat ->
            Nx.degree (build_graph M epsilon) v = (Np.shape0 M - 1)%nat).
  { intros v Hv. unfold Nx.degree.
    assert (Hnb : Nx.neighbors (build_graph M epsilon) v =
                  list_to_set (seq 0 (Np.shape0 M)) ∖ {[v]}).
    { apply set_eq. intros y.
      rewrite elem_of_neighbors, Hedge, elem_of_difference, elem_of_list_to_set,
        list_elem_of_In, in_seq, elem_of_singleton.
      split; [intros (_ & Hy & Hne); split; [lia|congruence]|].
      intros [Hy Hne]. split; [exact Hv|]. split; [lia|congruence]. }
    rewrite decide_False by (rewrite Hnb; set_solver).
    rewrite Hnb, size_difference.
    - rewrite size_list_to_set by apply NoDup_seq.
      rewrite length_seq, size_singleton. lia.
    - apply singleton_subseteq_l, elem_of_list_to_set, list_elem_of_In, in_seq. lia. }
  assert (Hlen : length (Nx.connected_components (build_graph M epsilon)) = 1%nat).
  { apply connected_one_component; [exact HN|]. intros i j Hi Hj.
    destruct (decide (i = j)) as [->|Hne]; [reflexivity|].
    apply rtc_once, Hedge. auto. }
  split; [exact Hdeg|]. split; [|split].
  - unfold Nx.number_of_edges.
    rewrite (proj1 (build_graph_spec M epsilon 0 0)).
    rewrite (sum_const _ (Np.shape0 M - 1)), length_seq; [reflexivity|].
    intros x Hx. apply Hdeg. apply list_elem_of_In, in_seq in Hx. lia.
  - exact Hlen.
  - unfold compute_topology. cbn [topo_giant_size].
    apply one_component_giant, Hlen.
Qed.

(** ** The cluster report of the friction pipeline *)

Lemma where_eq_component (M : Matrix) (epsilon : Q) (k : nat) (c : gset nat) :
  let comps := Nx.connected_components (build_graph M epsilon) in
  let labels := map (Sp.label_of comps) (seq 0 (Np.shape0 M)) in
  comps !! k = Some c ->
  length (where_eq labels k) = size c.
Proof.
  cbn zeta. intros Hc.
  destruct (build_graph_components_parts M epsilon) as (_ & _ & _ & Hin).
  set (comps := Nx.connected_components (build_graph M epsilon)) in *.
  set (labels := map (Sp.label_of comps) (seq 0 (Np.shape0 M))).
  assert (Hset : list_to_set (where_eq labels k) = c).
  { apply set_eq. intros x. rewrite elem_of_list_to_set, where_eq_elem.
    unfold labels. rewrite length_map, length_seq. split.
    - intros [Hx Hl]. rewrite nth_map_seq in Hl by exact Hx.
      apply (label_of_component M epsilon x k Hx) in Hl.
      destruct Hl as (c' & Hc' & Hxc'). fold comps in Hc'.
      rewrite Hc in Hc'. injection Hc' as <-. exact Hxc'.
    - intros Hx.
      assert (HxN : (x < Np.shape0 M)%nat).
      { apply (Hin c x); [eapply list_elem_of_lookup_2; exact Hc|exact Hx]. }
      split; [exact HxN|]. rewrite nth_map_seq by exact HxN.
      apply (label_of_component M epsilon x k HxN). eauto. }
  rewrite <- Hset. symmetry. apply size_list_to_set.
  unfold where_eq.
  apply NoDup_ListNoDup, List.NoDup_filter, NoDup_ListNoDup, NoDup_seq.
Qed.

(** X18.  The pipeline of [main] in [simulacion_sic.py], friction, then
    clusters, then local collapse: when the collapse returns, it has one
    record per component of the thresholded graph, record [k] has the
    size of component [k], the sizes add up to the number of entities,
    no cluster is empty, a singleton has gamma 1 and is collapsed, and
    a larger cluster has gamma equal to its dominant eigenvalue divided
    by its size. *)
Theorem friction_pipeline_report (eigvalsh : Matrix -> outcome (list Q))
    (M : Matrix) (epsilon : Q) (rs : list ClusterResult) :
  let M_eff := apply_friction M epsilon in
  let n_clusters := fst (find_clusters M_eff) in
  let labels := snd (find_clusters M_eff) in
  local_collapse eigvalsh M_eff labels n_clusters = Ok rs ->
  length rs = length (Nx.connected_components (build_graph M epsilon)) /\
  foldr Nat.add 0%nat (map cr_size rs) = Np.shape0 M /\
  forall k r, rs !! k = Some r ->
    (exists c, Nx.connected_components (build_graph M epsilon) !! k = Some c /\
               cr_size r = size c) /\
    (1 <= cr_size r)%nat /\
    (cr_size r = 1%nat -> cr_gamma r = 1 /\ cr_collapsed r = true) /\
    ((2 <= cr_size r)%nat ->
     cr_gamma r == cr_dominant_eigenvalue r / inject_Z (Z.of_nat (cr_size r))).
Proof.
  cbn zeta. rewrite find_clusters_friction. cbn [fst snd].
  set (comps := Nx.connected_components (build_graph M epsilon)).
  set (labels := map (Sp.label_of comps) (seq 0 (Np.shape0 M))).
  intros Hrs. apply local_collapse_entries in Hrs. destruct Hrs as [Hlen Hall].
  assert (Hsize : forall k r, rs !! k = Some r ->
            exists c, comps !! k = Some c /\ cr_size r = size c).
  { intros k r Hk. pose proof (lookup_lt_Some _ _ _ Hk) as Hlt.
    rewrite Hlen in Hlt. destruct (lookup_lt_is_Some_2 comps k Hlt) as [c Hc].
    exists c. split; [exact Hc|].
    destruct (Hall k r Hk) as (_ & H2 & _). cbn zeta in H2. rewrite H2.
    apply where_eq_component. exact Hc. }
  split; [exact Hlen|]. split.
  - assert (Hsz : map cr_size rs = map size comps).
    { apply list_eq. intros k. change (map ?f ?l) with (f <$> l).
      rewrite !list_lookup_fmap. destruct (rs !! k) as [r|] eqn:Hk.
      - destruct (Hsize k r Hk) as (c & Hc & Hs). rewrite Hc. cbn. congruence.
      - apply lookup_ge_None in Hk. rewrite Hlen in Hk.
        rewrite (proj2 (lookup_ge_None comps k)) by exact Hk. reflexivity. }
    rewrite Hsz. apply build_graph_total_size.
  - intros k r Hk. destruct (Hsize k r Hk) as (c & Hc & Hs).
    destruct (Hall k r Hk) as (_ & H2 & H3 & H4 & H5). cbn zeta in H2, H4, H5.
    split; [eauto|].
    assert (Hpos : (1 <= cr_size r)%nat).
    { rewrite Hs. pose proof (component_sizes_positive (build_graph M epsilon)) as Hp.
      rewrite Forall_forall in Hp. apply Hp.
      apply list_elem_of_In, in_map, list_elem_of_In.
      eapply list_elem_of_lookup_2. exact Hc. }
    split; [exact Hpos|]. split.
    + intros H1. destruct H4 as [Hg _]; [lia|].
      split; [exact Hg|]. apply H3. rewrite Hg. reflexivity.
    + intros Hge. destruct H5 as (evs & _ & _ & Hg); [lia|].
      assert (Htr : trace (ix_ (apply_friction M epsilon) (where_eq labels k)
                             (where_eq labels k)) ==
                    inject_Z (Z.of_nat (length (where_eq labels k)))).
      { apply trace_unit_diagonal. intros i Hi. apply where_eq_elem in Hi.
        destruct Hi as [Hi _]. unfold labels in Hi.
        rewrite length_map, length_seq in Hi.
        rewrite get_apply_friction by exact Hi. rewrite Nat.eqb_refl. reflexivity. }
      rewrite Hg, H2.
      assert (Hp : 0 < trace (ix_ (apply_friction M epsilon) (where_eq labels k)
                                (where_eq labels k))).
      { rewrite Htr. change 0 with (inject_Z 0). rewrite <- Zlt_Qlt. lia. }
      rewrite (Qltb_true _ _ Hp), Htr. reflexivity.
Qed.

(** ** The order of the event log *)

Lemma events_from_times (h : list nat) (t0 prev : nat) :
  (length (events_from t0 prev h) <= length h)%nat /\
  Forall (fun t => (t0 <= t < t0 + length h)%nat)
    (map (fun e : Event => fst (fst e)) (events_from t0 prev h)) /\
  StronglySorted lt (map (fun e : Event => fst (fst e)) (events_from t0 prev h)).
Proof.
  revert t0 prev. induction h as [|cur h IH]; intros t0 prev.
  - cbn. split; [lia|]. split; constructor.
  - cbn [events_from length]. destruct (IH (S t0) cur) as (Hl & Hr & Hs).
    assert (Hr' : Forall (fun t => (t0 < t < t0 + S (length h))%nat)
              (map (fun e : Event => fst (fst e)) (events_from (S t0) cur h))).
    { eapply Forall_impl; [exact Hr|]. cbn. intros t Ht. lia. }
    unfold transition_event.
    destruct (cur <? prev)%nat; [|destruct (prev <? cur)%nat].
    + cbn [app map length fst]. split; [lia|]. split.
      * constructor; [lia|]. eapply Forall_impl; [exact Hr'|]. cbn. intros; lia.
      * constructor; [exact Hs|]. eapply Forall_impl; [exact Hr'|]. cbn. intros; lia.
    + cbn [app map length fst]. split; [lia|]. split.
      * constructor; [lia|]. eapply Forall_impl; [exact Hr'|]. cbn. intros; lia.
      * constructor; [exact Hs|]. eapply Forall_impl; [exact Hr'|]. cbn. intros; lia.
    + cbn [app]. split; [lia|]. split; [|exact Hs].
      eapply Forall_impl; [exact Hr'|]. cbn. intros; lia.
Qed.

(** X19.  The event log of a run of [simulate_dynamic_graph] that
    returns is in strictly increasing order of time, every event falls
    at a step from 1 to [n_steps - 1], so there are at most
    [n_steps - 1] events and none in a run of at most one step; a run of
    no step has no snapshot and an empty history. *)
Theorem simulate_dynamic_graph_event_order (gauss : Z -> nat -> Q)
    (M_base : Matrix) (n_steps : Z) (epsilon : Q) (seed : Z)
    (r : DynamicResult) :
  simulate_dynamic_graph gauss M_base n_steps epsilon seed = Ok r ->
  let times := map (fun e : Event => fst (fst e)) (events r) in
  (length (events r) <= Z.to_nat n_steps - 1)%nat /\
  StronglySorted lt times /\
  Forall (fun t => (1 <= t < Z.to_nat n_steps)%nat) times /\
  ((n_steps <= 1)%Z -> events r = []) /\
  ((n_steps <= 0)%Z -> snapshots r = [] /\ n_components_history r = []).
Proof.
  intros Hr. cbn zeta. apply simulate_dynamic_graph_run in Hr.
  destruct Hr as (rng & _ & ->). unfold dyn_run.
  cbn [events snapshots n_components_history].
  destruct (dyn_iter_log gauss M_base n_steps epsilon rng (Z.to_nat n_steps))
    as (Hlen & Hev & _).
  rewrite Hev.
  set (h := ds_history (dyn_iter gauss M_base n_steps epsilon rng (Z.to_nat n_steps)))
    in *.
  assert (Hmain :
    (length (expected_events h) <= length h - 1)%nat /\
    StronglySorted lt (map (fun e : Event => fst (fst e)) (expected_events h)) /\
    Forall (fun t => (1 <= t < length h)%nat)
      (map (fun e : Event => fst (fst e)) (expected_events h))).
  { destruct h as [|c0 h']; [cbn; split; [lia|split; constructor]|].
    cbn [expected_events length].
    destruct (events_from_times h' 1 c0) as (Hl & Hr & Hs).
    split; [lia|]. split; [exact Hs|].
    eapply Forall_impl; [exact Hr|]. cbn. intros; lia. }
  destruct Hmain as (H1 & H2 & H3). rewrite Hlen in H1, H3.
  split; [exact H1|]. split; [exact H2|]. split; [exact H3|]. split.
  - intros Hn. apply length_zero_iff_nil. lia.
  - intros Hn. assert (Hz : Z.to_nat n_steps = 0%nat) by lia.
    unfold h. rewrite Hz. split; reflexivity.
Qed.

(** ** The further properties at the sample inputs *)

Lemma percolation_curve_ranges_witness :
  exists r,
    percolation_curve two_blocks_solver two_blocks 5 = Ok r /\
    0 < eps_dynamic r < 1.
Proof.
  eexists. split; [vm_compute; reflexivity|].
  eapply (percolation_curve_ranges two_blocks_solver two_blocks 5).
  vm_compute. reflexivity.
Defined.

Lemma percolation_giant_nonincreasing_witness :
  exists r,
    percolation_curve two_blocks_solver two_blocks 5 = Ok r /\
    forall i j a b, (i <= j)%nat ->
      giant_sizes r !! i = Some a -> giant_sizes r !! j = Some b -> b <= a.
Proof.
  eexists. split; [vm_compute; reflexivity|].
  eapply (percolation_giant_nonincreasing two_blocks_solver two_blocks 5).
  vm_compute. reflexivity.
Defined.

Lemma compute_topology_bounds_witness :
  (1 <= Np.shape0 two_blocks)%nat /\
  (1 <= n_components (compute_topology (build_graph two_blocks (1 # 2))) <= 4)%nat.
Proof.
  assert (H : (1 <= Np.shape0 two_blocks)%nat) by (cbn; lia).
  split; [exact H|].
  apply (compute_topology_bounds two_blocks (1 # 2) H).
Defined.

Lemma simulate_dynamic_graph_snapshots_witness :
  exists r,
    simulate_dynamic_graph sample_gauss two_blocks 3 (1 # 2) 42 = Ok r /\
    map snap_time (snapshots r) = [0; 1; 2]%nat.
Proof.
  eexists. split; [reflexivity|].
  destruct (simulate_dynamic_graph_snapshots sample_gauss two_blocks 3 (1 # 2) 42 _
              eq_refl) as (_ & _ & _ & H3 & _).
  apply H3. lia.
Defined.


Lemma simulate_dynamic_graph_event_order_witness :
  exists r,
    simulate_dynamic_graph sample_gauss two_blocks 3 (1 # 2) 42 = Ok r /\
    (length (events r) <= 2)%nat.
Proof.
  eexists. split; [reflexivity|].
  apply (simulate_dynamic_graph_event_order sample_gauss two_blocks 3 (1 # 2) 42 _
           eq_refl).
Defined.

Lemma apply_friction_invariant_witness :
  coherence_invariant 4 two_blocks /\
  coherence_invariant 4 (apply_friction two_blocks (1 # 2)).
Proof.
  split; [exact two_blocks_invariant|].
  apply (apply_friction_invariant two_blocks (1 # 2) 4 two_blocks_invariant).
Defined.

Lemma local_collapse_structure_witness :
  exists rs,
    local_collapse two_blocks_solver (apply_friction two_blocks (1 # 2))
      [0; 0; 1; 1]%nat 2 = Ok rs /\
    length rs = 2%nat.
Proof.
  eexists. split; [vm_compute; reflexivity|].
  eapply (local_collapse_structure two_blocks_solver
            (apply_friction two_blocks (1 # 2)) [0; 0; 1; 1]%nat 2).
  vm_compute. reflexivity.
Defined.

Lemma local_collapse_unit_diagonal_witness :
  exists rs,
    local_collapse two_blocks_solver (apply_friction two_blocks (1 # 2))
      [0; 0; 1; 1]%nat 2 = Ok rs /\
    (forall i, (i < 4)%nat ->
       Np.get (apply_friction two_blocks (1 # 2)) i i == 1) /\
    forall k r, rs !! k = Some r -> (2 <= cr_size r)%nat ->
      exists evs,
        two_blocks_solver
          (ix_ (apply_friction two_blocks (1 # 2))
             (where_eq [0; 0; 1; 1]%nat k) (where_eq [0; 0; 1; 1]%nat k)) = Ok evs /\
        last evs = Some (cr_dominant_eigenvalue r) /\
        cr_gamma r == cr_dominant_eigenvalue r / inject_Z (Z.of_nat (cr_size r)).
Proof.
  assert (Hd : forall i, (i < length [0; 0; 1; 1]%nat)%nat ->
            Np.get (apply_friction two_blocks (1 # 2)) i i == 1).
  { intros [|[|[|[|i]]]] Hi; cbn in Hi; try lia; reflexivity. }
  eexists. split; [vm_compute; reflexivity|]. split; [exact Hd|].
  eapply (local_collapse_unit_diagonal two_blocks_solver
            (apply_friction two_blocks (1 # 2)) [0; 0; 1; 1]%nat 2);
    [vm_compute; reflexivity|exact Hd].
Defined.

Lemma build_graph_laplacian_witness :
  0 <= 1 # 2 /\
  symmetric 4 (Nx.laplacian_matrix (build_graph two_blocks (1 # 2))).
Proof.
  assert (H : 0 <= 1 # 2) by (unfold Qle; cbn; lia).
  split; [exact H|].
  apply (build_graph_laplacian two_blocks (1 # 2) H).
Defined.

Lemma build_graph_below_all_entries_witness :
  (1 <= Np.shape0 two_blocks)%nat /\
  (forall i j, (i < 4)%nat -> (j < 4)%nat -> i <> j ->
     survives two_blocks (1 # 100) i j) /\
  Nx.number_of_edges (build_graph two_blocks (1 # 100)) = 6%nat.
Proof.
  assert (H1 : (1 <= Np.shape0 two_blocks)%nat) by (cbn; lia).
  assert (H2 : forall i j, (i < Np.shape0 two_blocks)%nat ->
            (j < Np.shape0 two_blocks)%nat -> i <> j ->
            survives two_blocks (1 # 100) i j).
  { intros [|[|[|[|i]]]] [|[|[|[|j]]]] Hi Hj Hne;
      cbn in Hi, Hj; try lia; try congruence;
      (split; [unfold Qle; cbn; lia|intros H; discriminate H]). }
  split; [exact H1|]. split; [exact H2|].
  apply (build_graph_below_all_entries two_blocks (1 # 100) H1 H2).
Defined.

Lemma friction_pipeline_report_witness :
  exists rs,
    local_collapse two_blocks_solver (apply_friction two_blocks (1 # 2))
      (snd (find_clusters (apply_friction two_blocks (1 # 2))))
      (fst (find_clusters (apply_friction two_blocks (1 # 2)))) = Ok rs /\
    foldr Nat.add 0%nat (map cr_size rs) = Np.shape0 two_blocks.
Proof.
  eexists. split; [vm_compute; reflexivity|].
  eapply (friction_pipeline_report two_blocks_solver two_blocks (1 # 2)).
  vm_compute. reflexivity.
Defined.
